(** * Zutty glyph atlas construction: a shallow embedding of [src/font.cc]
    and [src/fontpack.cc], with the properties of the natural-language
    specification stated and settled over it.

    Conventions.
    - C++ integers are values of [Z]; where the source computes in a fixed
      width that matters (the [unsigned int] clipping arithmetic of
      [loadFace], the [uint8_t] atlas coordinates, the [uint8_t] shift
      register of the mono decoder, the [unsigned] pixel total) the
      wrap-around is written out with [u8] / [u32].
    - The class declaration [font.h] is not among the sources.  The members
      [px], [py], [baseline], [nx], [ny] it declares are kept as mathematical
      integers; the theorems state the ranges they rely on.
    - [std::runtime_error] is the [Throw] outcome of the [result] monad.
    - FreeType and fontconfig are external: a face is a record of what the
      calls made by the source return for it. *)

From Stdlib Require Import ZArith List String Lia Bool.
From stdpp Require Import base option list gmap strings pretty.

Open Scope Z_scope.

(* ===================================================================== *)
(** ** C++ scalars and exceptions *)
(* ===================================================================== *)

Module Cxx.

(** Conversion to [uint8_t]. *)
Definition u8 (z : Z) : Z := z mod 256.

(** Conversion to [unsigned int] (32 bits). *)
Definition u32 (z : Z) : Z := z mod 4294967296.

(** [std::min] on [unsigned int]. *)
Definition umin (a b : Z) : Z := if b <? a then b else a.

(** Conversion of a [double] quotient [a / b] of two integers to an
    integer type: truncation toward zero. *)
Definition trunc_div (a b : Z) : Z := a ÷ b.

(** The [std::runtime_error]s thrown by the two translation units. *)
Inductive runtime_error : Type :=
| Could_not_initialize_FreeType
| Failed_to_load_font (filename : string)
| Impossible_atlas_geometry
| Size_mismatch_px (expected got : Z)
| Size_mismatch_py (expected got : Z)
| Could_not_set_pixel_sizes
| Unhandled_pixel_type (pixel_mode : Z)
| Cannot_initialize_fontconfig
| Cannot_parse_font_reference (fontname : string)
| Cannot_locate_regular_font (fontname : string).

(** [what ()] of each of them. *)
Definition what (e : runtime_error) : string :=
  match e with
  | Could_not_initialize_FreeType => "Could not initialize FreeType library"
  | Failed_to_load_font filename => "Failed to load font " +:+ filename
  | Impossible_atlas_geometry => "Impossible atlas geometry"
  | Size_mismatch_px expected got =>
      "Overlay font size mismatch, expected px=" +:+ pretty expected
      +:+ ", got: " +:+ pretty got
  | Size_mismatch_py expected got =>
      "Overlay font size mismatch, expected py=" +:+ pretty expected
      +:+ ", got: " +:+ pretty got
  | Could_not_set_pixel_sizes => "Could not set pixel sizes"
  | Unhandled_pixel_type pixel_mode =>
      "Unhandled pixel_type=" +:+ pretty pixel_mode
  | Cannot_initialize_fontconfig => "Cannot initialize fontconfig library"
  | Cannot_parse_font_reference fontname =>
      "Cannot parse font reference '" +:+ fontname +:+ "'"
  | Cannot_locate_regular_font fontname =>
      "Cannot locate regular font file for '" +:+ fontname +:+ "'"
  end.

(** A call returns, throws, or (the geometry loop only) does not
    return. *)
Inductive result (A : Type) : Type :=
| Ok (a : A)
| Throw (e : runtime_error)
| Diverge.
Arguments Ok {A} a.
Arguments Throw {A} e.
Arguments Diverge {A}.

#[global] Instance result_ret : MRet result := @Ok.
#[global] Instance result_bind : MBind result := fun A B k r =>
  match r with
  | Ok a => k a
  | Throw e => Throw e
  | Diverge => Diverge
  end.

Definition is_dimension_mismatch (e : runtime_error) : bool :=
  match e with
  | Size_mismatch_px _ _ | Size_mismatch_py _ _ => true
  | _ => false
  end.

End Cxx.

Import Cxx.

(* ===================================================================== *)
(** ** Loadability filter ([Font::isLoadableChar]) *)
(* ===================================================================== *)

(** The two marker code points are declared in [font.h]; [wcwidth] is the C
    library's.  All three are inputs of the model. *)
Record CharEnv := {
  Missing_Glyph_Marker : Z;
  Unicode_Replacement_Character : Z;
  wcwidth : Z -> Z
}.

Definition isLoadableChar (env : CharEnv) (dwidth : bool) (c : Z) : bool :=
  if c =? Missing_Glyph_Marker env then true
  else if c =? Unicode_Replacement_Character env then true
  else (dwidth && (wcwidth env c =? 2)) || (negb dwidth && (wcwidth env c <? 2)).

(* ===================================================================== *)
(** ** Atlas geometry ([Font::load], the [!overlay] block) *)
(* ===================================================================== *)

(** The [while ((unsigned) nx * ny < n_glyphs)] loop.  [fuel] bounds the
    number of iterations; [grid_fuel] below is always enough. *)
Fixpoint grow_grid (fuel : nat) (n_glyphs px py nx ny : Z) : option (Z * Z) :=
  if nx * ny <? n_glyphs then
    match fuel with
    | O => None
    | S fuel' =>
        if px * nx <? py * ny
        then grow_grid fuel' n_glyphs px py (nx + 1) ny
        else grow_grid fuel' n_glyphs px py nx (ny + 1)
    end
  else Some (nx, ny).

Definition grid_fuel (n_glyphs px py nx ny : Z) : nat :=
  (Z.to_nat (n_glyphs - nx) + Z.to_nat (px * n_glyphs / py + 1 - ny))%nat.

(** [n_glyphs], [total_pixels], [side] and the initial [nx], [ny].
    The glyph counter is an [int] that cannot pass [INT_MAX], so
    [n_glyphs] is exact; the product is formed in [unsigned].
    [sqrt] on [double] followed by the truncating conversion of
    [side / px] is the integer [Z.sqrt total_pixels / px]: [total_pixels]
    is below 2^32, so its square root and the quotient are computed without
    a rounding error that could cross an integer. *)
Definition atlas_start (num_glyphs px py : Z) : Z * Z * Z :=
  let n_glyphs := num_glyphs + 1 in
  let total_pixels := u32 (n_glyphs * px * py) in
  let side := Z.sqrt total_pixels in
  (n_glyphs, side / px, side / py).

Definition atlas_geometry (num_glyphs px py : Z) : option (Z * Z) :=
  let '(n_glyphs, nx, ny) := atlas_start num_glyphs px py in
  grow_grid (grid_fuel n_glyphs px py nx ny) n_glyphs px py nx ny.

(** The geometry step of the build, with its fatal exit. *)
Definition plan_atlas (num_glyphs px py : Z) : result (Z * Z) :=
  match atlas_geometry num_glyphs px py with
  | None => Diverge
  | Some (nx, ny) =>
      if (255 <? nx) || (255 <? ny)
      then Throw Impossible_atlas_geometry
      else Ok (nx, ny)
  end.

(** The planner as the specification words it: from a starting grid,
    repeatedly widen the narrower side until [n] cells fit. *)
Inductive planner_run (n px py : Z) : Z -> Z -> Z -> Z -> Prop :=
| planner_stop nx ny :
    n <= nx * ny -> planner_run n px py nx ny nx ny
| planner_inc_nx nx ny nx' ny' :
    nx * ny < n -> px * nx < py * ny ->
    planner_run n px py (nx + 1) ny nx' ny' ->
    planner_run n px py nx ny nx' ny'
| planner_inc_ny nx ny nx' ny' :
    nx * ny < n -> ~ px * nx < py * ny ->
    planner_run n px py nx (ny + 1) nx' ny' ->
    planner_run n px py nx ny nx' ny'.

(* ===================================================================== *)
(** ** FreeType and fontconfig, as the source sees them *)
(* ===================================================================== *)

Module FT.

(** [FT_Pixel_Mode] *)
Definition FT_PIXEL_MODE_MONO : Z := 1.
Definition FT_PIXEL_MODE_GRAY : Z := 2.
Definition FT_PIXEL_MODE_LCD : Z := 5.

Inductive FT_Render_Mode : Type :=
| FT_RENDER_MODE_NORMAL
| FT_RENDER_MODE_LIGHT
| FT_RENDER_MODE_MONO
| FT_RENDER_MODE_LCD.

Definition is_LCD (m : FT_Render_Mode) : bool :=
  match m with FT_RENDER_MODE_LCD => true | _ => false end.

(** [FT_Bitmap]: [rows], [width] are [unsigned int], [pitch] is [int],
    [buffer] the bytes [pitch * rows] of the rasterised glyph. *)
Record FT_Bitmap := {
  rows : Z;
  width : Z;
  pitch : Z;
  buffer : list Z;
  pixel_mode : Z
}.

(** The part of [face->glyph] read after a glyph was loaded. *)
Record FT_GlyphSlot := {
  bitmap_left : Z;
  bitmap_top : Z;
  bitmap : FT_Bitmap
}.

(** What [FT_Load_Char] followed, for a glyph that is not a bitmap yet,
    by [FT_Render_Glyph] leaves behind. *)
Inductive raster : Type :=
| Load_fails
| Render_fails
| Rendered (glyph : FT_GlyphSlot).

(** An entry of [face->available_sizes]. *)
Record FT_Bitmap_Size := {
  size_width : Z;
  size_height : Z
}.

(** An opened face.  [charcodes] is the sequence produced by
    [FT_Get_First_Char] / [FT_Get_Next_Char] up to the first zero
    [gindex]; [FT_Load_Char] is the rasterisation obtained under the
    load flags and render mode of the build at the size that was set. *)
Record FT_Face := {
  charcodes : list Z;
  available_sizes : list FT_Bitmap_Size;
  units_per_EM : Z;
  ascender : Z;
  height : Z;
  max_advance_width : Z;
  FT_Set_Pixel_Sizes : Z -> bool;
  FT_Load_Char : FT_Render_Mode -> Z -> raster
}.

Definition num_fixed_sizes (face : FT_Face) : Z :=
  Z.of_nat (length (available_sizes face)).

(** The library: initialisation and [FT_New_Face] by file name. *)
Record FT_Library := {
  FT_Init_FreeType : bool;
  FT_New_Face : string -> option FT_Face
}.

End FT.

Module Fc.

Definition FC_HINT_NONE : Z := 0.
Definition FC_HINT_FULL : Z := 3.
Definition FC_RGBA_RGB : Z := 1.
Definition FC_RGBA_BGR : Z := 2.
Definition FC_SLANT_ROMAN : Z := 0.
Definition FC_SLANT_ITALIC : Z := 100.
Definition FC_WEIGHT_BOLD : Z := 200.

(** A matched pattern, with the defaults of [Font::load] already filled
    in for absent properties.  [pixel_size] is the [pixelSize] obtained
    from [FC_SIZE] and [FC_DPI], or from [FC_PIXEL_SIZE]. *)
Record FcPattern := {
  file : string;
  pixel_size : Z;
  antialias : bool;
  hinting : bool;
  hint_style : Z;
  rgba : Z;
  lcd_filter : Z;
  autohint : bool
}.

(** A pattern being matched: the parsed name and the properties the
    Fontpack constructor overrides. *)
Record FcRequest := {
  name : string;
  dpi : option Z;
  slant : option Z;
  weight : option Z
}.

Definition set_dpi (v : Z) (r : FcRequest) : FcRequest :=
  {| name := name r; dpi := Some v; slant := slant r; weight := weight r |}.
Definition set_slant (v : Z) (r : FcRequest) : FcRequest :=
  {| name := name r; dpi := dpi r; slant := Some v; weight := weight r |}.
Definition set_weight (v : Z) (r : FcRequest) : FcRequest :=
  {| name := name r; dpi := dpi r; slant := slant r; weight := Some v |}.

(** [FcInitLoadConfigAndFonts], [FcNameParse] and the static helper
    [matchFont]. *)
Record FcConfig := {
  FcInitLoadConfigAndFonts : bool;
  FcNameParse : string -> option FcRequest;
  matchFont : FcRequest -> option FcPattern
}.

End Fc.

Import FT Fc.

(* ===================================================================== *)
(** ** The Font class *)
(* ===================================================================== *)

Definition bytes_per_pixel : Z := 4.

(** [Font::AtlasPos]: two [uint8_t] coordinates. *)
Record AtlasPos := { x : Z; y : Z }.

Record Font := {
  overlay : bool;
  dwidth : bool;
  px : Z;
  py : Z;
  baseline : Z;
  nx : Z;
  ny : Z;
  atlasBuf : list Z;
  atlasMap : gmap Z AtlasPos;
  atlas_seq : Z;
  loadSkipCount : Z;
  glyph_render_mode : FT_Render_Mode
}.

Definition set_size (w h : Z) (f : Font) : Font :=
  {| overlay := overlay f; dwidth := dwidth f; px := w; py := h;
     baseline := baseline f; nx := nx f; ny := ny f;
     atlasBuf := atlasBuf f; atlasMap := atlasMap f;
     atlas_seq := atlas_seq f; loadSkipCount := loadSkipCount f;
     glyph_render_mode := glyph_render_mode f |}.

Definition set_baseline (b : Z) (f : Font) : Font :=
  {| overlay := overlay f; dwidth := dwidth f; px := px f; py := py f;
     baseline := b; nx := nx f; ny := ny f;
     atlasBuf := atlasBuf f; atlasMap := atlasMap f;
     atlas_seq := atlas_seq f; loadSkipCount := loadSkipCount f;
     glyph_render_mode := glyph_render_mode f |}.

Definition set_grid (cols rws : Z) (f : Font) : Font :=
  {| overlay := overlay f; dwidth := dwidth f; px := px f; py := py f;
     baseline := baseline f; nx := cols; ny := rws;
     atlasBuf := atlasBuf f; atlasMap := atlasMap f;
     atlas_seq := atlas_seq f; loadSkipCount := loadSkipCount f;
     glyph_render_mode := glyph_render_mode f |}.

Definition set_atlasBuf (buf : list Z) (f : Font) : Font :=
  {| overlay := overlay f; dwidth := dwidth f; px := px f; py := py f;
     baseline := baseline f; nx := nx f; ny := ny f;
     atlasBuf := buf; atlasMap := atlasMap f;
     atlas_seq := atlas_seq f; loadSkipCount := loadSkipCount f;
     glyph_render_mode := glyph_render_mode f |}.

Definition set_render_mode (m : FT_Render_Mode) (f : Font) : Font :=
  {| overlay := overlay f; dwidth := dwidth f; px := px f; py := py f;
     baseline := baseline f; nx := nx f; ny := ny f;
     atlasBuf := atlasBuf f; atlasMap := atlasMap f;
     atlas_seq := atlas_seq f; loadSkipCount := loadSkipCount f;
     glyph_render_mode := m |}.

Definition count_skip (f : Font) : Font :=
  {| overlay := overlay f; dwidth := dwidth f; px := px f; py := py f;
     baseline := baseline f; nx := nx f; ny := ny f;
     atlasBuf := atlasBuf f; atlasMap := atlasMap f;
     atlas_seq := atlas_seq f; loadSkipCount := loadSkipCount f + 1;
     glyph_render_mode := glyph_render_mode f |}.

(** Modelled from the spec: the key type of [AtlasMap], declared in
    [font.h], which is not among the sources.  The spec has the map take
    code points to cell coordinates, so [atlasMap [c] = apos; ++atlas_seq;]
    enters [c] itself, with no conversion to a narrower key. *)
Definition record_glyph (c : Z) (apos : AtlasPos) (f : Font) : Font :=
  {| overlay := overlay f; dwidth := dwidth f; px := px f; py := py f;
     baseline := baseline f; nx := nx f; ny := ny f;
     atlasBuf := atlasBuf f; atlasMap := <[c := apos]> (atlasMap f);
     atlas_seq := atlas_seq f + 1; loadSkipCount := loadSkipCount f;
     glyph_render_mode := glyph_render_mode f |}.

(* --------------------------------------------------------------------- *)
(** *** Sizing: [Font::loadScaled] and [Font::loadFixed] *)

(** The quotients are taken on [double] in the source and converted to
    an integer; here they are the truncated quotients of the integers,
    which is the same value when the divisor is not 0 and the quotient
    fits the integer type.  For a divisor 0 the source converts an
    infinity or a NaN, which is undefined, and [trunc_div] gives 0. *)
Definition loadScaled (face : FT_Face) (pixelSize : Z) (f : Font) : result Font :=
  let tpx := trunc_div (pixelSize * max_advance_width face) (units_per_EM face) in
  let tpy := trunc_div (tpx * height face + max_advance_width face)
                       (max_advance_width face) in
  let f1 := if negb (overlay f) && negb (dwidth f) then set_size tpx tpy f else f in
  let f2 := if negb (overlay f1)
            then set_baseline (trunc_div (tpy * ascender face) (height face)) f1
            else f1 in
  if negb (FT_Set_Pixel_Sizes face pixelSize)
  then Throw Could_not_set_pixel_sizes
  else Ok f2.

Definition INT_MAX : Z := 2147483647.

(** The [for] loop of [loadFixed]: index and height difference of the
    strike closest to [pixelSize]; [i] is the index of the head of
    [sizes]. *)
Fixpoint best_size (pixelSize : Z) (sizes : list FT_Bitmap_Size) (i : Z)
    (bestIdx bestHeightDiff : Z) : Z * Z :=
  match sizes with
  | [] => (bestIdx, bestHeightDiff)
  | s :: sizes' =>
      let diff := Z.abs (pixelSize - size_height s) in
      if diff <? bestHeightDiff
      then best_size pixelSize sizes' (i + 1) i diff
      else best_size pixelSize sizes' (i + 1) bestIdx bestHeightDiff
  end.

(** [face->available_sizes [bestIdx]].  The index is in range whenever the
    face has a strike, which the caller checked. *)
Definition strike_at (face : FT_Face) (idx : Z) : FT_Bitmap_Size :=
  nth (Z.to_nat idx) (available_sizes face) {| size_width := 0; size_height := 0 |}.

Definition loadFixed (face : FT_Face) (pixelSize : Z) (f : Font) : result Font :=
  let '(bestIdx, bestHeightDiff) :=
    best_size pixelSize (available_sizes face) 0 (-1) INT_MAX in
  if (1 <? bestHeightDiff) && (0 <? units_per_EM face)
  then loadScaled face pixelSize f
  else
    let facesize := strike_at face bestIdx in
    f1 ← (if overlay f || dwidth f
          then
            if negb (px f =? size_width facesize)
            then Throw (Size_mismatch_px (px f) (size_width facesize))
            else if negb (py f =? size_height facesize)
            then Throw (Size_mismatch_py (py f) (size_height facesize))
            else Ok f
          else Ok (set_baseline 0 (set_size (size_width facesize)
                                            (size_height facesize) f)));
    if negb (FT_Set_Pixel_Sizes face (py f1))
    then Throw Could_not_set_pixel_sizes
    else if negb (overlay f1) && negb (height face =? 0)
    then Ok (set_baseline (trunc_div (py f1 * ascender face) (height face)) f1)
    else Ok f1.

(* --------------------------------------------------------------------- *)
(** *** Rasterising one glyph: [Font::loadFace] *)

(** A store through [atl_dst_row]: byte offset from [atlasBuf.data ()]
    and the value stored.  The loops below yield the stores they perform,
    in order; [commit] carries them out on the buffer. *)
Definition store : Type := Z * Z.

(** [*bmp_src_row]: a byte of the glyph bitmap (0 outside of it, where the
    source reads whatever follows the bitmap). *)
Definition peek (src : list Z) (i : Z) : Z :=
  if i <? 0 then 0 else nth (Z.to_nat i) src 0.

(** A store outside of the vector is undefined in C++; here it leaves the
    buffer as it is. *)
Definition poke (buf : list Z) (w : store) : list Z :=
  if fst w <? 0 then buf else <[Z.to_nat (fst w) := snd w]> buf.

Definition commit (ws : list store) (buf : list Z) : list Z :=
  fold_left poke ws buf.

(** Inner loop of the overlay clearing: four zero bytes per pixel. *)
Fixpoint clear_row (bw : nat) (dst : Z) : list store :=
  match bw with
  | O => []
  | S bw' =>
      (dst, 0) :: (dst + 1, 0) :: (dst + 2, 0) :: (dst + 3, 0)
      :: clear_row bw' (dst + 4)
  end.

(** Inner loop of [case FT_PIXEL_MODE_MONO]; [k] is the loop counter, [s]
    the source pointer, [byte] the shift register. *)
Fixpoint mono_row (bw : nat) (k : Z) (src : list Z) (s byte dst : Z) : list store :=
  match bw with
  | O => []
  | S bw' =>
      let s1 := if k mod 8 =? 0 then s + 1 else s in
      let byte1 := if k mod 8 =? 0 then peek src s else byte in
      let val := if Z.land byte1 128 =? 0 then 0 else 255 in
      (dst, val) :: (dst + 1, val) :: (dst + 2, val)
      :: mono_row bw' (k + 1) src s1 (u8 (Z.shiftl byte1 1)) (dst + 4)
  end.

(** Inner loop of [case FT_PIXEL_MODE_GRAY]. *)
Fixpoint gray_row (bw : nat) (src : list Z) (s dst : Z) : list store :=
  match bw with
  | O => []
  | S bw' =>
      let val := peek src s in
      (dst, val) :: (dst + 1, val) :: (dst + 2, val)
      :: gray_row bw' src (s + 1) (dst + 4)
  end.

(** Inner loop of [case FT_PIXEL_MODE_LCD]. *)
Fixpoint lcd_row (bw : nat) (src : list Z) (s dst : Z) : list store :=
  match bw with
  | O => []
  | S bw' =>
      (dst, peek src s) :: (dst + 1, peek src (s + 1)) :: (dst + 2, peek src (s + 2))
      :: lcd_row bw' src (s + 3) (dst + 4)
  end.

(** [for (unsigned int j = 0; j < bh; ++j) body] *)
Definition for_rows (bh : Z) (body : Z -> list store) : list store :=
  flat_map body (seqZ 0 bh).

(** The clipping arithmetic of [loadFace], on [unsigned int]. *)
Record Clip := {
  xskip : Z;
  dx : Z;
  dy : Z;
  tw : Z;
  bh : Z;
  bw : Z
}.

Definition clip (f : Font) (g : FT_GlyphSlot) : Clip :=
  let xskip := if bitmap_left g <? 0 then u32 (- bitmap_left g) else 0 in
  let dx := if 0 <? bitmap_left g then u32 (bitmap_left g) else 0 in
  let dy := if negb (baseline f =? 0) && (bitmap_top g <? baseline f)
            then u32 (baseline f - bitmap_top g) else 0 in
  let tw := if is_LCD (glyph_render_mode f)
            then width (bitmap g) / 3 else width (bitmap g) in
  let bh := umin (rows (bitmap g)) (u32 (py f - dy)) in
  let bw := umin tw (u32 (px f - dx)) in
  {| xskip := xskip; dx := dx; dy := dy; tw := tw; bh := bh; bw := bw |}.

(** [atlas_glyph_offset] and [atlas_write_offset].  The source forms the
    products in [unsigned int] and holds the results in [const int]; they
    are exact here.  The two agree as long as no term reaches 2^31, which
    is so for every cell of the grid of an atlas of fewer than 2^31 bytes;
    the theorems on the cells that the glyphs of a build reach are stated
    for such an atlas. *)
Definition atlas_glyph_offset (f : Font) (apos : AtlasPos) : Z :=
  let atlas_row_offset := bytes_per_pixel * nx f * px f * py f in
  y apos * atlas_row_offset + bytes_per_pixel * x apos * px f.

Definition atlas_write_offset (f : Font) (g : FT_GlyphSlot) (apos : AtlasPos) : Z :=
  let c := clip f g in
  atlas_glyph_offset f apos + bytes_per_pixel * (nx f * px f * dy c + dx c).

(** The overlay clearing loop. *)
Definition clear_stores (f : Font) (g : FT_GlyphSlot) (apos : AtlasPos) : list store :=
  let c := clip f g in
  if overlay f
  then for_rows (bh c) (fun j =>
         clear_row (Z.to_nat (bw c))
           (atlas_glyph_offset f apos + bytes_per_pixel * j * nx f * px f))
  else [].

(** The [switch (bmp.pixel_mode)]. *)
Definition decode_stores (f : Font) (g : FT_GlyphSlot) (apos : AtlasPos)
    : result (list store) :=
  let c := clip f g in
  let bmp := bitmap g in
  let dst_row j := atlas_write_offset f g apos + bytes_per_pixel * j * nx f * px f in
  if pixel_mode bmp =? FT_PIXEL_MODE_MONO then
    Ok (for_rows (bh c) (fun j =>
          mono_row (Z.to_nat (bw c)) 0 (buffer bmp)
                   (j * pitch bmp + xskip c) 0 (dst_row j)))
  else if pixel_mode bmp =? FT_PIXEL_MODE_GRAY then
    Ok (for_rows (bh c) (fun j =>
          gray_row (Z.to_nat (bw c)) (buffer bmp)
                   (j * pitch bmp + xskip c) (dst_row j)))
  else if pixel_mode bmp =? FT_PIXEL_MODE_LCD then
    Ok (for_rows (bh c) (fun j =>
          lcd_row (Z.to_nat (bw c)) (buffer bmp)
                  (j * pitch bmp + 3 * xskip c) (dst_row j)))
  else Throw (Unhandled_pixel_type (pixel_mode bmp)).

(** Everything [loadFace] stores for a rendered glyph. *)
Definition glyph_stores (f : Font) (g : FT_GlyphSlot) (apos : AtlasPos)
    : result (list store) :=
  ws ← decode_stores f g apos;
  Ok (clear_stores f g apos ++ ws).

(** [Font::loadFace (face, c, apos)] *)
Definition loadFace_at (face : FT_Face) (c : Z) (apos : AtlasPos) (f : Font)
    : result Font :=
  if 65535 <? c then Ok (count_skip f)
  else
    match FT_Load_Char face (glyph_render_mode f) c with
    | Load_fails => Ok f
    | Render_fails => Ok f
    | Rendered g =>
        ws ← glyph_stores f g apos;
        Ok (set_atlasBuf (commit ws (atlasBuf f)) f)
    end.

(** The cell the next glyph is assigned. *)
Definition next_pos (f : Font) : AtlasPos :=
  let atlas_row := u8 (atlas_seq f ÷ nx f) in
  let atlas_col := u8 (atlas_seq f - nx f * atlas_row) in
  {| x := atlas_col; y := atlas_row |}.

(** [Font::loadFace (face, c)] *)
Definition loadFace (face : FT_Face) (c : Z) (f : Font) : result Font :=
  let apos := next_pos f in
  f' ← loadFace_at face c apos f;
  Ok (record_glyph c apos f').

(* --------------------------------------------------------------------- *)
(** *** Building a font: [Font::load] and the constructors *)

(** The render mode chosen from the pattern.  (The load flags chosen with
    it only reach [FT_Load_Char], whose outcome the face record gives.) *)
Definition render_mode_of (font : FcPattern) : FT_Render_Mode :=
  let subpixel := (rgba font =? FC_RGBA_RGB) || (rgba font =? FC_RGBA_BGR) in
  if antialias font then
    if (FC_HINT_NONE <? hint_style font) && (hint_style font <? FC_HINT_FULL)
    then if subpixel then FT_RENDER_MODE_LCD else FT_RENDER_MODE_LIGHT
    else if subpixel then FT_RENDER_MODE_LCD else FT_RENDER_MODE_NORMAL
  else FT_RENDER_MODE_MONO.

(** First pass over the character map: [num_glyphs]. *)
Fixpoint count_glyphs (env : CharEnv) (dw : bool) (cs : list Z) (num_glyphs : Z) : Z :=
  match cs with
  | [] => num_glyphs
  | charcode :: cs' =>
      count_glyphs env dw cs'
        (if isLoadableChar env dw charcode then num_glyphs + 1 else num_glyphs)
  end.

(** The [if (!overlay)] block: geometry and allocation. *)
Definition allocate_atlas (num_glyphs : Z) (f : Font) : result Font :=
  g ← plan_atlas num_glyphs (px f) (py f);
  let atlas_bytes := u32 (bytes_per_pixel * g.1 * px f * g.2 * py f) in
  Ok (set_atlasBuf (resize (Z.to_nat atlas_bytes) 0 (atlasBuf f))
                   (set_grid g.1 g.2 f)).

(** Second pass over the character map: rasterisation. *)
Fixpoint load_glyphs (env : CharEnv) (face : FT_Face) (cs : list Z) (f : Font)
    : result Font :=
  match cs with
  | [] => Ok f
  | charcode :: cs' =>
      f' ← (if isLoadableChar env (dwidth f) charcode
            then
              if overlay f
              then
                match atlasMap f !! charcode with
                | Some apos => loadFace_at face charcode apos f
                | None => Ok f
                end
              else loadFace face charcode f
            else Ok f);
      load_glyphs env face cs' f'
  end.

(** [if (face->num_fixed_sizes > 0) loadFixed (...); else loadScaled (...);] *)
Definition sizing (face : FT_Face) (pixelSize : Z) (f : Font) : result Font :=
  if 0 <? num_fixed_sizes face
  then loadFixed face pixelSize f
  else loadScaled face pixelSize f.

Definition load (ft : FT_Library) (env : CharEnv) (font : FcPattern) (f : Font)
    : result Font :=
  if negb (FT_Init_FreeType ft) then Throw Could_not_initialize_FreeType
  else
    match FT_New_Face ft (file font) with
    | None => Throw (Failed_to_load_font (file font))
    | Some face =>
        let pixelSize := pixel_size font in
        let f0 := set_render_mode (render_mode_of font) f in
        let num_glyphs := count_glyphs env (dwidth f0) (charcodes face) 0 in
        f1 ← sizing face pixelSize f0;
        f2 ← (if negb (overlay f1) then allocate_atlas num_glyphs f1 else Ok f1);
        load_glyphs env face (charcodes face) f2
    end.

(** Modelled from the spec: the initial value of the member [atlas_seq],
    declared in [font.h], which is not among the sources.  The spec reserves
    cell (0,0) as the blank fallback and the source counts one extra glyph
    space for it, so the first glyph takes sequence number 1. *)
Definition atlas_seq_init : Z := 1.

(** The members before a constructor's initialiser list: the defaults of
    the class declaration ([overlay] and [dwidth] off, counters at their
    start, nothing allocated). *)
Definition blank_Font : Font :=
  {| overlay := false; dwidth := false; px := 0; py := 0; baseline := 0;
     nx := 0; ny := 0; atlasBuf := []; atlasMap := ∅;
     atlas_seq := atlas_seq_init; loadSkipCount := 0;
     glyph_render_mode := FT_RENDER_MODE_NORMAL |}.

(** The primary constructor, [Font::Font (font_)]. *)
Definition Font_Regular (ft : FT_Library) (env : CharEnv) (font : FcPattern)
    : result Font :=
  load ft env font blank_Font.

(** The members after the initialiser list of the constructor tagged
    [Overlay_]: geometry, atlas buffer and atlas map are copied from the
    primary font. *)
Definition overlay_members (priFont : Font) : Font :=
  {| overlay := true; dwidth := false;
     px := px priFont; py := py priFont; baseline := baseline priFont;
     nx := nx priFont; ny := ny priFont;
     atlasBuf := atlasBuf priFont; atlasMap := atlasMap priFont;
     atlas_seq := atlas_seq_init; loadSkipCount := 0;
     glyph_render_mode := FT_RENDER_MODE_NORMAL |}.

Definition Font_Overlay (ft : FT_Library) (env : CharEnv) (font : FcPattern)
    (priFont : Font) : result Font :=
  load ft env font (overlay_members priFont).

(** The members after the initialiser list of the constructor tagged
    [DoubleWidth_], which sets [dwidth], [px] and [py] and leaves the
    others, [overlay] among them, at their defaults. *)
Definition doublewidth_members (priFont : Font) : Font :=
  {| overlay := false; dwidth := true;
     px := 2 * px priFont; py := py priFont; baseline := 0;
     nx := 0; ny := 0; atlasBuf := []; atlasMap := ∅;
     atlas_seq := atlas_seq_init; loadSkipCount := 0;
     glyph_render_mode := FT_RENDER_MODE_NORMAL |}.

Definition Font_DoubleWidth (ft : FT_Library) (env : CharEnv) (font : FcPattern)
    (priFont : Font) : result Font :=
  load ft env font (doublewidth_members priFont).

(* ===================================================================== *)
(** ** The Fontpack class ([Fontpack::Fontpack]) *)
(* ===================================================================== *)

Record Fontpack := {
  fontRegular : Font;
  fontItalic : option Font;
  fontBoldItalic : option Font;
  fontBold : option Font;
  fontDoubleWidth : option Font;
  fp_px : Z;
  fp_py : Z
}.

(** One optional slot: when [matchFont] found a pattern the Font is
    constructed against the regular one, otherwise a warning is logged.
    No exception of the Font constructor is caught. *)
Definition build_variant (ctor : FcPattern -> Font -> result Font)
    (fcmatch : option FcPattern) (regular : Font) : result (option Font) :=
  match fcmatch with
  | Some m => f ← ctor m regular; Ok (Some f)
  | None => Ok None
  end.

Definition Fontpack_ctor (fc : FcConfig) (ft : FT_Library) (env : CharEnv)
    (opts_dpi : Z) (fontname dwfontname : string) : result Fontpack :=
  if negb (FcInitLoadConfigAndFonts fc) then Throw Cannot_initialize_fontconfig
  else
    match FcNameParse fc fontname with
    | None => Throw (Cannot_parse_font_reference fontname)
    | Some pattern0 =>
        let pattern1 := if 0 <? opts_dpi then set_dpi opts_dpi pattern0 else pattern0 in
        match matchFont fc pattern1 with
        | None => Throw (Cannot_locate_regular_font fontname)
        | Some m =>
            regular ← Font_Regular ft env m;
            let pattern2 := set_slant FC_SLANT_ITALIC pattern1 in
            italic ← build_variant (Font_Overlay ft env) (matchFont fc pattern2) regular;
            let pattern3 := set_weight FC_WEIGHT_BOLD pattern2 in
            boldItalic ← build_variant (Font_Overlay ft env) (matchFont fc pattern3) regular;
            let pattern4 := set_slant FC_SLANT_ROMAN pattern3 in
            bold ← build_variant (Font_Overlay ft env) (matchFont fc pattern4) regular;
            doubleWidth ←
              (if String.eqb dwfontname EmptyString then Ok None
               else
                 match FcNameParse fc dwfontname with
                 | None => Ok None
                 | Some dwpattern =>
                     build_variant (Font_DoubleWidth ft env)
                                   (matchFont fc dwpattern) regular
                 end);
            Ok {| fontRegular := regular; fontItalic := italic;
                  fontBoldItalic := boldItalic; fontBold := bold;
                  fontDoubleWidth := doubleWidth;
                  fp_px := px regular; fp_py := py regular |}
        end
    end.

(* ===================================================================== *)
(** ** Cells of the atlas *)
(* ===================================================================== *)

(** Byte [off] of the atlas buffer belongs to the [px] x [py] pixel region
    of cell [apos]: pixel row [r] of the cell, byte [k] of that row. *)
Definition in_cell (f : Font) (apos : AtlasPos) (off : Z) : Prop :=
  ∃ r k, 0 <= r < py f ∧ 0 <= k < bytes_per_pixel * px f ∧
         off = atlas_glyph_offset f apos + bytes_per_pixel * r * nx f * px f + k.

(** The same region, enumerated. *)
Definition cell_offsets (f : Font) (apos : AtlasPos) : list Z :=
  flat_map (fun r =>
      map (fun k => atlas_glyph_offset f apos + bytes_per_pixel * r * nx f * px f + k)
          (seqZ 0 (bytes_per_pixel * px f)))
    (seqZ 0 (py f)).

(** Every byte of the cell that the buffer holds is zero. *)
Definition cell_blank (f : Font) (apos : AtlasPos) : Prop :=
  ∀ off v, in_cell f apos off → 0 <= off → atlasBuf f !! Z.to_nat off = Some v → v = 0.

(** Executable reading of the cell. *)
Definition cell_bytes (f : Font) (apos : AtlasPos) : list Z :=
  map (peek (atlasBuf f)) (cell_offsets f apos).

(** The cell is inside the grid. *)
Definition in_grid (f : Font) (apos : AtlasPos) : Prop :=
  0 <= x apos < nx f ∧ 0 <= y apos < ny f.

(** The glyph's bearings leave its origin inside the cell: the case in
    which the unsigned differences [px - dx] and [py - dy] do not wrap. *)
Definition fits_cell (f : Font) (g : FT_GlyphSlot) : Prop :=
  dx (clip f g) <= px f ∧ dy (clip f g) <= py f.


(* ===================================================================== *)
(** ** The decoders as the specification words them *)
(* ===================================================================== *)

(** Colour channel [i] (0 = R, 1 = G, 2 = B) of destination pixel [k] of
    bitmap row [j], by pixel mode: mono takes bit [7 - k mod 8] of source
    byte [k / 8] and turns it into white or black, grayscale replicates
    source byte [k], subpixel copies source bytes [3k .. 3k+2]. *)
Definition mono_value (src : list Z) (row_start : Z) (k i : Z) : Z :=
  if Z.testbit (peek src (row_start + k / 8)) (7 - k mod 8) then 255 else 0.

Definition gray_value (src : list Z) (row_start : Z) (k i : Z) : Z :=
  peek src (row_start + k).

Definition lcd_value (src : list Z) (row_start : Z) (k i : Z) : Z :=
  peek src (row_start + 3 * k + i).

(** Three stores per pixel, R, G and B of pixels [k0 .. k0 + n - 1] of a
    destination row starting at byte [dst]. *)
Definition pixel_row (dst : Z) (val : Z -> Z -> Z) (k0 n : Z) : list store :=
  flat_map (fun k =>
      [ (dst + 4 * k, val k 0); (dst + 4 * k + 1, val k 1);
        (dst + 4 * k + 2, val k 2) ])
    (seqZ k0 n).

(** The value the decode of glyph [g] gives channel [i] of pixel [(j, k)]. *)
Definition pixel_value (f : Font) (g : FT_GlyphSlot) (j k i : Z) : Z :=
  let c := clip f g in
  let bmp := bitmap g in
  if pixel_mode bmp =? FT_PIXEL_MODE_MONO
  then mono_value (buffer bmp) (j * pitch bmp + xskip c) k i
  else if pixel_mode bmp =? FT_PIXEL_MODE_GRAY
  then gray_value (buffer bmp) (j * pitch bmp + xskip c) k i
  else lcd_value (buffer bmp) (j * pitch bmp + 3 * xskip c) k i.

(** Byte offset of channel 0 of destination pixel [(j, k)] of the glyph. *)
Definition pixel_offset (f : Font) (g : FT_GlyphSlot) (apos : AtlasPos) (j k : Z) : Z :=
  atlas_write_offset f g apos + bytes_per_pixel * j * nx f * px f + 4 * k.

Definition handled_pixel_mode (m : Z) : bool :=
  (m =? FT_PIXEL_MODE_MONO) || (m =? FT_PIXEL_MODE_GRAY) || (m =? FT_PIXEL_MODE_LCD).

(** The cell with sequence number [s] in a grid of [cols] columns, filled
    row by row. *)
Definition seq_pos (cols s : Z) : AtlasPos :=
  {| x := s mod cols; y := s / cols |}.

(** The glyph of code point [c] is rasterised by [face]: [loadFace] gets
    past its early returns. *)
Definition rasterised (face : FT_Face) (mode : FT_Render_Mode) (c : Z) : Prop :=
  c <= 65535 ∧ ∃ g, FT_Load_Char face mode c = Rendered g.

(** Every glyph the face can rasterise keeps its origin inside the cell. *)
Definition all_fit (face : FT_Face) (f : Font) : Prop :=
  ∀ c g, FT_Load_Char face (glyph_render_mode f) c = Rendered g → fits_cell f g.

(** What no step after the sizing changes. *)
Definition same_geometry (f f' : Font) : Prop :=
  overlay f' = overlay f ∧ dwidth f' = dwidth f ∧
  px f' = px f ∧ py f' = py f ∧ baseline f' = baseline f ∧
  nx f' = nx f ∧ ny f' = ny f ∧
  glyph_render_mode f' = glyph_render_mode f.

(** The atlas map of a primary build in progress: every entry is the cell
    of a sequence number already handed out, and no cell is entered
    twice. *)
Definition map_ok (f : Font) : Prop :=
  (∀ c p, atlasMap f !! c = Some p →
          ∃ s, atlas_seq_init <= s < atlas_seq f ∧ p = seq_pos (nx f) s) ∧
  (∀ c1 c2 p, atlasMap f !! c1 = Some p → atlasMap f !! c2 = Some p → c1 = c2).

(** The cell [loadFace] computes for sequence number [s], with its
    [uint8_t] conversions. *)
Definition raw_pos (cols s : Z) : AtlasPos :=
  {| x := u8 (s - cols * u8 (s ÷ cols)); y := u8 (s ÷ cols) |}.

(** What the sizing step ([loadFixed] or [loadScaled]) keeps. *)
Definition same_tables (f f' : Font) : Prop :=
  overlay f' = overlay f ∧ dwidth f' = dwidth f ∧
  nx f' = nx f ∧ ny f' = ny f ∧
  atlasBuf f' = atlasBuf f ∧ atlasMap f' = atlasMap f ∧
  atlas_seq f' = atlas_seq f ∧
  glyph_render_mode f' = glyph_render_mode f ∧
  (overlay f = true → px f' = px f ∧ py f' = py f ∧ baseline f' = baseline f) ∧
  (dwidth f = true → px f' = px f ∧ py f' = py f).

(** The dimensions [loadScaled] derives from the face. *)
Definition scaled_size (face : FT_Face) (pixelSize : Z) : Z * Z :=
  let tpx := trunc_div (pixelSize * max_advance_width face) (units_per_EM face) in
  let tpy := trunc_div (tpx * height face + max_advance_width face)
                       (max_advance_width face) in
  (tpx, tpy).

(** The strike [loadFixed] settles on. *)
Definition chosen_strike (face : FT_Face) (pixelSize : Z) : FT_Bitmap_Size :=
  strike_at face (best_size pixelSize (available_sizes face) 0 (-1) INT_MAX).1.

(** The build sizes the font by [loadScaled]: the face has no strike, or
    its best strike is more than a pixel off and the face is scalable. *)
Definition on_scaled_path (face : FT_Face) (pixelSize : Z) : bool :=
  negb (0 <? num_fixed_sizes face) ||
  ((1 <? (best_size pixelSize (available_sizes face) 0 (-1) INT_MAX).2) &&
   (0 <? units_per_EM face)).

(** The requests of the Fontpack constructor for the style variants. *)
Definition italic_request (p : FcRequest) : FcRequest :=
  set_slant FC_SLANT_ITALIC p.
Definition bold_italic_request (p : FcRequest) : FcRequest :=
  set_weight FC_WEIGHT_BOLD (italic_request p).
Definition bold_request (p : FcRequest) : FcRequest :=
  set_slant FC_SLANT_ROMAN (bold_italic_request p).

(** The request for the regular font. *)
Definition regular_request (fc : FcConfig) (opts_dpi : Z) (fontname : string)
    : option FcRequest :=
  match FcNameParse fc fontname with
  | None => None
  | Some p => Some (if 0 <? opts_dpi then set_dpi opts_dpi p else p)
  end.

(** What is found for the double-width font: nothing when no name is
    given, the name does not parse or nothing matches. *)
Definition doublewidth_match (fc : FcConfig) (dwfontname : string) : option FcPattern :=
  if String.eqb dwfontname EmptyString then None
  else match FcNameParse fc dwfontname with
       | None => None
       | Some p => matchFont fc p
       end.

(** A variant slot after the constructor got past it: empty when nothing
    was found, the built font otherwise. *)
Definition variant_built (ctor : FcPattern -> Font -> result Font)
    (found : option FcPattern) (regular : Font) (slot : option Font) : Prop :=
  (found = None ∧ slot = None) ∨
  (∃ m f, found = Some m ∧ ctor m regular = Ok f ∧ slot = Some f).

(** The Font constructor of a variant that was found throws. *)
Definition variant_throws (ctor : FcPattern -> Font -> result Font)
    (found : option FcPattern) (regular : Font) (e : runtime_error) : Prop :=
  ∃ m, found = Some m ∧ ctor m regular = Throw e.
(* ===================================================================== *)
(** ** Concrete faces used by the examples *)
(* ===================================================================== *)

Module Samples.

(** Narrow everywhere except the CJK unified ideographs. *)
Definition env : CharEnv :=
  {| Missing_Glyph_Marker := 0;
     Unicode_Replacement_Character := 65533;
     wcwidth := fun c => if (19968 <=? c) && (c <=? 40959) then 2 else 1 |}.

(** A one-pixel grayscale glyph placed [left] pixels from the origin. *)
Definition dot (left v : Z) : FT_GlyphSlot :=
  {| bitmap_left := left; bitmap_top := 0;
     bitmap := {| rows := 1; width := 1; pitch := 1; buffer := [v];
                  pixel_mode := FT_PIXEL_MODE_GRAY |} |}.

(** A bitmap font with one 2x2 strike and the given glyphs. *)
Definition strike_face (cs : list Z) (glyphs : Z -> raster) : FT_Face :=
  {| charcodes := cs;
     available_sizes := [ {| size_width := 2; size_height := 2 |} ];
     units_per_EM := 0; ascender := 0; height := 0; max_advance_width := 0;
     FT_Set_Pixel_Sizes := fun _ => true;
     FT_Load_Char := fun _ => glyphs |}.

(** A scalable face: 1000 units per em, advance 500, height 1000. *)
Definition outline_face (cs : list Z) (glyphs : Z -> raster) : FT_Face :=
  {| charcodes := cs;
     available_sizes := [];
     units_per_EM := 1000; ascender := 800; height := 1000;
     max_advance_width := 500;
     FT_Set_Pixel_Sizes := fun _ => true;
     FT_Load_Char := fun _ => glyphs |}.

Definition pattern (f : string) (size : Z) : FcPattern :=
  {| file := f; pixel_size := size; antialias := true; hinting := true;
     hint_style := FC_HINT_FULL; rgba := 0; lcd_filter := 0;
     autohint := false |}.

(** Regular face: A and B. *)
Definition regular_glyphs (c : Z) : raster :=
  if c =? 65 then Rendered (dot 0 200)
  else if c =? 66 then Rendered (dot 0 100)
  else Load_fails.

(** Italic face: only A. *)
Definition italic_glyphs (c : Z) : raster :=
  if c =? 65 then Rendered (dot 0 7) else Load_fails.

(** A face whose glyph A sits three pixels right of its 2-pixel cell. *)
Definition shifted_glyphs (c : Z) : raster :=
  if c =? 65 then Rendered (dot 3 200)
  else if c =? 66 then Rendered (dot 0 100)
  else Load_fails.

(** A face with A, a B that fails to load, and a code point outside the
    Basic Multilingual Plane. *)
Definition sparse_glyphs (c : Z) : raster :=
  if c =? 65 then Rendered (dot 0 200)
  else if c =? 131072 then Rendered (dot 0 50)
  else Load_fails.

(** A face whose glyph A fills its 2x2 cell. *)
Definition block : FT_GlyphSlot :=
  {| bitmap_left := 0; bitmap_top := 0;
     bitmap := {| rows := 2; width := 2; pitch := 2;
                  buffer := [200; 200; 200; 200];
                  pixel_mode := FT_PIXEL_MODE_GRAY |} |}.

Definition block_glyphs (c : Z) : raster :=
  if c =? 65 then Rendered block else Load_fails.

(** The spec's planner scenario: three loadable glyphs in 10x20 cells. *)
Definition terminal_face : FT_Face :=
  {| charcodes := [65; 66; 67];
     available_sizes := [ {| size_width := 10; size_height := 20 |} ];
     units_per_EM := 0; ascender := 0; height := 0; max_advance_width := 0;
     FT_Set_Pixel_Sizes := fun _ => true;
     FT_Load_Char := fun _ _ => Load_fails |}.

Definition regular_face : FT_Face := strike_face [65; 66] regular_glyphs.
Definition italic_face : FT_Face := strike_face [65] italic_glyphs.
Definition shifted_face : FT_Face := strike_face [65; 66] shifted_glyphs.
Definition sparse_face : FT_Face := strike_face [65; 66; 131072] sparse_glyphs.
Definition block_face : FT_Face := strike_face [65] block_glyphs.
(** A scalable face with one wide code point and a bitmap face with a
    2x3 strike. *)
Definition wide_glyphs (c : Z) : raster :=
  if c =? 20013 then Rendered (dot 0 9) else Load_fails.
Definition wide_face : FT_Face := outline_face [20013] wide_glyphs.
Definition tall_face : FT_Face :=
  {| charcodes := [65];
     available_sizes := [ {| size_width := 2; size_height := 3 |} ];
     units_per_EM := 0; ascender := 0; height := 0; max_advance_width := 0;
     FT_Set_Pixel_Sizes := fun _ => true;
     FT_Load_Char := fun _ => italic_glyphs |}.

Definition library : FT_Library :=
  {| FT_Init_FreeType := true;
     FT_New_Face := fun f =>
       if String.eqb f "regular" then Some regular_face
       else if String.eqb f "italic" then Some italic_face
       else if String.eqb f "shifted" then Some shifted_face
       else if String.eqb f "sparse" then Some sparse_face
       else if String.eqb f "block" then Some block_face
       else if String.eqb f "wide" then Some wide_face
       else if String.eqb f "tall" then Some tall_face
       else if String.eqb f "terminal" then Some terminal_face
       else None |}.

(** The Font a constructor returned, for use where one is known to. *)
Definition built (r : result Font) : Font :=
  match r with Ok f => f | _ => blank_Font end.

Definition regular_font : Font := built (Font_Regular library env (pattern "regular" 2)).
Definition shifted_font : Font := built (Font_Regular library env (pattern "shifted" 2)).
Definition block_font : Font := built (Font_Regular library env (pattern "block" 2)).
Definition italic_font : Font :=
  built (Font_Overlay library env (pattern "italic" 2) regular_font).
Definition italic_over_block : Font :=
  built (Font_Overlay library env (pattern "italic" 2) block_font).

Definition wide_font : Font :=
  built (Font_DoubleWidth library env (pattern "wide" 2) regular_font).
Definition scaled_overlay : Font :=
  built (Font_Overlay library env (pattern "wide" 2) regular_font).

(** A fontconfig that resolves every request to the file named by the
    family, except italic requests, which it resolves to "tall", and
    bold upright ones, for which it finds nothing. *)
Definition fontconfig : FcConfig :=
  {| FcInitLoadConfigAndFonts := true;
     FcNameParse := fun s =>
       if String.eqb s "unparsable" then None
       else Some {| name := s; dpi := None; slant := None; weight := None |};
     matchFont := fun r =>
       match slant r, weight r with
       | Some 100, _ => Some (pattern "tall" 2)
       | Some 0, Some 200 => None
       | _, _ => Some (pattern (name r) 2)
       end |}.

(** The same, with no italic or bold variant at all. *)
Definition plain_fontconfig : FcConfig :=
  {| FcInitLoadConfigAndFonts := true;
     FcNameParse := FcNameParse fontconfig;
     matchFont := fun r =>
       match slant r, weight r with
       | None, None => Some (pattern (name r) 2)
       | _, _ => None
       end |}.

Definition cell_0_0 : AtlasPos := {| x := 0; y := 0 |}.
Definition cell_0_1 : AtlasPos := {| x := 0; y := 1 |}.

(** A 10x2-pixel cell grid of 3x1 cells, zero-filled, as a primary build
    leaves it before the first glyph. *)
Definition canvas : Font :=
  set_atlasBuf (replicate 240 0) (set_grid 3 1 (set_size 10 2 blank_Font)).

Definition cell_1_0 : AtlasPos := {| x := 1; y := 0 |}.
Definition cell_2_0 : AtlasPos := {| x := 2; y := 0 |}.

(** One row of ten mono pixels: 1010 0101 11. *)
Definition mono_glyph : FT_GlyphSlot :=
  {| bitmap_left := 0; bitmap_top := 0;
     bitmap := {| rows := 1; width := 10; pitch := 2; buffer := [165; 192];
                  pixel_mode := FT_PIXEL_MODE_MONO |} |}.

(** A colour bitmap (FT_PIXEL_MODE_BGRA). *)
Definition bgra_glyph : FT_GlyphSlot :=
  {| bitmap_left := 0; bitmap_top := 0;
     bitmap := {| rows := 1; width := 1; pitch := 4; buffer := [1; 2; 3; 4];
                  pixel_mode := 7 |} |}.

(** Five gray pixels whose left bearing (12) exceeds the cell width. *)
Definition far_glyph : FT_GlyphSlot :=
  {| bitmap_left := 12; bitmap_top := 0;
     bitmap := {| rows := 1; width := 5; pitch := 5; buffer := [9; 9; 9; 9; 9];
                  pixel_mode := FT_PIXEL_MODE_GRAY |} |}.

End Samples.


(* ===================================================================== *)
(** ** Further notions used by the properties of the build *)
(* ===================================================================== *)

(** Size of the atlas buffer in bytes. *)
Definition atlas_bytes (f : Font) : Z :=
  bytes_per_pixel * nx f * px f * ny f * py f.

(** Distance of a strike's height from the requested pixel size. *)
Definition height_diff (pixelSize : Z) (s : FT_Bitmap_Size) : Z :=
  Z.abs (pixelSize - size_height s).


(** The baseline [loadScaled] gives a font that is not an overlay, for a
    face whose [height] is not 0 (see [scaled_metrics_defined]). *)
Definition scaled_baseline (face : FT_Face) (pixelSize : Z) : Z :=
  trunc_div ((scaled_size face pixelSize).2 * ascender face) (height face).

(** The quotients of [loadScaled] are defined: no divisor is 0, [tpx] and
    [tpy] fit the [int] they are converted to, and the baseline lies in
    0 .. 32767, which fits whichever integer type of 16 bits or more
    [font.h] declares for it. *)
Definition scaled_metrics_defined (face : FT_Face) (pixelSize : Z) : Prop :=
  units_per_EM face ≠ 0 ∧ max_advance_width face ≠ 0 ∧ height face ≠ 0 ∧
  Z.abs (scaled_size face pixelSize).1 <= INT_MAX ∧
  Z.abs (scaled_size face pixelSize).2 <= INT_MAX ∧
  0 <= scaled_baseline face pixelSize <= 32767.

(** The face enumerates code points of the Basic Multilingual Plane only:
    each is its own key in a map keyed by 16 bits or more. *)
Definition bmp_only (face : FT_Face) : Prop :=
  ∀ c, In c (charcodes face) → 0 <= c <= 65535.

(** Loadable code points of an enumeration that lie outside the Basic
    Multilingual Plane. *)
Definition count_skipped (env : CharEnv) (dw : bool) (cs : list Z) : Z :=
  Z.of_nat (length (List.filter
                      (fun c => isLoadableChar env dw c && (65535 <? c)) cs)).

(** Every fourth byte of the buffer, the one no decoder stores to, is 0. *)
Definition alpha_clear (buf : list Z) : Prop :=
  ∀ (i : nat) v, buf !! i = Some v → Z.of_nat i mod 4 = 3 → v = 0.

(** The errors [Font::load] can throw. *)
Definition font_error (e : runtime_error) : bool :=
  match e with
  | Could_not_initialize_FreeType | Failed_to_load_font _
  | Impossible_atlas_geometry | Size_mismatch_px _ _ | Size_mismatch_py _ _
  | Could_not_set_pixel_sizes | Unhandled_pixel_type _ => true
  | _ => false
  end.

(** Every bitmap the face produces is mono, gray or LCD. *)
Definition all_handled (face : FT_Face) : Prop :=
  ∀ mode c g, FT_Load_Char face mode c = Rendered g →
              handled_pixel_mode (pixel_mode (bitmap g)) = true.

(* --------------------------------------------------------------------- *)
(** *** Further faces for the examples *)

Module Gallery.

(** Letters A to C and one code point outside the Basic Multilingual
    Plane, each a one-pixel grayscale glyph. *)
Definition letters (c : Z) : raster :=
  if (65 <=? c) && (c <=? 67) then Rendered (Samples.dot 0 c)
  else if c =? 131072 then Rendered (Samples.dot 0 50)
  else Load_fails.

(** A bitmap face with four strikes (2x3, 2x4, 3x6, 5x9) and global
    metrics; it enumerates both markers, three letters, an ideograph and
    a code point above 0xFFFF. *)
Definition strikes_face : FT_Face :=
  {| charcodes := [0; 65; 66; 67; 20013; 65533; 131072];
     available_sizes :=
       [ {| size_width := 2; size_height := 3 |};
         {| size_width := 2; size_height := 4 |};
         {| size_width := 3; size_height := 6 |};
         {| size_width := 5; size_height := 9 |} ];
     units_per_EM := 0; ascender := 3; height := 4; max_advance_width := 0;
     FT_Set_Pixel_Sizes := fun _ => true;
     FT_Load_Char := fun _ => letters |}.

(** A face whose only glyph is a colour bitmap. *)
Definition colour_glyphs (c : Z) : raster :=
  if c =? 65 then Rendered Samples.bgra_glyph else Load_fails.
Definition colour_face : FT_Face := Samples.strike_face [65] colour_glyphs.

(** A face within the Basic Multilingual Plane: A has a glyph, B has
    none, and the ideograph is wide. *)
Definition bmp_glyphs (c : Z) : raster :=
  if c =? 65 then Rendered (Samples.dot 0 200) else Load_fails.
Definition bmp_face : FT_Face := Samples.strike_face [65; 66; 20013] bmp_glyphs.

(** A scalable face with five letters, tall and narrow: at pixel size
    15953 its cell is 15953 x 45587 pixels. *)
Definition poster_face : FT_Face :=
  {| charcodes := [65; 66; 67; 68; 69];
     available_sizes := [];
     units_per_EM := 7000; ascender := 16000; height := 20003;
     max_advance_width := 7000;
     FT_Set_Pixel_Sizes := fun _ => true;
     FT_Load_Char := fun _ _ => Load_fails |}.

Definition library : FT_Library :=
  {| FT_Init_FreeType := true;
     FT_New_Face := fun f =>
       if String.eqb f "strikes" then Some strikes_face
       else if String.eqb f "colour" then Some colour_face
       else if String.eqb f "bmp" then Some bmp_face
       else FT_New_Face Samples.library f |}.

Definition strikes_font : Font :=
  Samples.built (Font_Regular library Samples.env (Samples.pattern "strikes" 5)).
Definition bmp_font : Font :=
  Samples.built (Font_Regular library Samples.env (Samples.pattern "bmp" 2)).

(** Three gray pixels, two of them left of the origin. *)
Definition overhang : FT_GlyphSlot :=
  {| bitmap_left := -2; bitmap_top := 0;
     bitmap := {| rows := 1; width := 3; pitch := 3; buffer := [1; 2; 3];
                  pixel_mode := FT_PIXEL_MODE_GRAY |} |}.

(** The canvas of the examples, set to subpixel rendering. *)
Definition lcd_canvas : Font := set_render_mode FT_RENDER_MODE_LCD Samples.canvas.

(** A fontconfig that knows an italic variant of every font and nothing
    bold. *)
Definition fontconfig : FcConfig :=
  {| FcInitLoadConfigAndFonts := true;
     FcNameParse := FcNameParse Samples.fontconfig;
     matchFont := fun r =>
       match slant r, weight r with
       | None, None => Some (Samples.pattern (name r) 2)
       | Some 100, None => Some (Samples.pattern "italic" 2)
       | _, _ => None
       end |}.

(** The pack of "regular" with "wide" as its double-width font. *)
Definition pack : Fontpack :=
  {| fontRegular := Samples.regular_font;
     fontItalic := Some Samples.italic_font;
     fontBoldItalic := None; fontBold := None;
     fontDoubleWidth := Some Samples.wide_font;
     fp_px := 2; fp_py := 2 |}.

End Gallery.
(* ===================================================================== *)
(** ** Properties *)
(* ===================================================================== *)

(** Closed goals about the sample faces are settled by evaluation. *)
Ltac evaluate := vm_compute; first [reflexivity | discriminate | tauto].

(* --------------------------------------------------------------------- *)
(** *** Loadability *)

(** C3, as stated, fails: the replacement character is loadable in a
    normal-width and in a double-width build alike. *)
Lemma isLoadableChar_markers_in_both_modes :
  ¬ (∀ (env : CharEnv) (c : Z),
        ¬ (isLoadableChar env false c = true ∧ isLoadableChar env true c = true)).
Proof.
  intros H. apply (H Samples.env 65533). split; reflexivity.
Qed.

(** C3 (amended): the loadability predicate is a total function of the
    build mode and the code point; the two marker code points are loadable
    in both modes, and every other code point is loadable in at most one
    of the normal-width and the double-width build. *)
Theorem isLoadableChar_exclusive (env : CharEnv) (c : Z) :
  (∀ dw, ∃ b, isLoadableChar env dw c = b) ∧
  (c = Missing_Glyph_Marker env ∨ c = Unicode_Replacement_Character env →
     ∀ dw, isLoadableChar env dw c = true) ∧
  (c ≠ Missing_Glyph_Marker env → c ≠ Unicode_Replacement_Character env →
     ¬ (isLoadableChar env false c = true ∧ isLoadableChar env true c = true)).
Proof.
  unfold isLoadableChar. repeat split.
  - intros dw. eexists. reflexivity.
  - intros [-> | ->] dw.
    + rewrite Z.eqb_refl. reflexivity.
    + rewrite Z.eqb_refl. destruct (_ =? _); reflexivity.
  - intros Hm Hr [Hn Hw].
    apply Z.eqb_neq in Hm, Hr. rewrite Hm, Hr in Hn, Hw. simpl in Hn, Hw.
    rewrite orb_false_r in Hw.
    apply Z.ltb_lt in Hn. apply Z.eqb_eq in Hw. lia.
Qed.

Lemma isLoadableChar_exclusive_witness :
  isLoadableChar Samples.env true 65533 = true ∧
  ¬ (isLoadableChar Samples.env false 65 = true ∧
     isLoadableChar Samples.env true 65 = true).
Proof.
  split.
  - apply (isLoadableChar_exclusive Samples.env 65533). right. reflexivity.
  - apply (isLoadableChar_exclusive Samples.env 65); simpl; lia.
Defined.
(* --------------------------------------------------------------------- *)
(** *** Atlas geometry *)

(** When the loop returns, the grid holds [n_glyphs] cells. *)
Lemma grow_grid_sound fuel n px py nx ny nx' ny' :
  grow_grid fuel n px py nx ny = Some (nx', ny') → n <= nx' * ny'.
Proof.
  revert nx ny. induction fuel as [|fuel IH]; intros nx ny; simpl.
  - destruct (nx * ny <? n) eqn:E; [discriminate|].
    intros [= <- <-]. apply Z.ltb_ge in E. exact E.
  - destruct (nx * ny <? n) eqn:E.
    + destruct (px * nx <? py * ny); apply IH.
    + intros [= <- <-]. apply Z.ltb_ge in E. exact E.
Qed.

(** The loop only grows the grid. *)
Lemma grow_grid_mono fuel n px py nx ny nx' ny' :
  grow_grid fuel n px py nx ny = Some (nx', ny') → nx <= nx' ∧ ny <= ny'.
Proof.
  revert nx ny. induction fuel as [|fuel IH]; intros nx ny; simpl.
  - destruct (nx * ny <? n); [discriminate|]. intros [= <- <-]. lia.
  - destruct (nx * ny <? n).
    + destruct (px * nx <? py * ny); intros H; apply IH in H; lia.
    + intros [= <- <-]. lia.
Qed.

(** With [grid_fuel] iterations at hand the loop returns, and it ran as
    the planner of the specification does. *)
Lemma grow_grid_total fuel n px py nx ny :
  0 < px → 0 < py → 0 <= nx → 0 <= ny →
  (grid_fuel n px py nx ny <= fuel)%nat →
  ∃ nx' ny', grow_grid fuel n px py nx ny = Some (nx', ny') ∧
             planner_run n px py nx ny nx' ny'.
Proof.
  intros Hpx Hpy. revert nx ny.
  induction fuel as [|fuel IH]; intros nx ny Hnx Hny Hfuel; simpl.
  - destruct (nx * ny <? n) eqn:E.
    + exfalso. apply Z.ltb_lt in E. unfold grid_fuel in Hfuel.
      assert (Hn : 0 < n) by nia.
      assert (0 <= px * n / py) by (apply Z.div_pos; nia).
      assert (n <= nx) by lia. assert (1 <= ny) by lia. nia.
    + apply Z.ltb_ge in E. exists nx, ny. split; [reflexivity|].
      apply planner_stop. exact E.
  - destruct (nx * ny <? n) eqn:E.
    + apply Z.ltb_lt in E. unfold grid_fuel in Hfuel.
      destruct (px * nx <? py * ny) eqn:C.
      * apply Z.ltb_lt in C.
        assert (1 <= ny) by nia.
        assert (nx < n) by nia.
        destruct (IH (nx + 1) ny) as (nx' & ny' & Hrun & Hspec); [lia|lia| |].
        { unfold grid_fuel. lia. }
        exists nx', ny'. split; [exact Hrun|].
        apply planner_inc_nx; assumption.
      * apply Z.ltb_ge in C.
        assert (ny <= px * n / py).
        { apply Z.div_le_lower_bound; [lia|].
          destruct (Z.eq_dec ny 0) as [->|]; [nia|]. nia. }
        destruct (IH nx (ny + 1)) as (nx' & ny' & Hrun & Hspec); [lia|lia| |].
        { unfold grid_fuel. lia. }
        exists nx', ny'. split; [exact Hrun|].
        apply planner_inc_ny; [assumption|lia|assumption].
    + apply Z.ltb_ge in E. exists nx, ny. split; [reflexivity|].
      apply planner_stop. exact E.
Qed.

(** The geometry block on its own: for a glyph count [g] and a positive
    cell size whose pixel total fits the 32-bit product, the loop returns,
    having run as the planner of the specification does from
    [side = sqrt ((g+1)·px·py)], and the block throws exactly when the
    grid is not addressable by single bytes. *)
Lemma allocate_atlas_converges (g : Z) (f : Font) :
  0 <= g → 0 < px f → 0 < py f → (g + 1) * px f * py f < 2 ^ 32 →
  let side := Z.sqrt ((g + 1) * px f * py f) in
  ∃ nx' ny',
    atlas_geometry g (px f) (py f) = Some (nx', ny') ∧
    planner_run (g + 1) (px f) (py f) (side / px f) (side / py f) nx' ny' ∧
    g + 1 <= nx' * ny' ∧
    (allocate_atlas g f = Throw Impossible_atlas_geometry ↔ 255 < nx' ∨ 255 < ny') ∧
    (nx' <= 255 → ny' <= 255 →
       ∃ f', allocate_atlas g f = Ok f' ∧ nx f' = nx' ∧ ny f' = ny').
Proof.
  intros Hg Hpx Hpy Hfit side.
  assert (Hu : u32 ((g + 1) * px f * py f) = (g + 1) * px f * py f).
  { unfold u32. apply Z.mod_small. nia. }
  assert (Hside : 0 <= side) by apply Z.sqrt_nonneg.
  destruct (grow_grid_total
              (grid_fuel (g + 1) (px f) (py f) (side / px f) (side / py f))
              (g + 1) (px f) (py f) (side / px f) (side / py f))
    as (nx' & ny' & Hrun & Hspec); try assumption.
  { apply Z.div_pos; lia. } { apply Z.div_pos; lia. } { lia. }
  assert (Hgeo : atlas_geometry g (px f) (py f) = Some (nx', ny')).
  { unfold atlas_geometry, atlas_start. rewrite Hu. exact Hrun. }
  exists nx', ny'. split; [exact Hgeo|]. split; [exact Hspec|].
  split; [eapply grow_grid_sound; exact Hrun|].
  unfold allocate_atlas, plan_atlas. rewrite Hgeo.
  split.
  - destruct (255 <? nx') eqn:Ex; destruct (255 <? ny') eqn:Ey; simpl;
      try apply Z.ltb_lt in Ex; try apply Z.ltb_lt in Ey;
      try apply Z.ltb_ge in Ex; try apply Z.ltb_ge in Ey;
      split; intros H; try reflexivity; try discriminate; lia.
  - intros Hx Hy.
    apply Z.ltb_ge in Hx. apply Z.ltb_ge in Hy. rewrite Hx, Hy. simpl.
    eexists. split; [reflexivity|]. split; reflexivity.
Qed.

(** The spec's scenario: four cells of 10x20 pixels. *)
Example atlas_geometry_4_10_20 : plan_atlas 3 10 20 = Ok (2, 2).
Proof. reflexivity. Qed.
(* --------------------------------------------------------------------- *)
(** *** Stores and the buffer *)

Lemma length_poke buf w : length (poke buf w) = length buf.
Proof. unfold poke. destruct (fst w <? 0); [reflexivity | apply length_insert]. Qed.

Lemma length_commit ws buf : length (commit ws buf) = length buf.
Proof.
  revert buf. induction ws as [|w ws IH]; intros buf; simpl; [reflexivity|].
  unfold commit in *. simpl. rewrite IH. apply length_poke.
Qed.

Lemma poke_other buf o v o' :
  0 <= o' → o ≠ o' → poke buf (o, v) !! Z.to_nat o' = buf !! Z.to_nat o'.
Proof.
  intros Ho' Hne. unfold poke. simpl. destruct (o <? 0) eqn:E; [reflexivity|].
  apply Z.ltb_ge in E. apply list_lookup_insert_ne. lia.
Qed.


(** A byte no store is addressed to keeps its value. *)
Lemma commit_untouched ws buf o :
  0 <= o → (∀ v, ¬ In (o, v) ws) → commit ws buf !! Z.to_nat o = buf !! Z.to_nat o.
Proof.
  intros Ho. revert buf. induction ws as [|[o1 v1] ws IH]; intros buf Hnot; [reflexivity|].
  unfold commit in *. simpl. rewrite IH.
  - apply poke_other; [exact Ho|]. intros ->. apply (Hnot v1). left. reflexivity.
  - intros v Hin. apply (Hnot v). right. exact Hin.
Qed.


(* --------------------------------------------------------------------- *)
(** *** The inner loops, in closed form *)

Lemma in_pixel_row dst val k0 n o v :
  In (o, v) (pixel_row dst val k0 n) ↔
  ∃ k i, k0 <= k < k0 + n ∧ 0 <= i < 3 ∧ o = dst + 4 * k + i ∧ v = val k i.
Proof.
  unfold pixel_row. rewrite in_flat_map. split.
  - intros (k & Hk & Hin). apply list_elem_of_In, elem_of_seqZ in Hk.
    simpl in Hin. destruct Hin as [H | [H | [H | [] ] ] ]; injection H as Ho Hv; subst o v.
    + exists k, 0. repeat split; lia.
    + exists k, 1. repeat split; lia.
    + exists k, 2. repeat split; lia.
  - intros (k & i & Hk & Hi & -> & ->). exists k. split.
    + apply list_elem_of_In, elem_of_seqZ. lia.
    + simpl. assert (i = 0 ∨ i = 1 ∨ i = 2) as [-> | [-> | ->] ] by lia.
      * left. f_equal. lia.
      * right. left. reflexivity.
      * right. right. left. reflexivity.
Qed.

Lemma pixel_row_step dst val k0 n :
  0 < n →
  pixel_row dst val k0 n =
  (dst + 4 * k0, val k0 0) :: (dst + 4 * k0 + 1, val k0 1) :: (dst + 4 * k0 + 2, val k0 2)
  :: pixel_row dst val (k0 + 1) (n - 1).
Proof.
  intros Hn. unfold pixel_row. rewrite (seqZ_cons k0 n Hn). simpl.
  replace (Z.succ k0) with (k0 + 1) by lia. replace (Z.pred n) with (n - 1) by lia.
  reflexivity.
Qed.

Lemma gray_row_closed bw src s0 d0 k0 :
  gray_row bw src (s0 + k0) (d0 + 4 * k0) =
  pixel_row d0 (gray_value src s0) k0 (Z.of_nat bw).
Proof.
  revert k0. induction bw as [|bw IH]; intros k0.
  - reflexivity.
  - rewrite pixel_row_step by lia. simpl gray_row. unfold gray_value at 1 2 3.
    f_equal. f_equal. f_equal.
    replace (s0 + k0 + 1) with (s0 + (k0 + 1)) by lia.
    replace (d0 + 4 * k0 + 4) with (d0 + 4 * (k0 + 1)) by lia.
    rewrite IH. f_equal. lia.
Qed.

Lemma lcd_row_closed bw src s0 d0 k0 :
  lcd_row bw src (s0 + 3 * k0) (d0 + 4 * k0) =
  pixel_row d0 (lcd_value src s0) k0 (Z.of_nat bw).
Proof.
  revert k0. induction bw as [|bw IH]; intros k0.
  - reflexivity.
  - rewrite pixel_row_step by lia. simpl lcd_row. unfold lcd_value at 1 2 3.
    replace (s0 + 3 * k0 + 0) with (s0 + 3 * k0) by lia.
    replace (s0 + 3 * k0 + 3) with (s0 + 3 * (k0 + 1)) by lia.
    replace (d0 + 4 * k0 + 4) with (d0 + 4 * (k0 + 1)) by lia.
    rewrite IH.
    f_equal. f_equal. f_equal. f_equal. lia.
Qed.

(** Bit 7 of the shift register is bit [7 - m] of the byte loaded [m]
    pixels earlier. *)
Lemma land_128 z : (Z.land z 128 =? 0) = negb (Z.testbit z 7).
Proof.
  assert (H : Z.land z 128 = if Z.testbit z 7 then 128 else 0).
  { apply Z.bits_inj'. intros n Hn. rewrite Z.land_spec.
    change 128 with (2 ^ 7). rewrite Z.pow2_bits_eqb by lia.
    destruct (Z.eqb_spec 7 n) as [<-|Hne].
    - rewrite andb_true_r. destruct (Z.testbit z 7).
      + rewrite Z.pow2_bits_eqb by lia. reflexivity.
      + rewrite Z.bits_0. reflexivity.
    - rewrite andb_false_r. destruct (Z.testbit z 7).
      + rewrite Z.pow2_bits_eqb by lia. symmetry. apply Z.eqb_neq. exact Hne.
      + rewrite Z.bits_0. reflexivity. }
  rewrite H. destruct (Z.testbit z 7); reflexivity.
Qed.

Lemma testbit_u8_shiftl b m :
  0 <= m <= 7 → Z.testbit (u8 (Z.shiftl b m)) 7 = Z.testbit b (7 - m).
Proof.
  intros Hm. unfold u8. change 256 with (2 ^ 8).
  rewrite Z.mod_pow2_bits_low by lia. apply Z.shiftl_spec. lia.
Qed.

Lemma u8_shiftl_succ b m :
  0 <= m → u8 (Z.shiftl (u8 (Z.shiftl b m)) 1) = u8 (Z.shiftl b (m + 1)).
Proof.
  intros Hm. unfold u8. rewrite !Z.shiftl_mul_pow2 by lia.
  rewrite Z.mul_mod_idemp_l by lia. f_equal.
  rewrite Z.pow_add_r by lia. lia.
Qed.

Lemma mono_row_closed bw src s0 d0 k0 s byte :
  0 <= k0 →
  s = s0 + (k0 + 7) / 8 →
  (k0 mod 8 ≠ 0 → byte = u8 (Z.shiftl (peek src (s0 + k0 / 8)) (k0 mod 8))) →
  mono_row bw k0 src s byte (d0 + 4 * k0) =
  pixel_row d0 (mono_value src s0) k0 (Z.of_nat bw).
Proof.
  revert k0 s byte. induction bw as [|bw IH]; intros k0 s byte Hk0 Hs Hbyte.
  - reflexivity.
  - rewrite pixel_row_step by lia. simpl mono_row.
    set (b := peek src (s0 + k0 / 8)).
    set (byte1 := if k0 mod 8 =? 0 then peek src s else byte).
    assert (Hval : (if Z.land byte1 128 =? 0 then 0 else 255) = mono_value src s0 k0 0).
    { unfold mono_value. fold b. rewrite land_128. subst byte1.
      destruct (Z.eqb_spec (k0 mod 8) 0) as [E|E].
      - replace s with (s0 + k0 / 8) by (subst s; Z.to_euclidean_division_equations; lia).
        fold b. rewrite E. replace (7 - 0) with 7 by lia.
        destruct (Z.testbit b 7); reflexivity.
      - rewrite (Hbyte E). fold b. rewrite testbit_u8_shiftl
          by (Z.to_euclidean_division_equations; lia).
        destruct (Z.testbit b (7 - k0 mod 8)); reflexivity. }
    rewrite Hval. unfold mono_value at 2 3. fold (mono_value src s0 k0 0).
    f_equal. f_equal. f_equal.
    replace (d0 + 4 * k0 + 4) with (d0 + 4 * (k0 + 1)) by lia.
    rewrite (IH (k0 + 1)).
    + f_equal. lia.
    + lia.
    + destruct (Z.eqb_spec (k0 mod 8) 0) as [E|E];
        subst s; Z.to_euclidean_division_equations; lia.
    + intros Hne.
      replace ((k0 + 1) / 8) with (k0 / 8) by (Z.to_euclidean_division_equations; lia).
      fold b. subst byte1.
      destruct (Z.eqb_spec (k0 mod 8) 0) as [E|E].
      * replace s with (s0 + k0 / 8) by (subst s; Z.to_euclidean_division_equations; lia).
        fold b. replace ((k0 + 1) mod 8) with 1
          by (Z.to_euclidean_division_equations; lia).
        unfold u8 at 2. rewrite !Z.shiftl_mul_pow2 by lia.
        unfold u8. reflexivity.
      * rewrite (Hbyte E). fold b. rewrite u8_shiftl_succ
          by (Z.to_euclidean_division_equations; lia).
        f_equal. f_equal. Z.to_euclidean_division_equations; lia.
Qed.

(* --------------------------------------------------------------------- *)
(** *** The pixel decoders *)

Lemma seqZ_to_nat m n : seqZ m (Z.of_nat (Z.to_nat n)) = seqZ m n.
Proof.
  destruct (Z_le_gt_dec 0 n).
  - rewrite Z2Nat.id by lia. reflexivity.
  - rewrite !seqZ_nil by lia. reflexivity.
Qed.

Lemma pixel_row_to_nat dst val k0 n :
  pixel_row dst val k0 (Z.of_nat (Z.to_nat n)) = pixel_row dst val k0 n.
Proof. unfold pixel_row. rewrite seqZ_to_nat. reflexivity. Qed.

Lemma flat_map_ext_in {A B} (h1 h2 : A → list B) (l : list A) :
  (∀ a, In a l → h1 a = h2 a) → flat_map h1 l = flat_map h2 l.
Proof.
  induction l as [|a l IH]; intros H; simpl; [reflexivity|].
  rewrite (H a) by (left; reflexivity). f_equal.
  apply IH. intros b Hb. apply H. right. exact Hb.
Qed.

Lemma Ok_inj {A} (a b : A) : Ok a = Ok b → a = b.
Proof. intros H. injection H as H. exact H. Qed.

(** The [switch] stores, for each pixel of the clipped bitmap, the three
    colour bytes [pixel_value] names. *)
Lemma decode_stores_closed f g apos :
  handled_pixel_mode (pixel_mode (bitmap g)) = true →
  decode_stores f g apos =
  Ok (for_rows (bh (clip f g)) (fun j =>
        pixel_row (pixel_offset f g apos j 0) (pixel_value f g j) 0 (bw (clip f g)))).
Proof.
  unfold handled_pixel_mode, decode_stores, pixel_value, pixel_offset, for_rows.
  intros Hmode.
  destruct (pixel_mode (bitmap g) =? FT_PIXEL_MODE_MONO) eqn:Em.
  { f_equal. apply flat_map_ext_in. intros j _.
    rewrite <- pixel_row_to_nat.
    rewrite <- (mono_row_closed _ _ _ _ 0 (j * pitch (bitmap g) + xskip (clip f g)) 0).
    - f_equal. lia.
    - lia.
    - change ((0 + 7) `div` 8) with 0. lia.
    - intros H. exfalso. apply H. reflexivity. }
  destruct (pixel_mode (bitmap g) =? FT_PIXEL_MODE_GRAY) eqn:Eg.
  { f_equal. apply flat_map_ext_in. intros j _.
    rewrite <- pixel_row_to_nat, <- gray_row_closed. f_equal; lia. }
  destruct (pixel_mode (bitmap g) =? FT_PIXEL_MODE_LCD) eqn:El; [|discriminate].
  f_equal. apply flat_map_ext_in. intros j _.
  rewrite <- pixel_row_to_nat, <- lcd_row_closed. f_equal; lia.
Qed.

Lemma in_decode_stores f g apos ws o v :
  decode_stores f g apos = Ok ws →
  In (o, v) ws ↔
  ∃ j k i, 0 <= j < bh (clip f g) ∧ 0 <= k < bw (clip f g) ∧ 0 <= i < 3 ∧
           o = pixel_offset f g apos j k + i ∧ v = pixel_value f g j k i.
Proof.
  intros Hws.
  assert (Hmode : handled_pixel_mode (pixel_mode (bitmap g)) = true).
  { unfold decode_stores in Hws. unfold handled_pixel_mode.
    destruct (_ =? FT_PIXEL_MODE_MONO); [reflexivity|].
    destruct (_ =? FT_PIXEL_MODE_GRAY); [reflexivity|].
    destruct (_ =? FT_PIXEL_MODE_LCD); [reflexivity|discriminate]. }
  rewrite (decode_stores_closed _ _ _ Hmode) in Hws. apply Ok_inj in Hws. subst ws.
  unfold for_rows. rewrite in_flat_map. split.
  - intros (j & Hj & Hin). apply list_elem_of_In, elem_of_seqZ in Hj.
    apply in_pixel_row in Hin. destruct Hin as (k & i & Hk & Hi & -> & ->).
    exists j, k, i. repeat split; try lia. unfold pixel_offset. lia.
  - intros (j & k & i & Hj & Hk & Hi & -> & ->). exists j. split.
    + apply list_elem_of_In, elem_of_seqZ. lia.
    + apply in_pixel_row. exists k, i. repeat split; try lia.
      unfold pixel_offset. lia.
Qed.



(* --------------------------------------------------------------------- *)
(** *** Clipping and the cell of a glyph *)

Lemma umin_le_l a b : umin a b <= a.
Proof. unfold umin. destruct (b <? a) eqn:E; [apply Z.ltb_lt in E|]; lia. Qed.

Lemma umin_le_r a b : umin a b <= b.
Proof. unfold umin. destruct (b <? a) eqn:E; [|apply Z.ltb_ge in E]; lia. Qed.

Lemma u32_nonneg z : 0 <= u32 z.
Proof. unfold u32. apply Z.mod_pos_bound. lia. Qed.

Lemma u32_small z : 0 <= z < 2 ^ 32 → u32 z = z.
Proof. intros H. unfold u32. apply Z.mod_small. lia. Qed.

Lemma clip_nonneg f g : 0 <= dx (clip f g) ∧ 0 <= dy (clip f g).
Proof.
  unfold clip. simpl. split.
  - destruct (0 <? bitmap_left g); [apply u32_nonneg | lia].
  - destruct (_ && _); [apply u32_nonneg | lia].
Qed.

(** When the origin of the glyph is inside the cell, [bw] and [bh] are
    the remaining width and height at most. *)
Lemma clip_fits f g :
  fits_cell f g → px f < 2 ^ 32 → py f < 2 ^ 32 →
  bw (clip f g) <= px f - dx (clip f g) ∧ bh (clip f g) <= py f - dy (clip f g).
Proof.
  intros [Hdx Hdy] Hpx Hpy. destruct (clip_nonneg f g) as [Hx Hy].
  split.
  - change (bw (clip f g)) with (umin (tw (clip f g)) (u32 (px f - dx (clip f g)))).
    rewrite u32_small by lia. apply umin_le_r.
  - change (bh (clip f g)) with (umin (rows (bitmap g)) (u32 (py f - dy (clip f g)))).
    rewrite u32_small by lia. apply umin_le_r.
Qed.

Lemma in_clear_row bw dst o v :
  In (o, v) (clear_row bw dst) → dst <= o < dst + 4 * Z.of_nat bw ∧ v = 0.
Proof.
  revert dst. induction bw as [|bw IH]; intros dst; simpl; [intros []|].
  intros [H | [H | [H | [H | H] ] ] ];
    try (injection H as Ho Hv; subst o v; split; [lia|reflexivity]).
  apply IH in H. split; [lia|apply H].
Qed.

Lemma in_clear_stores f g apos o v :
  In (o, v) (clear_stores f g apos) →
  v = 0 ∧ ∃ j k, 0 <= j < bh (clip f g) ∧ 0 <= k < 4 * bw (clip f g) ∧
                 o = atlas_glyph_offset f apos + bytes_per_pixel * j * nx f * px f + k.
Proof.
  unfold clear_stores. destruct (overlay f); [|intros []].
  unfold for_rows. rewrite in_flat_map. intros (j & Hj & Hin).
  apply list_elem_of_In, elem_of_seqZ in Hj. apply in_clear_row in Hin.
  destruct Hin as [Hin ->]. split; [reflexivity|].
  exists j, (o - (atlas_glyph_offset f apos + bytes_per_pixel * j * nx f * px f)).
  split; [lia|]. split; [lia|lia].
Qed.

(** The containment the clipping is there for: a glyph whose origin is
    inside its cell stores nothing outside of the cell. *)
Lemma glyph_stores_in_cell f g apos ws o v :
  fits_cell f g → px f < 2 ^ 32 → py f < 2 ^ 32 → 0 <= nx f * px f →
  glyph_stores f g apos = Ok ws → In (o, v) ws → in_cell f apos o.
Proof.
  intros Hfit Hpx Hpy HW Hws Hin.
  destruct (clip_fits f g Hfit Hpx Hpy) as [Hbw Hbh].
  destruct (clip_nonneg f g) as [Hx Hy].
  unfold glyph_stores in Hws.
  destruct (decode_stores f g apos) as [ws'| |] eqn:Hdec; try discriminate.
  apply Ok_inj in Hws. subst ws. apply in_app_iff in Hin as [Hin|Hin].
  - apply in_clear_stores in Hin as (_ & j & k & Hj & Hk & ->).
    exists j, k. split; [lia|]. split; [unfold bytes_per_pixel; lia|reflexivity].
  - apply (in_decode_stores _ _ _ _ _ _ Hdec) in Hin.
    destruct Hin as (j & k & i & Hj & Hk & Hi & -> & _).
    exists (dy (clip f g) + j), (4 * (dx (clip f g) + k) + i).
    split; [lia|]. split; [unfold bytes_per_pixel; lia|].
    unfold pixel_offset, atlas_write_offset, bytes_per_pixel. lia.
Qed.

(** The spec's clipping scenario: 25 rows, a 20-pixel cell, [dy = 3]. *)
Example clip_rows_25_py_20_dy_3 (f : Font) (g : FT_GlyphSlot) :
  rows (bitmap g) = 25 → py f = 20 → baseline f = 10 → bitmap_top g = 7 →
  dy (clip f g) = 3 ∧ bh (clip f g) = 17.
Proof.
  intros Hr Hpy Hb Ht. unfold clip. simpl. rewrite Hr, Hpy, Hb, Ht. split; reflexivity.
Qed.

(** C4 at a failing input: a 10-pixel-wide cell and a glyph of five pixels
    with [bitmap_left = 12].  [px - dx] wraps around, the width is not
    clipped ([bw = 5], not [min (5, 10 - 12)]), and all fifteen stores of
    the glyph of cell (1,0) land in cell (2,0). *)
Theorem clip_wraps_past_cell :
  dx (clip Samples.canvas Samples.far_glyph) = 12 ∧
  bw (clip Samples.canvas Samples.far_glyph) = 5 ∧
  ∃ ws, glyph_stores Samples.canvas Samples.far_glyph Samples.cell_1_0 = Ok ws ∧
        map fst ws = [88; 89; 90; 92; 93; 94; 96; 97; 98; 100; 101; 102; 104; 105; 106] ∧
        ∀ o, In o (map fst ws) →
             in_cell Samples.canvas Samples.cell_2_0 o ∧
             ¬ in_cell Samples.canvas Samples.cell_1_0 o.
Proof.
  split; [reflexivity|]. split; [reflexivity|].
  eexists. split; [reflexivity|]. split; [reflexivity|].
  intros o Ho. split.
  - exists 0, (o - 80). vm_compute in Ho. vm_compute.
    intuition (subst o; try discriminate; reflexivity).
  - intros (r & k & Hr & Hk & Heq). vm_compute in Ho.
    unfold atlas_glyph_offset, bytes_per_pixel in *. simpl in *. lia.
Qed.
(* --------------------------------------------------------------------- *)
(** *** Cells of the grid *)

(** Two cells of the grid share no byte. *)
Lemma cells_disjoint f p q off :
  0 < px f → 0 < py f → in_grid f p → in_grid f q →
  in_cell f p off → in_cell f q off → p = q.
Proof.
  intros Hpx Hpy [Hpx1 Hpy1] [Hqx1 Hqy1] (r & k & Hr & Hk & Hp) (r' & k' & Hr' & Hk' & Hq).
  unfold atlas_glyph_offset, bytes_per_pixel in *.
  set (W := nx f * px f) in *.
  assert (HW : (x p + 1) * px f <= W ∧ (x q + 1) * px f <= W) by (subst W; nia).
  set (K := 4 * x p * px f + k). set (K' := 4 * x q * px f + k').
  set (R := y p * py f + r). set (R' := y q * py f + r').
  assert (HK : 0 <= K < 4 * W) by (subst K; nia).
  assert (HK' : 0 <= K' < 4 * W) by (subst K'; nia).
  assert (Hoff : 4 * W * R + K = 4 * W * R' + K') by (subst K K' R R' W; nia).
  assert (HR : R = R') by nia.
  assert (HKK : K = K') by nia.
  assert (Hy : y p = y q) by (subst R R'; nia).
  assert (Hx : x p = x q) by (subst K K'; nia).
  destruct p, q. simpl in *. congruence.
Qed.

Lemma seq_pos_in_grid f s :
  0 < nx f → 0 <= s < nx f * ny f → in_grid f (seq_pos (nx f) s).
Proof.
  intros Hnx Hs. unfold in_grid, seq_pos. simpl.
  pose proof (Z.mod_pos_bound s (nx f) Hnx). split; [lia|].
  split; [apply Z.div_pos; lia|]. apply Z.div_lt_upper_bound; lia.
Qed.

Lemma seq_pos_inj cols s s' :
  0 < cols → seq_pos cols s = seq_pos cols s' → s = s'.
Proof.
  intros Hc H. injection H as Hx Hy.
  rewrite (Z.div_mod s cols), (Z.div_mod s' cols) by lia. congruence.
Qed.

Lemma seq_pos_origin cols s : 0 < cols → seq_pos cols s = {| x := 0; y := 0 |} → s = 0.
Proof.
  intros Hc H. injection H as Hx Hy.
  rewrite (Z.div_mod s cols) by lia. rewrite Hx, Hy. lia.
Qed.

(** In an atlas of fewer than 2^31 bytes a cell side is far below 2^32. *)
Lemma atlas_small_cells f :
  0 < px f → 0 < py f → 0 < nx f → 0 < ny f → atlas_bytes f < 2 ^ 31 →
  px f < 2 ^ 32 ∧ py f < 2 ^ 32.
Proof.
  intros Hpx Hpy Hnx Hny Hsmall. unfold atlas_bytes, bytes_per_pixel in Hsmall.
  assert (H1 : px f * py f <= nx f * (px f * py f)) by nia.
  assert (H2 : nx f * (px f * py f) <= ny f * (nx f * (px f * py f))) by nia.
  assert (H3 : px f <= px f * py f) by nia.
  assert (H4 : py f <= px f * py f) by nia.
  split; nia.
Qed.
(* --------------------------------------------------------------------- *)
(** *** What one [loadFace] changes *)

Lemma same_geometry_refl f : same_geometry f f.
Proof. unfold same_geometry. repeat split; reflexivity. Qed.

Lemma same_geometry_trans f1 f2 f3 :
  same_geometry f1 f2 → same_geometry f2 f3 → same_geometry f1 f3.
Proof. unfold same_geometry. intuition congruence. Qed.

(** Either nothing is stored, or the glyph was rasterised and its stores
    were carried out. *)
Lemma loadFace_at_inv face c apos f f' :
  loadFace_at face c apos f = Ok f' →
  same_geometry f f' ∧ atlasMap f' = atlasMap f ∧ atlas_seq f' = atlas_seq f ∧
  (atlasBuf f' = atlasBuf f ∨
   c <= 65535 ∧ ∃ g ws, FT_Load_Char face (glyph_render_mode f) c = Rendered g ∧
                        glyph_stores f g apos = Ok ws ∧
                        atlasBuf f' = commit ws (atlasBuf f)).
Proof.
  unfold loadFace_at. destruct (65535 <? c) eqn:Ec.
  { intros H. apply Ok_inj in H. subst f'.
    split; [unfold same_geometry; repeat split; reflexivity|].
    repeat split; try reflexivity. left. reflexivity. }
  apply Z.ltb_ge in Ec.
  destruct (FT_Load_Char face (glyph_render_mode f) c) as [| |g] eqn:Eload.
  - intros H. apply Ok_inj in H. subst f'.
    split; [apply same_geometry_refl|]. repeat split; try reflexivity. left. reflexivity.
  - intros H. apply Ok_inj in H. subst f'.
    split; [apply same_geometry_refl|]. repeat split; try reflexivity. left. reflexivity.
  - destruct (glyph_stores f g apos) as [ws| |] eqn:Ews; try discriminate.
    intros H. apply Ok_inj in H. subst f'.
    split; [unfold same_geometry; repeat split; reflexivity|].
    repeat split; try reflexivity. right. split; [exact Ec|].
    exists g, ws. split; [reflexivity|]. split; [exact Ews|reflexivity].
Qed.

Lemma loadFace_inv face c f f' :
  loadFace face c f = Ok f' →
  ∃ f1, loadFace_at face c (next_pos f) f = Ok f1 ∧
        f' = record_glyph c (next_pos f) f1.
Proof.
  unfold loadFace.
  destruct (loadFace_at face c (next_pos f) f) as [f1| |]; try discriminate.
  intros H. apply Ok_inj in H. exists f1. split; [reflexivity|]. symmetry. exact H.
Qed.

(** One step of the rasterisation pass of a primary build. *)
Lemma load_glyphs_cons env face c cs f f' :
  load_glyphs env face (c :: cs) f = Ok f' →
  ∃ f1, load_glyphs env face cs f1 = Ok f' ∧
        (if isLoadableChar env (dwidth f) c
         then if overlay f
              then match atlasMap f !! c with
                   | Some apos => loadFace_at face c apos f
                   | None => Ok f
                   end
              else loadFace face c f
         else Ok f) = Ok f1.
Proof.
  simpl. destruct (if isLoadableChar env (dwidth f) c then _ else _) as [f1| |];
    try discriminate.
  intros H. exists f1. split; [exact H|reflexivity].
Qed.

Lemma count_glyphs_acc env dw cs acc :
  count_glyphs env dw cs acc = acc + count_glyphs env dw cs 0.
Proof.
  revert acc. induction cs as [|c cs IH]; intros acc; simpl; [lia|].
  destruct (isLoadableChar env dw c).
  - rewrite (IH (acc + 1)), (IH (0 + 1)). lia.
  - apply IH.
Qed.

Lemma count_glyphs_nonneg env dw cs : 0 <= count_glyphs env dw cs 0.
Proof.
  induction cs as [|c cs IH]; simpl; [lia|].
  destruct (isLoadableChar env dw c); [|exact IH].
  rewrite count_glyphs_acc. lia.
Qed.

Lemma count_glyphs_cons env dw c cs :
  count_glyphs env dw (c :: cs) 0 =
  (if isLoadableChar env dw c then 1 else 0) + count_glyphs env dw cs 0.
Proof.
  simpl. destruct (isLoadableChar env dw c); [|lia].
  rewrite count_glyphs_acc. lia.
Qed.

(** The pass keeps the geometry and hands out one sequence number per
    loadable code point. *)
Lemma load_glyphs_primary_seq env face cs f f' :
  overlay f = false → load_glyphs env face cs f = Ok f' →
  same_geometry f f' ∧
  atlas_seq f' = atlas_seq f + count_glyphs env (dwidth f) cs 0.
Proof.
  revert f. induction cs as [|c cs IH]; intros f Hov Hload.
  - apply Ok_inj in Hload. subst f'. split; [apply same_geometry_refl|simpl; lia].
  - apply load_glyphs_cons in Hload as (f1 & Hrest & Hstep).
    rewrite Hov in Hstep. rewrite count_glyphs_cons.
    destruct (isLoadableChar env (dwidth f) c).
    + apply loadFace_inv in Hstep as (f2 & Hat & ->).
      apply loadFace_at_inv in Hat as (Hgeo & _ & Hseq & _).
      assert (Hgeo1 : same_geometry f (record_glyph c (next_pos f) f2)).
      { unfold same_geometry in *. simpl. exact Hgeo. }
      apply IH in Hrest.
      * destruct Hrest as [Hgeo' Hseq']. split.
        -- eapply same_geometry_trans; eassumption.
        -- rewrite Hseq'. simpl. destruct Hgeo as (_ & -> & _). lia.
      * simpl. destruct Hgeo as (-> & _). exact Hov.
    + apply Ok_inj in Hstep. subst f1. apply IH in Hrest; [|exact Hov].
      destruct Hrest as [Hgeo' Hseq']. split; [exact Hgeo'|lia].
Qed.
(* --------------------------------------------------------------------- *)
(** *** The rasterisation pass of a primary build *)

Lemma clip_same_geometry f f' g : same_geometry f f' → clip f' g = clip f g.
Proof.
  intros (_ & _ & Hpx & Hpy & Hb & _ & _ & Hm). unfold clip.
  rewrite Hpx, Hpy, Hb, Hm. reflexivity.
Qed.

Lemma fits_cell_same_geometry f f' g :
  same_geometry f f' → fits_cell f g → fits_cell f' g.
Proof.
  intros Hgeo. unfold fits_cell. rewrite (clip_same_geometry _ _ _ Hgeo).
  destruct Hgeo as (_ & _ & -> & -> & _). tauto.
Qed.

Lemma all_fit_same_geometry face f f' :
  same_geometry f f' → all_fit face f → all_fit face f'.
Proof.
  intros Hgeo Hfit c g Hload. apply (fits_cell_same_geometry f); [exact Hgeo|].
  apply (Hfit c). destruct Hgeo as (_ & _ & _ & _ & _ & _ & _ & <-). exact Hload.
Qed.

Lemma in_cell_same_geometry f f' p off :
  same_geometry f f' → in_cell f' p off ↔ in_cell f p off.
Proof.
  intros (_ & _ & Hpx & Hpy & _ & Hnx & _). unfold in_cell, atlas_glyph_offset.
  rewrite Hpx, Hpy, Hnx. tauto.
Qed.

Lemma same_geometry_record c p f : same_geometry f (record_glyph c p f).
Proof. unfold same_geometry. simpl. repeat split; reflexivity. Qed.



Lemma raw_pos_seq_pos cols s :
  0 < cols <= 256 → 0 <= s → s / cols <= 255 → raw_pos cols s = seq_pos cols s.
Proof.
  intros Hc Hs Hrow. unfold raw_pos, seq_pos.
  rewrite Z.quot_div_nonneg by lia.
  assert (Hr : 0 <= s / cols) by (apply Z.div_pos; lia).
  assert (Hu : u8 (s / cols) = s / cols) by (unfold u8; apply Z.mod_small; lia).
  rewrite Hu. f_equal.
  pose proof (Z.mod_pos_bound s cols ltac:(lia)).
  replace (s - cols * (s / cols)) with (s mod cols) by (rewrite Z.mod_eq; lia).
  unfold u8. apply Z.mod_small. lia.
Qed.

(** The pass keeps the atlas map well formed. *)
Lemma load_glyphs_primary_map_ok env face cs f f' :
  overlay f = false → load_glyphs env face cs f = Ok f' →
  0 < nx f <= 255 → ny f <= 255 → atlas_seq_init <= atlas_seq f →
  atlas_seq f + count_glyphs env (dwidth f) cs 0 <= nx f * ny f →
  map_ok f → map_ok f'.
Proof.
  unfold map_ok, atlas_seq_init.
  revert f. induction cs as [|a cs IH]; intros f Hov Hload Hnx Hny Hseq Hroom Hok.
  - apply Ok_inj in Hload. subst f'. exact Hok.
  - apply load_glyphs_cons in Hload as (f1 & Hrest & Hstep).
    rewrite Hov in Hstep. rewrite count_glyphs_cons in Hroom.
    pose proof (count_glyphs_nonneg env (dwidth f) cs) as Hcnt.
    destruct (isLoadableChar env (dwidth f) a) eqn:Ea.
    + apply loadFace_inv in Hstep as (f2 & Hat & ->).
      apply loadFace_at_inv in Hat as (Hgeo & Hmap & Hseq2 & _).
      destruct Hgeo as (Hov2 & Hdw2 & _ & _ & _ & Hnx2 & Hny2 & _).
      assert (Hpos : next_pos f = seq_pos (nx f) (atlas_seq f)).
      { apply (raw_pos_seq_pos (nx f) (atlas_seq f)); [lia|lia|].
        assert (atlas_seq f / nx f < 255); [|lia].
        apply Z.div_lt_upper_bound; nia. }
      assert (Hov1 : overlay (record_glyph a (next_pos f) f2) = false)
        by (simpl; congruence).
      apply (IH _ Hov1 Hrest); simpl;
        rewrite ?Hnx2, ?Hny2, ?Hseq2, ?Hdw2; try lia.
      destruct Hok as [Hcells Hinj]. split; simpl; rewrite ?Hmap, ?Hnx2, ?Hseq2, ?Hpos.
      * intros c p Hlook. destruct (Z.eq_dec a c) as [->|Hne].
        -- rewrite lookup_insert_eq in Hlook. apply (inj Some) in Hlook.
           exists (atlas_seq f). split; [lia|congruence].
        -- rewrite lookup_insert_ne in Hlook by exact Hne.
           destruct (Hcells c p Hlook) as (s & Hs & ->). exists s. split; [lia|reflexivity].
      * intros c1 c2 p H1 H2.
        destruct (Z.eq_dec a c1) as [E1|E1]; destruct (Z.eq_dec a c2) as [E2|E2];
          try congruence.
        -- subst c1. rewrite lookup_insert_eq in H1. apply (inj Some) in H1.
           rewrite lookup_insert_ne in H2 by exact E2.
           destruct (Hcells c2 p H2) as (s & Hs & Hp). subst p.
           apply seq_pos_inj in Hp; lia.
        -- subst c2. rewrite lookup_insert_eq in H2. apply (inj Some) in H2.
           rewrite lookup_insert_ne in H1 by exact E1.
           destruct (Hcells c1 p H1) as (s & Hs & Hp). subst p.
           apply seq_pos_inj in Hp; lia.
        -- rewrite lookup_insert_ne in H1 by exact E1.
           rewrite lookup_insert_ne in H2 by exact E2.
           exact (Hinj c1 c2 p H1 H2).
    + apply Ok_inj in Hstep. subst f1. apply (IH _ Hov Hrest); try assumption; lia.
Qed.
(* --------------------------------------------------------------------- *)
(** *** Bytes a pass leaves alone *)

Lemma loadFace_at_frame face c apos f f' off :
  loadFace_at face c apos f = Ok f' → 0 <= off →
  px f < 2 ^ 32 → py f < 2 ^ 32 → 0 <= nx f * px f → all_fit face f →
  (rasterised face (glyph_render_mode f) c → ¬ in_cell f apos off) →
  atlasBuf f' !! Z.to_nat off = atlasBuf f !! Z.to_nat off.
Proof.
  intros Hload Hoff Hpx Hpy HW Hfit Hout.
  apply loadFace_at_inv in Hload as (_ & _ & _ & [-> | (Hc & g & ws & Hg & Hws & ->)]).
  - reflexivity.
  - apply commit_untouched; [exact Hoff|].
    intros v Hin. apply Hout.
    + split; [exact Hc|]. exists g. exact Hg.
    + apply (glyph_stores_in_cell f g apos ws off v); try assumption.
      apply (Hfit c). exact Hg.
Qed.

Lemma load_glyphs_primary_frame env face cs f f' off :
  overlay f = false → load_glyphs env face cs f = Ok f' → 0 <= off →
  px f < 2 ^ 32 → py f < 2 ^ 32 → 0 <= nx f * px f → all_fit face f →
  (∀ pre c post, cs = pre ++ c :: post →
     isLoadableChar env (dwidth f) c = true →
     rasterised face (glyph_render_mode f) c →
     ¬ in_cell f (raw_pos (nx f) (atlas_seq f + count_glyphs env (dwidth f) pre 0)) off) →
  atlasBuf f' !! Z.to_nat off = atlasBuf f !! Z.to_nat off.
Proof.
  revert f. induction cs as [|a cs IH]; intros f Hov Hload Hoff Hpx Hpy HW Hfit Hout.
  - apply Ok_inj in Hload. subst f'. reflexivity.
  - apply load_glyphs_cons in Hload as (f1 & Hrest & Hstep).
    rewrite Hov in Hstep.
    destruct (isLoadableChar env (dwidth f) a) eqn:Ea.
    + apply loadFace_inv in Hstep as (f2 & Hat & ->).
      pose proof (loadFace_at_inv _ _ _ _ _ Hat) as (Hgeo & _ & Hseq & _).
      pose proof (same_geometry_trans _ _ _ Hgeo (same_geometry_record a (next_pos f) f2))
        as Hgeo1.
      pose proof Hgeo1 as (Hov1 & Hdw1 & Hpx1 & Hpy1 & _ & Hnx1 & _ & Hm1).
      assert (Hovf : overlay (record_glyph a (next_pos f) f2) = false) by congruence.
      rewrite (IH _ Hovf Hrest Hoff); try congruence.
      * simpl. apply (loadFace_at_frame _ _ _ _ _ _ Hat); try assumption.
        intros Hr Hin. apply (Hout [] a cs eq_refl Ea Hr).
        simpl. rewrite Z.add_0_r. exact Hin.
      * apply (all_fit_same_geometry _ f); assumption.
      * intros pre c post -> Hc Hr Hin.
        rewrite Hdw1 in Hc. rewrite Hm1 in Hr.
        apply (Hout (a :: pre) c post eq_refl Hc Hr).
        rewrite count_glyphs_cons, Ea.
        apply (in_cell_same_geometry _ _ _ _ Hgeo1) in Hin.
        rewrite Hnx1, Hdw1 in Hin. simpl in Hin. rewrite Hseq in Hin.
        replace (atlas_seq f + (1 + count_glyphs env (dwidth f) pre 0))
          with (atlas_seq f + 1 + count_glyphs env (dwidth f) pre 0) by lia.
        exact Hin.
    + apply Ok_inj in Hstep. subst f1.
      apply (IH _ Hov Hrest Hoff); try assumption.
      intros pre c post -> Hc Hr Hin.
      apply (Hout (a :: pre) c post eq_refl Hc Hr).
      rewrite count_glyphs_cons, Ea. exact Hin.
Qed.

(** An overlay pass assigns nothing: geometry, atlas map and sequence
    number stay those copied from the primary font. *)
Lemma load_glyphs_overlay_inv env face cs f f' :
  overlay f = true → load_glyphs env face cs f = Ok f' →
  same_geometry f f' ∧ atlasMap f' = atlasMap f ∧ atlas_seq f' = atlas_seq f.
Proof.
  revert f. induction cs as [|a cs IH]; intros f Hov Hload.
  - apply Ok_inj in Hload. subst f'. split; [apply same_geometry_refl|]. split; reflexivity.
  - apply load_glyphs_cons in Hload as (f1 & Hrest & Hstep).
    rewrite Hov in Hstep.
    assert (Hone : same_geometry f f1 ∧ atlasMap f1 = atlasMap f ∧ atlas_seq f1 = atlas_seq f).
    { destruct (isLoadableChar env (dwidth f) a).
      - destruct (atlasMap f !! a) as [apos|].
        + apply loadFace_at_inv in Hstep as (Hgeo & Hmap & Hseq & _). auto.
        + apply Ok_inj in Hstep. subst f1. split; [apply same_geometry_refl|]. split; reflexivity.
      - apply Ok_inj in Hstep. subst f1. split; [apply same_geometry_refl|]. split; reflexivity. }
    destruct Hone as (Hgeo & Hmap & Hseq).
    destruct (IH f1) as (Hgeo' & Hmap' & Hseq'); [destruct Hgeo; congruence|exact Hrest|].
    split; [eapply same_geometry_trans; eassumption|]. split; congruence.
Qed.

Lemma load_glyphs_overlay_frame env face cs f f' off :
  overlay f = true → load_glyphs env face cs f = Ok f' → 0 <= off →
  px f < 2 ^ 32 → py f < 2 ^ 32 → 0 <= nx f * px f → all_fit face f →
  (∀ c p, In c cs → isLoadableChar env (dwidth f) c = true →
          rasterised face (glyph_render_mode f) c →
          atlasMap f !! c = Some p → ¬ in_cell f p off) →
  atlasBuf f' !! Z.to_nat off = atlasBuf f !! Z.to_nat off.
Proof.
  revert f. induction cs as [|a cs IH]; intros f Hov Hload Hoff Hpx Hpy HW Hfit Hout.
  - apply Ok_inj in Hload. subst f'. reflexivity.
  - apply load_glyphs_cons in Hload as (f1 & Hrest & Hstep).
    rewrite Hov in Hstep.
    assert (Hone : same_geometry f f1 ∧ atlasMap f1 = atlasMap f ∧
                   atlasBuf f1 !! Z.to_nat off = atlasBuf f !! Z.to_nat off).
    { destruct (isLoadableChar env (dwidth f) a) eqn:Ea.
      - destruct (atlasMap f !! a) as [apos|] eqn:Emap.
        + pose proof (loadFace_at_inv _ _ _ _ _ Hstep) as (Hgeo & Hmap & _ & _).
          split; [exact Hgeo|]. split; [exact Hmap|].
          apply (loadFace_at_frame _ _ _ _ _ _ Hstep); try assumption.
          intros Hr. apply (Hout a apos); [left; reflexivity|exact Ea|exact Hr|exact Emap].
        + apply Ok_inj in Hstep. subst f1. split; [apply same_geometry_refl|]. split; reflexivity.
      - apply Ok_inj in Hstep. subst f1. split; [apply same_geometry_refl|]. split; reflexivity. }
    destruct Hone as (Hgeo & Hmap & Hbuf). rewrite <- Hbuf.
    pose proof Hgeo as (Hov1 & Hdw1 & Hpx1 & Hpy1 & _ & Hnx1 & _ & Hm1).
    apply (IH f1); try congruence.
    + apply (all_fit_same_geometry _ f); assumption.
    + intros c p Hin Hc Hr Hlook Hcell.
      rewrite Hdw1 in Hc. rewrite Hm1 in Hr. rewrite Hmap in Hlook.
      apply (Hout c p); [right; exact Hin|exact Hc|exact Hr|exact Hlook|].
      apply (in_cell_same_geometry _ _ _ _ Hgeo). exact Hcell.
Qed.
(* --------------------------------------------------------------------- *)
(** *** The steps of [Font::load] *)

Lemma loadScaled_inv face ps f f' : loadScaled face ps f = Ok f' → same_tables f f'.
Proof.
  unfold loadScaled. destruct (negb (FT_Set_Pixel_Sizes face ps)); [discriminate|].
  intros H. apply Ok_inj in H. subst f'. unfold same_tables.
  destruct (overlay f) eqn:Eo; destruct (dwidth f) eqn:Ed; simpl; rewrite ?Eo, ?Ed; simpl;
    repeat split; try reflexivity; try assumption; try discriminate.
Qed.

Lemma loadFixed_inv face ps f f' : loadFixed face ps f = Ok f' → same_tables f f'.
Proof.
  unfold loadFixed.
  destruct (best_size ps (available_sizes face) 0 (-1) INT_MAX) as [bestIdx bestHeightDiff].
  destruct ((1 <? bestHeightDiff) && (0 <? units_per_EM face)); [apply loadScaled_inv|].
  destruct (overlay f) eqn:Eo; destruct (dwidth f) eqn:Ed; simpl;
    repeat match goal with
           | |- context [negb (?a =? ?b)] => destruct (a =? b); simpl
           | |- context [negb (FT_Set_Pixel_Sizes ?a ?b)] =>
               destruct (FT_Set_Pixel_Sizes a b); simpl
           | |- context [overlay ?g] => rewrite Eo; simpl
           end;
    try discriminate;
    intros H; apply Ok_inj in H; subst f'; unfold same_tables; simpl;
    rewrite ?Eo, ?Ed; repeat split; try reflexivity; try discriminate.
Qed.

Lemma sizing_inv face ps f f' : sizing face ps f = Ok f' → same_tables f f'.
Proof.
  unfold sizing. destruct (0 <? num_fixed_sizes face);
    [apply loadFixed_inv | apply loadScaled_inv].
Qed.

Lemma load_inv ft env font f0 f :
  load ft env font f0 = Ok f →
  ∃ face f1 f2,
    FT_New_Face ft (file font) = Some face ∧
    sizing face (pixel_size font) (set_render_mode (render_mode_of font) f0) = Ok f1 ∧
    (if overlay f1 then f2 = f1
     else allocate_atlas (count_glyphs env (dwidth f0) (charcodes face) 0) f1 = Ok f2) ∧
    load_glyphs env face (charcodes face) f2 = Ok f.
Proof.
  unfold load. destruct (negb (FT_Init_FreeType ft)); [discriminate|].
  destruct (FT_New_Face ft (file font)) as [face|]; [|discriminate].
  fold (sizing face (pixel_size font) (set_render_mode (render_mode_of font) f0)).
  destruct (sizing face (pixel_size font) (set_render_mode (render_mode_of font) f0))
    as [f1| |] eqn:Esz; try discriminate.
  simpl. intros H. exists face, f1.
  destruct (overlay f1) eqn:Eo; simpl in H.
  - exists f1. split; [reflexivity|]. split; [exact Esz|]. split; [reflexivity|exact H].
  - destruct (allocate_atlas (count_glyphs env (dwidth f0) (charcodes face) 0) f1)
      as [f2| |] eqn:Eal; try discriminate.
    exists f2. split; [reflexivity|]. split; [exact Esz|]. split; [reflexivity|exact H].
Qed.

(** A successful allocation: the grid is addressable, has room for the
    glyphs and the blank cell, and the buffer is a resized copy. *)
Lemma allocate_atlas_inv n f f' :
  allocate_atlas n f = Ok f' → 0 < px f → 0 < py f →
  same_geometry (set_grid (nx f') (ny f') f) f' ∧
  atlasMap f' = atlasMap f ∧ atlas_seq f' = atlas_seq f ∧
  0 <= nx f' <= 255 ∧ 0 <= ny f' <= 255 ∧ n + 1 <= nx f' * ny f' ∧
  ∃ size, atlasBuf f' = resize size 0 (atlasBuf f).
Proof.
  unfold allocate_atlas, plan_atlas. intros H Hpx Hpy.
  destruct (atlas_geometry n (px f) (py f)) as [[cols rws]|] eqn:Egeo; [|discriminate].
  destruct ((255 <? cols) || (255 <? rws)) eqn:Ebig; [discriminate|].
  simpl in H. apply Ok_inj in H. subst f'. simpl.
  apply orb_false_elim in Ebig as [Ec Er].
  apply Z.ltb_ge in Ec. apply Z.ltb_ge in Er.
  unfold atlas_geometry, atlas_start in Egeo.
  pose proof (grow_grid_sound _ _ _ _ _ _ _ _ Egeo) as Hroom.
  pose proof (grow_grid_mono _ _ _ _ _ _ _ _ Egeo) as [Hc0 Hr0].
  assert (Hside : 0 <= Z.sqrt (u32 ((n + 1) * px f * py f))) by apply Z.sqrt_nonneg.
  assert (0 <= Z.sqrt (u32 ((n + 1) * px f * py f)) / px f) by (apply Z.div_pos; lia).
  assert (0 <= Z.sqrt (u32 ((n + 1) * px f * py f)) / py f) by (apply Z.div_pos; lia).
  split; [unfold same_geometry; simpl; repeat split; reflexivity|].
  repeat split; try reflexivity; try lia.
  eexists. reflexivity.
Qed.

(** The exceptions each step can throw. *)
Lemma loadScaled_throw face ps f e :
  loadScaled face ps f = Throw e → e = Could_not_set_pixel_sizes.
Proof.
  unfold loadScaled. destruct (negb (FT_Set_Pixel_Sizes face ps)); [|discriminate].
  intros H. injection H as <-. reflexivity.
Qed.

Lemma loadFace_at_throw face c apos f e :
  loadFace_at face c apos f = Throw e → ∃ m, e = Unhandled_pixel_type m.
Proof.
  unfold loadFace_at. destruct (65535 <? c); [discriminate|].
  destruct (FT_Load_Char face (glyph_render_mode f) c) as [| |g]; try discriminate.
  unfold glyph_stores, decode_stores.
  destruct (_ =? FT_PIXEL_MODE_MONO); [discriminate|].
  destruct (_ =? FT_PIXEL_MODE_GRAY); [discriminate|].
  destruct (_ =? FT_PIXEL_MODE_LCD); [discriminate|].
  simpl. intros H. injection H as <-. eexists. reflexivity.
Qed.

Lemma load_glyphs_throw env face cs f e :
  load_glyphs env face cs f = Throw e → ∃ m, e = Unhandled_pixel_type m.
Proof.
  revert f. induction cs as [|a cs IH]; intros f; simpl; [discriminate|].
  destruct (isLoadableChar env (dwidth f) a).
  - destruct (overlay f).
    + destruct (atlasMap f !! a) as [apos|].
      * destruct (loadFace_at face a apos f) as [f1|e1|] eqn:E; simpl.
        -- apply IH.
        -- intros H. injection H as <-. eapply loadFace_at_throw. exact E.
        -- discriminate.
      * simpl. apply IH.
    + unfold loadFace.
      destruct (loadFace_at face a (next_pos f) f) as [f1|e1|] eqn:E; simpl.
      * apply IH.
      * intros H. injection H as <-. eapply loadFace_at_throw. exact E.
      * discriminate.
  - simpl. apply IH.
Qed.

Lemma allocate_atlas_throw n f e :
  allocate_atlas n f = Throw e → e = Impossible_atlas_geometry.
Proof.
  unfold allocate_atlas, plan_atlas.
  destruct (atlas_geometry n (px f) (py f)) as [[cols rws]|]; [|discriminate].
  destruct ((255 <? cols) || (255 <? rws)); [|discriminate].
  simpl. intros H. injection H as <-. reflexivity.
Qed.

Lemma allocate_atlas_size n f f' :
  allocate_atlas n f = Ok f' → px f' = px f ∧ py f' = py f ∧ overlay f' = overlay f.
Proof.
  unfold allocate_atlas. destruct (plan_atlas n (px f) (py f)); try discriminate.
  simpl. intros H. apply Ok_inj in H. subst f'. simpl. auto.
Qed.

(* --------------------------------------------------------------------- *)
(** *** Atlas geometry of a build *)

(** Within the range of the 32-bit product, [(g+1)·px·py < 2^32], the
    build plans the grid from the pixel total itself: with loadable glyph
    count [g] and positive cell size [px], [py] the planner starts from
    [side = sqrt ((g+1)·px·py)], [nx = side/px], [ny = side/py]
    (truncated), increments [nx] when [px·nx < py·ny] and [ny] otherwise
    until [nx·ny >= g+1], and returns with [nx·ny >= g+1]; the build
    throws "Impossible atlas geometry" if and only if the converged [nx]
    or [ny] exceeds 255, and a Font that is built has the converged
    grid. *)
Theorem atlas_geometry_converges
    (ft : FT_Library) (env : CharEnv) (font : FcPattern) (f0 f1 : Font)
    (face : FT_Face) :
  FT_Init_FreeType ft = true → FT_New_Face ft (file font) = Some face →
  sizing face (pixel_size font) (set_render_mode (render_mode_of font) f0) = Ok f1 →
  overlay f1 = false →
  let g := count_glyphs env (dwidth f0) (charcodes face) 0 in
  0 < px f1 → 0 < py f1 → (g + 1) * px f1 * py f1 < 2 ^ 32 →
  let side := Z.sqrt ((g + 1) * px f1 * py f1) in
  ∃ nx' ny',
    atlas_geometry g (px f1) (py f1) = Some (nx', ny') ∧
    planner_run (g + 1) (px f1) (py f1) (side / px f1) (side / py f1) nx' ny' ∧
    g + 1 <= nx' * ny' ∧
    (load ft env font f0 = Throw Impossible_atlas_geometry ↔ 255 < nx' ∨ 255 < ny') ∧
    (∀ f, load ft env font f0 = Ok f →
          nx f = nx' ∧ ny f = ny' ∧ nx' <= 255 ∧ ny' <= 255).
Proof.
  intros Hinit Hface Hsz Hov g Hpx Hpy Hfit side.
  destruct (allocate_atlas_converges g f1 (count_glyphs_nonneg _ _ _) Hpx Hpy Hfit)
    as (nx' & ny' & Hgeo & Hrun & Hroom & Hthrow & Hok).
  exists nx', ny'. split; [exact Hgeo|]. split; [exact Hrun|]. split; [exact Hroom|].
  assert (Hload : load ft env font f0 =
                  (f2 ← allocate_atlas g f1; load_glyphs env face (charcodes face) f2)).
  { unfold load. rewrite Hinit, Hface. simpl.
    fold (sizing face (pixel_size font) (set_render_mode (render_mode_of font) f0)).
    rewrite Hsz. simpl. rewrite Hov. reflexivity. }
  rewrite Hload. split.
  - rewrite <- Hthrow.
    destruct (allocate_atlas g f1) as [f2|e| ] eqn:Eal; simpl.
    + split; [|discriminate].
      intros H. apply load_glyphs_throw in H as [m Hm]. discriminate.
    + tauto.
    + split; discriminate.
  - intros f Hf.
    destruct (allocate_atlas g f1) as [f2|e| ] eqn:Eal; simpl in Hf; try discriminate.
    destruct (Z_le_gt_dec nx' 255) as [Hx|Hx]; [|
      assert (Ok f2 = Throw Impossible_atlas_geometry) by (apply Hthrow; lia); discriminate].
    destruct (Z_le_gt_dec ny' 255) as [Hy|Hy]; [|
      assert (Ok f2 = Throw Impossible_atlas_geometry) by (apply Hthrow; lia); discriminate].
    destruct (Hok Hx Hy) as (f2' & Hf2' & Hnx2 & Hny2).
    apply Ok_inj in Hf2'. subst f2'.
    assert (Hov2 : overlay f2 = false).
    { apply allocate_atlas_size in Eal as (_ & _ & ->). exact Hov. }
    apply load_glyphs_primary_seq in Hf as ((_ & _ & _ & _ & _ & -> & -> & _) & _);
      [|exact Hov2].
    auto.
Qed.

(** The spec's scenario, three loadable glyphs and the blank cell in 10x20
    cells: the planner starts at (2,1) and returns (2,2). *)
Lemma atlas_geometry_converges_witness :
  ∃ nx' ny',
    (nx', ny') = (2, 2) ∧
    planner_run 4 10 20 2 1 nx' ny' ∧
    (load Samples.library Samples.env (Samples.pattern "terminal" 20) blank_Font
       = Throw Impossible_atlas_geometry ↔ 255 < nx' ∨ 255 < ny') ∧
    (∀ f, load Samples.library Samples.env (Samples.pattern "terminal" 20) blank_Font
            = Ok f → nx f = nx' ∧ ny f = ny' ∧ nx' <= 255 ∧ ny' <= 255).
Proof.
  destruct (atlas_geometry_converges Samples.library Samples.env
              (Samples.pattern "terminal" 20) blank_Font
              (set_baseline 0 (set_size 10 20
                 (set_render_mode FT_RENDER_MODE_NORMAL blank_Font)))
              Samples.terminal_face
              eq_refl ltac:(evaluate) ltac:(evaluate) eq_refl
              ltac:(evaluate) ltac:(evaluate) ltac:(evaluate))
    as (nx' & ny' & Hgeo & Hrun & _ & Hthrow & Hok).
  exists nx', ny'. split.
  - vm_compute in Hgeo. congruence.
  - split; [exact Hrun|]. split; [exact Hthrow|exact Hok].
Defined.

(** C2 at a failing input: a primary build of a scalable face with five
    loadable glyphs at pixel size 15953, which sizes the cell to
    15953 x 45587 pixels.  The pixel total 6·15953·45587 = 4363496466 does
    not fit the [unsigned] product [n_glyphs * px * py], which wraps to
    68529170 before it is widened to [unsigned long]: the loop starts from
    (0,0) instead of (4,1) and the build plans the grid (3,2), where the
    planner started from [sqrt ((g+1)·px·py)] returns (4,2) and nothing
    else. *)
Theorem atlas_start_wraps :
  count_glyphs Samples.env false (charcodes Gallery.poster_face) 0 = 5 ∧
  (∃ f1, sizing Gallery.poster_face 15953
           (set_render_mode FT_RENDER_MODE_NORMAL blank_Font) = Ok f1 ∧
         overlay f1 = false ∧ px f1 = 15953 ∧ py f1 = 45587) ∧
  (5 + 1) * 15953 * 45587 = 4363496466 ∧
  u32 ((5 + 1) * 15953 * 45587) = 68529170 ∧
  atlas_start 5 15953 45587 = (6, 0, 0) ∧
  atlas_geometry 5 15953 45587 = Some (3, 2) ∧
  plan_atlas 5 15953 45587 = Ok (3, 2) ∧
  Z.sqrt ((5 + 1) * 15953 * 45587) / 15953 = 4 ∧
  Z.sqrt ((5 + 1) * 15953 * 45587) / 45587 = 1 ∧
  planner_run 6 15953 45587 4 1 4 2 ∧
  (∀ nx' ny', planner_run 6 15953 45587 4 1 nx' ny' → (nx', ny') = (4, 2)).
Proof.
  split; [vm_compute; reflexivity|].
  split; [eexists; split; [vm_compute; reflexivity|]; repeat split|].
  split; [reflexivity|]. split; [reflexivity|]. split; [reflexivity|].
  split; [reflexivity|]. split; [reflexivity|]. split; [reflexivity|].
  split; [reflexivity|]. split.
  - apply planner_inc_ny; [lia|lia|]. apply planner_stop. lia.
  - intros nx' ny' Hrun.
    inversion Hrun as [? ? Hstop | ? ? ? ? _ Hnarrow _ | ? ? ? ? _ _ Hnext]; subst;
      [lia|lia|].
    inversion Hnext as [? ? Hstop | ? ? ? ? Hless _ _ | ? ? ? ? Hless _ _]; subst;
      [reflexivity|lia|lia].
Qed.
(* --------------------------------------------------------------------- *)
(** *** Atlas map of a primary or double-width build *)

Lemma same_geometry_sym f f' : same_geometry f f' → same_geometry f' f.
Proof. unfold same_geometry. intuition congruence. Qed.

Lemma count_glyphs_app env dw l1 l2 :
  count_glyphs env dw (l1 ++ l2) 0 = count_glyphs env dw l1 0 + count_glyphs env dw l2 0.
Proof.
  induction l1 as [|a l1 IH]; [simpl; lia|].
  simpl app. rewrite !count_glyphs_cons, IH. lia.
Qed.


Lemma lookup_resize_nil (size i : nat) (v : Z) :
  resize size 0 ([] : list Z) !! i = Some v → v = 0.
Proof.
  rewrite resize_nil. intros H. apply lookup_replicate in H. apply H.
Qed.



(* --------------------------------------------------------------------- *)
(** *** Overlay builds *)

Lemma in_cell_fields f f' p off :
  px f' = px f → py f' = py f → nx f' = nx f → in_cell f' p off ↔ in_cell f p off.
Proof.
  intros Hpx Hpy Hnx. unfold in_cell, atlas_glyph_offset. rewrite Hpx, Hpy, Hnx. tauto.
Qed.

(** What a primary build establishes about its grid and atlas map. *)
Lemma primary_build_map_ok ft env font pri :
  Font_Regular ft env font = Ok pri → 0 < px pri → 0 < py pri →
  map_ok pri ∧ 0 < nx pri <= 255 ∧ 0 < ny pri <= 255 ∧
  atlas_seq pri <= nx pri * ny pri.
Proof.
  unfold Font_Regular. intros Hload Hpx Hpy.
  apply load_inv in Hload as (face & f1 & f2 & Hface & Hsz & Halloc & Hpass).
  change (dwidth blank_Font) with false in Halloc.
  apply sizing_inv in Hsz as (Hov1 & Hdw1 & _ & _ & _ & Hmap1 & Hseq1 & _).
  simpl in Hov1, Hdw1, Hmap1, Hseq1. rewrite Hov1 in Halloc.
  assert (Hf2 : overlay f2 = false ∧ px f2 = px f1 ∧ py f2 = py f1 ∧ dwidth f2 = dwidth f1).
  { unfold allocate_atlas in Halloc. destruct (plan_atlas _ _ _); try discriminate.
    simpl in Halloc. apply Ok_inj in Halloc. subst f2. simpl. auto. }
  destruct Hf2 as (Hov2 & Hpx21 & Hpy21 & Hdw21).
  pose proof (load_glyphs_primary_seq _ _ _ _ _ Hov2 Hpass) as [Hgeo Hseqf].
  pose proof Hgeo as (_ & Hdwf & Hpxf & Hpyf & _ & Hnxf & Hnyf & _).
  apply allocate_atlas_inv in Halloc as (_ & Hmap2 & Hseq2 & Hnx2 & Hny2 & Hroom & _);
    [|lia|lia].
  pose proof (count_glyphs_nonneg env false (charcodes face)) as Hcnt.
  assert (Hs2 : atlas_seq f2 = atlas_seq_init) by congruence.
  assert (Hdw2 : dwidth f2 = false) by congruence.
  rewrite Hdw2 in Hseqf. unfold atlas_seq_init in Hs2.
  assert (0 < nx f2 ∧ 0 < ny f2) as [Hnxp Hnyp] by nia.
  split; [|rewrite Hnxf, Hnyf; lia].
  apply (load_glyphs_primary_map_ok _ _ _ _ _ Hov2 Hpass); try lia.
  - rewrite Hdw2. lia.
  - split.
    + intros c p. rewrite Hmap2, Hmap1. rewrite lookup_empty. discriminate.
    + intros c1 c2 p. rewrite Hmap2, Hmap1. rewrite lookup_empty. discriminate.
Qed.




(* --------------------------------------------------------------------- *)
(** *** Overlay rewrite of a cell *)

(** C9 at a failing input: the regular glyph A fills its 2x2 cell, the
    italic glyph A is a single pixel.  The overlay clears the [bw] x [bh]
    = 1x1 block at the cell origin only; the other three pixels of the
    regular glyph survive next to the italic one. *)
Theorem overlay_clear_leaves_stale_pixels :
  Font_Regular Samples.library Samples.env (Samples.pattern "block" 2)
    = Ok Samples.block_font ∧
  Font_Overlay Samples.library Samples.env (Samples.pattern "italic" 2)
    Samples.block_font = Ok Samples.italic_over_block ∧
  atlasMap Samples.block_font !! 65 = Some Samples.cell_0_1 ∧
  cell_bytes Samples.block_font Samples.cell_0_1 =
    [200; 200; 200; 0; 200; 200; 200; 0; 200; 200; 200; 0; 200; 200; 200; 0] ∧
  clear_stores (overlay_members Samples.block_font) (Samples.dot 0 7) Samples.cell_0_1 =
    [(16, 0); (17, 0); (18, 0); (19, 0)] ∧
  cell_bytes Samples.italic_over_block Samples.cell_0_1 =
    [7; 7; 7; 0; 200; 200; 200; 0; 200; 200; 200; 0; 200; 200; 200; 0].
Proof. repeat (split; [evaluate|]). evaluate. Qed.

(* --------------------------------------------------------------------- *)
(** *** The blank cell *)

(** A primary or double-width build, taken apart. *)
Lemma primary_build_inv ft env font f0 f face :
  f0 = blank_Font ∨ (∃ priFont, f0 = doublewidth_members priFont) →
  load ft env font f0 = Ok f → FT_New_Face ft (file font) = Some face →
  0 < px f → 0 < py f →
  ∃ f2, overlay f2 = false ∧ load_glyphs env face (charcodes face) f2 = Ok f ∧
        same_geometry f2 f ∧ dwidth f2 = dwidth f0 ∧
        atlas_seq f2 = atlas_seq_init ∧
        0 < nx f2 <= 255 ∧ 0 < ny f2 <= 255 ∧
        atlas_seq_init + count_glyphs env (dwidth f0) (charcodes face) 0
          <= nx f2 * ny f2 ∧
        ∃ size, atlasBuf f2 = resize size 0 [].
Proof.
  intros Hinit Hload Hface Hpx Hpy.
  assert (Hf0 : overlay f0 = false ∧ atlasBuf f0 = [] ∧ atlas_seq f0 = atlas_seq_init).
  { destruct Hinit as [-> | [pri ->] ]; repeat split; reflexivity. }
  destruct Hf0 as (Hov0 & Hbuf0 & Hseq0).
  apply load_inv in Hload as (face' & f1 & f2 & Hface' & Hsz & Halloc & Hpass).
  rewrite Hface in Hface'. injection Hface' as <-.
  apply sizing_inv in Hsz as (Hov1 & Hdw1 & _ & _ & Hbuf1 & _ & Hseq1 & _).
  simpl in Hov1, Hdw1, Hbuf1, Hseq1. rewrite Hov1, Hov0 in Halloc.
  pose proof (allocate_atlas_size _ _ _ Halloc) as (Hpx21 & Hpy21 & Hov21).
  assert (Hov2 : overlay f2 = false) by congruence.
  assert (Hdw21 : dwidth f2 = dwidth f1).
  { unfold allocate_atlas in Halloc. destruct (plan_atlas _ _ _); try discriminate.
    simpl in Halloc. apply Ok_inj in Halloc. subst f2. reflexivity. }
  pose proof (load_glyphs_primary_seq _ _ _ _ _ Hov2 Hpass) as [Hgeo _].
  pose proof Hgeo as (_ & _ & Hpxf & Hpyf & _).
  apply allocate_atlas_inv in Halloc as (_ & _ & Hseq2 & Hnx2 & Hny2 & Hroom & size & Hbuf2);
    [|lia|lia].
  pose proof (count_glyphs_nonneg env (dwidth f0) (charcodes face)) as Hcnt.
  exists f2. split; [exact Hov2|]. split; [exact Hpass|]. split; [exact Hgeo|].
  split; [congruence|]. split; [congruence|].
  assert (0 < nx f2 ∧ 0 < ny f2) as [Hnxp Hnyp] by nia.
  split; [lia|]. split; [lia|]. split; [unfold atlas_seq_init; lia|].
  exists size. rewrite Hbuf2, Hbuf1, Hbuf0. reflexivity.
Qed.

(** An overlay build, taken apart. *)
Lemma overlay_build_inv ft env font pri f face :
  Font_Overlay ft env font pri = Ok f → FT_New_Face ft (file font) = Some face →
  ∃ f1, overlay f1 = true ∧ load_glyphs env face (charcodes face) f1 = Ok f ∧
        same_geometry f1 f ∧
        atlasBuf f1 = atlasBuf pri ∧ atlasMap f1 = atlasMap pri ∧
        px f1 = px pri ∧ py f1 = py pri ∧ nx f1 = nx pri ∧ ny f1 = ny pri.
Proof.
  unfold Font_Overlay. intros Hload Hface.
  apply load_inv in Hload as (face' & f1 & f2 & Hface' & Hsz & Hf2 & Hpass).
  rewrite Hface in Hface'. injection Hface' as <-.
  apply sizing_inv in Hsz
    as (Hov1 & _ & Hnx1 & Hny1 & Hbuf1 & Hmap1 & _ & _ & Hpxy1 & _).
  simpl in Hov1, Hnx1, Hny1, Hbuf1, Hmap1, Hpxy1.
  destruct (Hpxy1 eq_refl) as (Hpx1 & Hpy1 & _).
  rewrite Hov1 in Hf2. subst f2.
  pose proof (load_glyphs_overlay_inv _ _ _ _ _ Hov1 Hpass) as (Hgeo & _ & _).
  exists f1. split; [exact Hov1|]. split; [exact Hpass|]. split; [exact Hgeo|].
  repeat split; assumption.
Qed.

(** Cell (0,0) of a primary or double-width font is blank when the
    rasterised glyphs keep to their cells and the atlas has fewer than
    2^31 bytes: no glyph is assigned it. *)
Lemma blank_cell_of_primary ft env font f0 f face :
  f0 = blank_Font ∨ (∃ priFont, f0 = doublewidth_members priFont) →
  load ft env font f0 = Ok f → FT_New_Face ft (file font) = Some face →
  0 < px f → 0 < py f → atlas_bytes f < 2 ^ 31 → all_fit face f →
  cell_blank f {| x := 0; y := 0 |}.
Proof.
  intros Hinit Hload Hface Hpx0 Hpy0 Hsmall Hfit.
  destruct (primary_build_inv _ _ _ _ _ _ Hinit Hload Hface Hpx0 Hpy0)
    as (f2 & Hov2 & Hpass & Hgeo & Hdw2 & Hs2 & Hnx2 & Hny2 & Hroom & size & Hbuf2).
  pose proof Hgeo as (_ & _ & Hpxf & Hpyf & _ & Hnxf & Hnyf & Hmf).
  destruct (atlas_small_cells f Hpx0 Hpy0 ltac:(lia) ltac:(lia) Hsmall) as [Hpx32 Hpy32].
  assert (Hpx : 0 < px f < 2 ^ 32) by lia.
  assert (Hpy : 0 < py f < 2 ^ 32) by lia.
  unfold atlas_seq_init in *.
  intros off v Hin Hoff Hlook.
  apply (in_cell_same_geometry _ _ _ _ Hgeo) in Hin.
  rewrite (load_glyphs_primary_frame _ _ _ _ _ off Hov2 Hpass Hoff) in Hlook;
    try lia; try nia.
  - rewrite Hbuf2 in Hlook. apply lookup_resize_nil in Hlook. exact Hlook.
  - apply (all_fit_same_geometry _ f); [apply same_geometry_sym; exact Hgeo|exact Hfit].
  - intros pre c post Hcs Hc _ Hin'.
    rewrite Hdw2 in Hc. rewrite Hs2, Hdw2 in Hin'.
    pose proof (count_glyphs_nonneg env (dwidth f0) pre) as Hpre.
    pose proof (count_glyphs_nonneg env (dwidth f0) post) as Hpst.
    assert (Hroom' : 1 + count_glyphs env (dwidth f0) pre 0 < nx f2 * ny f2).
    { rewrite Hcs, count_glyphs_app, count_glyphs_cons, Hc in Hroom. lia. }
    rewrite raw_pos_seq_pos in Hin'; [|lia|lia|].
    + assert (Heq : seq_pos (nx f2) (1 + count_glyphs env (dwidth f0) pre 0)
                    = {| x := 0; y := 0 |}).
      { apply (cells_disjoint f2 _ _ off); try lia; try assumption.
        - apply seq_pos_in_grid; lia.
        - unfold in_grid. simpl. lia. }
      apply seq_pos_origin in Heq; lia.
    + assert (H255 : (1 + count_glyphs env (dwidth f0) pre 0) / nx f2 < 255); [|lia].
      apply Z.div_lt_upper_bound; nia.
Qed.

(** So is cell (0,0) of an overlay font built against it. *)
Lemma blank_cell_of_overlay ft env font font' pri f face face' :
  Font_Regular ft env font = Ok pri → FT_New_Face ft (file font) = Some face →
  Font_Overlay ft env font' pri = Ok f → FT_New_Face ft (file font') = Some face' →
  0 < px pri → 0 < py pri → atlas_bytes pri < 2 ^ 31 →
  all_fit face pri → all_fit face' f →
  cell_blank f {| x := 0; y := 0 |}.
Proof.
  intros Hpri Hface Hload Hface' Hpx0 Hpy0 Hsmall Hfit Hfit'.
  pose proof (blank_cell_of_primary _ _ _ _ _ _ (or_introl eq_refl) Hpri Hface
                Hpx0 Hpy0 Hsmall Hfit) as Hblank.
  destruct (primary_build_map_ok _ _ _ _ Hpri Hpx0 Hpy0)
    as ([Hcells _] & Hnx & Hny & Hseq).
  destruct (atlas_small_cells pri Hpx0 Hpy0 ltac:(lia) ltac:(lia) Hsmall) as [Hpx32 Hpy32].
  assert (Hpx : 0 < px pri < 2 ^ 32) by lia.
  assert (Hpy : 0 < py pri < 2 ^ 32) by lia.
  destruct (overlay_build_inv _ _ _ _ _ _ Hload Hface')
    as (f1 & Hov1 & Hpass & Hgeo & Hbuf1 & Hmap1 & Hpx1 & Hpy1 & Hnx1 & Hny1).
  pose proof Hgeo as (_ & _ & Hpxf & Hpyf & _ & Hnxf & _).
  intros off v Hin Hoff Hlook.
  apply (in_cell_same_geometry _ _ _ _ Hgeo) in Hin.
  rewrite (load_glyphs_overlay_frame _ _ _ _ _ off Hov1 Hpass Hoff) in Hlook;
    try lia; try nia.
  - rewrite Hbuf1 in Hlook. apply (Hblank off v); [|exact Hoff|exact Hlook].
    apply (in_cell_fields pri f1); congruence.
  - apply (all_fit_same_geometry _ f); [apply same_geometry_sym; exact Hgeo|exact Hfit'].
  - intros c p _ _ _ Hlook' Hin'.
    rewrite Hmap1 in Hlook'. destruct (Hcells _ _ Hlook') as (s & Hs & ->).
    unfold atlas_seq_init in Hs.
    apply (in_cell_fields pri f1) in Hin; try congruence.
    apply (in_cell_fields pri f1) in Hin'; try congruence.
    assert (Heq : seq_pos (nx pri) s = {| x := 0; y := 0 |}).
    { apply (cells_disjoint pri _ _ off); try lia; try assumption.
      - apply seq_pos_in_grid; lia.
      - unfold in_grid. simpl. lia. }
    apply seq_pos_origin in Heq; lia.
Qed.

(** C5 at a failing input: a primary build over a face whose glyph A has
    [bitmap_left = 3] in a 2-pixel cell.  A is assigned cell (1,0); its
    unclipped store runs past the end of the pixel row and lands in the
    second row of cell (0,0), the cell reserved as blank. *)
Theorem blank_cell_overwritten :
  Font_Regular Samples.library Samples.env (Samples.pattern "shifted" 2)
    = Ok Samples.shifted_font ∧
  atlasMap Samples.shifted_font !! 65 = Some Samples.cell_1_0 ∧
  cell_bytes Samples.shifted_font Samples.cell_0_0 =
    [0; 0; 0; 0; 0; 0; 0; 0; 0; 0; 0; 0; 200; 200; 200; 0] ∧
  ¬ cell_blank Samples.shifted_font Samples.cell_0_0.
Proof.
  split; [evaluate|]. split; [evaluate|]. split; [evaluate|].
  intros Hblank. specialize (Hblank 20 200).
  assert (200 = 0); [|discriminate].
  apply Hblank; [|lia|evaluate].
  exists 1, 4. vm_compute. intuition discriminate.
Qed.
(* --------------------------------------------------------------------- *)
(** *** Dimension check of overlay and double-width builds *)

(** On the scaled path the sizing step is [loadScaled]. *)
Lemma sizing_scaled face ps f :
  on_scaled_path face ps = true → sizing face ps f = loadScaled face ps f.
Proof.
  unfold on_scaled_path, sizing, loadFixed.
  destruct (0 <? num_fixed_sizes face); simpl; [|reflexivity].
  destruct (best_size ps (available_sizes face) 0 (-1) INT_MAX) as [i d]. simpl.
  intros ->. reflexivity.
Qed.

(** C8 (amended): an overlay or double-width build validates the face
    against the established [px], [py] on the fixed-strike path only,
    where a strike of another width or height makes the constructor throw
    the size-mismatch error (no Font, no atlas).  On the scaled path,
    including the fallback from a strike that is more than a pixel off, no
    dimension is validated: the build never throws a size mismatch there
    and keeps [px], [py] as established. *)
Theorem dimension_check_on_fixed_strikes_only
    (ft : FT_Library) (env : CharEnv) (font : FcPattern) (f0 : Font)
    (face : FT_Face) :
  overlay f0 = true ∨ dwidth f0 = true →
  FT_Init_FreeType ft = true → FT_New_Face ft (file font) = Some face →
  (on_scaled_path face (pixel_size font) = false →
     px f0 ≠ size_width (chosen_strike face (pixel_size font)) ∨
     py f0 ≠ size_height (chosen_strike face (pixel_size font)) →
     ∃ e, load ft env font f0 = Throw e ∧ is_dimension_mismatch e = true) ∧
  (on_scaled_path face (pixel_size font) = true →
     (∀ e, load ft env font f0 = Throw e → is_dimension_mismatch e = false) ∧
     (∀ f, load ft env font f0 = Ok f → px f = px f0 ∧ py f = py f0)).
Proof.
  intros Hkind Hinit Hface. split.
  - intros Hpath Hdiff. unfold load. rewrite Hinit, Hface. simpl.
    unfold on_scaled_path in Hpath. apply orb_false_elim in Hpath as [Hfix Hfar].
    apply negb_false_iff in Hfix. unfold sizing. rewrite Hfix.
    unfold loadFixed, chosen_strike in *.
    destruct (best_size (pixel_size font) (available_sizes face) 0 (-1) INT_MAX)
      as [bestIdx bestHeightDiff]. simpl in Hfar, Hdiff. rewrite Hfar. simpl.
    assert (Hk : overlay f0 || dwidth f0 = true)
      by (destruct Hkind as [-> | ->]; [reflexivity|apply orb_true_r]).
    rewrite Hk.
    destruct (Z.eqb_spec (px f0) (size_width (strike_at face bestIdx))) as [Ex|Ex]; simpl.
    + destruct (Z.eqb_spec (py f0) (size_height (strike_at face bestIdx))) as [Ey|Ey]; simpl.
      * exfalso. destruct Hdiff; contradiction.
      * eexists. split; reflexivity.
    + eexists. split; reflexivity.
  - intros Hpath. split.
    + intros e. unfold load. rewrite Hinit, Hface. simpl.
      fold (sizing face (pixel_size font) (set_render_mode (render_mode_of font) f0)).
      rewrite (sizing_scaled _ _ _ Hpath).
      destruct (loadScaled face (pixel_size font) _) as [f1|e1|] eqn:Esc; simpl.
      * destruct (overlay f1); simpl.
        -- intros H. apply load_glyphs_throw in H as [m ->]. reflexivity.
        -- destruct (allocate_atlas _ f1) as [f2|e2|] eqn:Eal; simpl.
           ++ intros H. apply load_glyphs_throw in H as [m ->]. reflexivity.
           ++ intros H. injection H as <-. apply allocate_atlas_throw in Eal. subst e2.
              reflexivity.
           ++ discriminate.
      * intros H. injection H as <-. apply loadScaled_throw in Esc. subst e1. reflexivity.
      * discriminate.
    + intros f Hload.
      apply load_inv in Hload as (face' & f1 & f2 & _ & Hsz & Hf2 & Hpass).
      apply sizing_inv in Hsz as (Hov1 & Hdw1 & _ & _ & _ & _ & _ & _ & Hkeep_o & Hkeep_d).
      simpl in Hov1, Hdw1, Hkeep_o, Hkeep_d.
      assert (Hsize1 : px f1 = px f0 ∧ py f1 = py f0).
      { destruct Hkind as [Ho|Hd].
        - destruct (Hkeep_o Ho) as (? & ? & _). auto.
        - apply (Hkeep_d Hd). }
      destruct (overlay f1) eqn:Eo.
      * subst f2. apply load_glyphs_overlay_inv in Hpass as ((_ & _ & -> & -> & _) & _);
          [exact Hsize1|exact Eo].
      * apply allocate_atlas_size in Hf2 as (Hpx2 & Hpy2 & Hov2).
        apply load_glyphs_primary_seq in Hpass as ((_ & _ & -> & -> & _) & _);
          [|congruence].
        rewrite Hpx2, Hpy2. exact Hsize1.
Qed.

Lemma dimension_check_on_fixed_strikes_only_witness :
  (∃ e, Font_Overlay Samples.library Samples.env (Samples.pattern "tall" 2)
          Samples.regular_font = Throw e ∧ is_dimension_mismatch e = true) ∧
  px Samples.wide_font = px (doublewidth_members Samples.regular_font) ∧
  py Samples.wide_font = py (doublewidth_members Samples.regular_font).
Proof.
  split.
  - apply (proj1 (dimension_check_on_fixed_strikes_only Samples.library Samples.env
                    (Samples.pattern "tall" 2) (overlay_members Samples.regular_font)
                    Samples.tall_face (or_introl eq_refl) eq_refl ltac:(evaluate))).
    + evaluate.
    + right. vm_compute. discriminate.
  - apply (proj2 (dimension_check_on_fixed_strikes_only Samples.library Samples.env
                    (Samples.pattern "wide" 2) (doublewidth_members Samples.regular_font)
                    Samples.wide_face (or_intror eq_refl) eq_refl ltac:(evaluate))).
    + evaluate.
    + evaluate.
Defined.

(** C8, as stated, fails on the scaled path: the face yields a 1x3 cell,
    the double-width build expects 4x2 and the overlay build 2x2, and both
    constructors return a Font. *)
Lemma scaled_path_accepts_other_dimensions :
  on_scaled_path Samples.wide_face 2 = true ∧
  scaled_size Samples.wide_face 2 = (1, 3) ∧
  px (doublewidth_members Samples.regular_font) = 4 ∧
  py (doublewidth_members Samples.regular_font) = 2 ∧
  Font_DoubleWidth Samples.library Samples.env (Samples.pattern "wide" 2)
    Samples.regular_font = Ok Samples.wide_font ∧
  px (overlay_members Samples.regular_font) = 2 ∧
  py (overlay_members Samples.regular_font) = 2 ∧
  Font_Overlay Samples.library Samples.env (Samples.pattern "wide" 2)
    Samples.regular_font = Ok Samples.scaled_overlay.
Proof. repeat (split; [evaluate|]). evaluate. Qed.
(* --------------------------------------------------------------------- *)
(** *** Fontpack *)

Lemma build_variant_built ctor found regular slot :
  variant_built ctor found regular slot → build_variant ctor found regular = Ok slot.
Proof.
  intros [[-> ->] | (m & f & -> & Hf & ->)]; simpl; [reflexivity|].
  rewrite Hf. reflexivity.
Qed.

Lemma build_variant_throws ctor found regular e :
  variant_throws ctor found regular e → build_variant ctor found regular = Throw e.
Proof. intros (m & -> & Hf). simpl. rewrite Hf. reflexivity. Qed.

(** The constructor, once the regular font is built. *)
Lemma Fontpack_ctor_variants fc ft env dpi fontname dwfontname p m regular :
  FcInitLoadConfigAndFonts fc = true →
  regular_request fc dpi fontname = Some p → matchFont fc p = Some m →
  Font_Regular ft env m = Ok regular →
  Fontpack_ctor fc ft env dpi fontname dwfontname =
  (italic ← build_variant (Font_Overlay ft env) (matchFont fc (italic_request p)) regular;
   boldItalic ← build_variant (Font_Overlay ft env)
                              (matchFont fc (bold_italic_request p)) regular;
   bold ← build_variant (Font_Overlay ft env) (matchFont fc (bold_request p)) regular;
   doubleWidth ← build_variant (Font_DoubleWidth ft env)
                               (doublewidth_match fc dwfontname) regular;
   Ok {| fontRegular := regular; fontItalic := italic;
         fontBoldItalic := boldItalic; fontBold := bold;
         fontDoubleWidth := doubleWidth;
         fp_px := px regular; fp_py := py regular |}).
Proof.
  intros Hinit Hreq Hmatch Hreg. unfold Fontpack_ctor, regular_request in *.
  rewrite Hinit. simpl.
  destruct (FcNameParse fc fontname) as [p0|]; [|discriminate].
  injection Hreq as <-. rewrite Hmatch, Hreg. simpl.
  unfold italic_request, bold_italic_request, bold_request, doublewidth_match.
  destruct (build_variant _ (matchFont fc (set_slant _ _)) regular); try reflexivity.
  simpl.
  destruct (build_variant _ (matchFont fc (set_weight _ _)) regular); try reflexivity.
  simpl.
  destruct (build_variant _ (matchFont fc (set_slant _ _)) regular); try reflexivity.
  simpl.
  destruct (String.eqb dwfontname ""); [reflexivity|].
  destruct (FcNameParse fc dwfontname); reflexivity.
Qed.

(** C7 (amended): with the regular font built, a variant for which
    nothing is found (no match, or for the double-width font no name or an
    unparsable one) leaves its slot empty and is not fatal: when every
    variant that is found also builds, the constructor returns with the
    regular font and exactly the built variants.  An exception thrown
    inside the Font construction of a variant is not caught: the Fontpack
    constructor throws it. *)
Theorem fontpack_variant_failures
    (fc : FcConfig) (ft : FT_Library) (env : CharEnv) (dpi : Z)
    (fontname dwfontname : string) (p : FcRequest) (m : FcPattern) (regular : Font) :
  FcInitLoadConfigAndFonts fc = true →
  regular_request fc dpi fontname = Some p → matchFont fc p = Some m →
  Font_Regular ft env m = Ok regular →
  let italic := variant_built (Font_Overlay ft env) (matchFont fc (italic_request p)) regular in
  let boldItalic :=
    variant_built (Font_Overlay ft env) (matchFont fc (bold_italic_request p)) regular in
  let bold := variant_built (Font_Overlay ft env) (matchFont fc (bold_request p)) regular in
  let doubleWidth :=
    variant_built (Font_DoubleWidth ft env) (doublewidth_match fc dwfontname) regular in
  (∀ i bi b dw, italic i → boldItalic bi → bold b → doubleWidth dw →
     Fontpack_ctor fc ft env dpi fontname dwfontname =
     Ok {| fontRegular := regular; fontItalic := i; fontBoldItalic := bi;
           fontBold := b; fontDoubleWidth := dw;
           fp_px := px regular; fp_py := py regular |}) ∧
  (∀ e, variant_throws (Font_Overlay ft env) (matchFont fc (italic_request p)) regular e →
     Fontpack_ctor fc ft env dpi fontname dwfontname = Throw e) ∧
  (∀ e i, italic i →
     variant_throws (Font_Overlay ft env) (matchFont fc (bold_italic_request p)) regular e →
     Fontpack_ctor fc ft env dpi fontname dwfontname = Throw e) ∧
  (∀ e i bi, italic i → boldItalic bi →
     variant_throws (Font_Overlay ft env) (matchFont fc (bold_request p)) regular e →
     Fontpack_ctor fc ft env dpi fontname dwfontname = Throw e) ∧
  (∀ e i bi b, italic i → boldItalic bi → bold b →
     variant_throws (Font_DoubleWidth ft env) (doublewidth_match fc dwfontname) regular e →
     Fontpack_ctor fc ft env dpi fontname dwfontname = Throw e).
Proof.
  intros Hinit Hreq Hmatch Hreg italic boldItalic bold doubleWidth.
  rewrite (Fontpack_ctor_variants _ _ _ _ _ dwfontname _ _ _ Hinit Hreq Hmatch Hreg).
  subst italic boldItalic bold doubleWidth. repeat split.
  - intros i bi b dw Hi Hbi Hb Hdw.
    rewrite (build_variant_built _ _ _ _ Hi). simpl.
    rewrite (build_variant_built _ _ _ _ Hbi). simpl.
    rewrite (build_variant_built _ _ _ _ Hb). simpl.
    rewrite (build_variant_built _ _ _ _ Hdw). reflexivity.
  - intros e He. rewrite (build_variant_throws _ _ _ _ He). reflexivity.
  - intros e i Hi He.
    rewrite (build_variant_built _ _ _ _ Hi). simpl.
    rewrite (build_variant_throws _ _ _ _ He). reflexivity.
  - intros e i bi Hi Hbi He.
    rewrite (build_variant_built _ _ _ _ Hi). simpl.
    rewrite (build_variant_built _ _ _ _ Hbi). simpl.
    rewrite (build_variant_throws _ _ _ _ He). reflexivity.
  - intros e i bi b Hi Hbi Hb He.
    rewrite (build_variant_built _ _ _ _ Hi). simpl.
    rewrite (build_variant_built _ _ _ _ Hbi). simpl.
    rewrite (build_variant_built _ _ _ _ Hb). simpl.
    rewrite (build_variant_throws _ _ _ _ He). reflexivity.
Qed.

Lemma fontpack_variant_failures_witness :
  Fontpack_ctor Samples.plain_fontconfig Samples.library Samples.env 0
    "regular" "unparsable" =
  Ok {| fontRegular := Samples.regular_font; fontItalic := None;
        fontBoldItalic := None; fontBold := None; fontDoubleWidth := None;
        fp_px := 2; fp_py := 2 |} ∧
  Fontpack_ctor Samples.fontconfig Samples.library Samples.env 0 "regular" "" =
  Throw (Size_mismatch_py 2 3).
Proof.
  split.
  - apply (proj1 (fontpack_variant_failures Samples.plain_fontconfig Samples.library
                    Samples.env 0 "regular" "unparsable"
                    {| name := "regular"; dpi := None; slant := None; weight := None |}
                    (Samples.pattern "regular" 2) Samples.regular_font
                    eq_refl eq_refl eq_refl ltac:(evaluate)));
      left; split; reflexivity.
  - apply (proj1 (proj2 (fontpack_variant_failures Samples.fontconfig Samples.library
                    Samples.env 0 "regular" ""
                    {| name := "regular"; dpi := None; slant := None; weight := None |}
                    (Samples.pattern "regular" 2) Samples.regular_font
                    eq_refl eq_refl eq_refl ltac:(evaluate)))).
    exists (Samples.pattern "tall" 2). split; [reflexivity|evaluate].
Defined.

(** C7, as stated, fails: the regular font builds, the italic variant is
    resolved to a face with a 2x3 strike, its Font constructor throws the
    size mismatch, and so does the Fontpack constructor. *)
Lemma variant_build_failure_is_fatal :
  Font_Regular Samples.library Samples.env (Samples.pattern "regular" 2)
    = Ok Samples.regular_font ∧
  matchFont Samples.fontconfig
    (italic_request {| name := "regular"; dpi := None; slant := None; weight := None |})
    = Some (Samples.pattern "tall" 2) ∧
  Font_Overlay Samples.library Samples.env (Samples.pattern "tall" 2)
    Samples.regular_font = Throw (Size_mismatch_py 2 3) ∧
  Fontpack_ctor Samples.fontconfig Samples.library Samples.env 0 "regular" "" =
  Throw (Size_mismatch_py 2 3).
Proof. repeat (split; [evaluate|]). evaluate. Qed.
(* ===================================================================== *)
(** ** Further properties of the build *)
(* ===================================================================== *)

(* --------------------------------------------------------------------- *)
(** *** The geometry loop *)

(** The last step of the loop was needed. *)
Lemma grow_grid_tight fuel n px py nx ny nx' ny' :
  grow_grid fuel n px py nx ny = Some (nx', ny') →
  (nx', ny') = (nx, ny) ∨ (nx' - 1) * ny' < n ∨ nx' * (ny' - 1) < n.
Proof.
  revert nx ny. induction fuel as [|fuel IH]; intros nx ny; simpl.
  - destruct (nx * ny <? n); [discriminate|]. intros [= <- <-]. left. reflexivity.
  - destruct (nx * ny <? n) eqn:E; [|intros [= <- <-]; left; reflexivity].
    apply Z.ltb_lt in E.
    destruct (px * nx <? py * ny); intros H; apply IH in H;
      destruct H as [ [= -> ->] | H]; right.
    + left. replace (nx + 1 - 1) with nx by lia. exact E.
    + exact H.
    + right. replace (ny + 1 - 1) with ny by lia. exact E.
    + exact H.
Qed.

(** The loop keeps the two pixel extents within one cell of each other,
    once a side has been widened. *)
Lemma grow_grid_balanced fuel n px py nx0 ny0 nx ny nx' ny' :
  0 <= px → 0 <= py →
  (nx = nx0 ∨ px * (nx - 1) < py * ny) → (ny = ny0 ∨ py * (ny - 1) <= px * nx) →
  nx0 <= nx → ny0 <= ny →
  grow_grid fuel n px py nx ny = Some (nx', ny') →
  (nx' = nx0 ∨ px * (nx' - 1) < py * ny') ∧ (ny' = ny0 ∨ py * (ny' - 1) <= px * nx').
Proof.
  intros Hpx Hpy. revert nx ny.
  induction fuel as [|fuel IH]; intros nx ny Hx Hy Hx0 Hy0; simpl.
  - destruct (nx * ny <? n); [discriminate|]. intros [= <- <-]. auto.
  - destruct (nx * ny <? n); [|intros [= <- <-]; auto].
    destruct (px * nx <? py * ny) eqn:C.
    + apply Z.ltb_lt in C. apply IH; [| |lia|lia].
      * right. replace (nx + 1 - 1) with nx by lia. exact C.
      * destruct Hy as [Hy|Hy]; [left; exact Hy|right; nia].
    + apply Z.ltb_ge in C. apply IH; [| |lia|lia].
      * destruct Hx as [Hx|Hx]; [left; exact Hx|right; nia].
      * right. replace (ny + 1 - 1) with ny by lia. exact C.
Qed.

(** A non-overlay build, up to the rasterisation pass. *)
Lemma nonoverlay_build_inv ft env font f0 f :
  overlay f0 = false → load ft env font f0 = Ok f →
  ∃ face f1 f2 cols rws,
    FT_New_Face ft (file font) = Some face ∧
    sizing face (pixel_size font) (set_render_mode (render_mode_of font) f0) = Ok f1 ∧
    overlay f1 = false ∧
    atlas_geometry (count_glyphs env (dwidth f0) (charcodes face) 0) (px f1) (py f1)
      = Some (cols, rws) ∧
    cols <= 255 ∧ rws <= 255 ∧
    f2 = set_atlasBuf
           (resize (Z.to_nat (u32 (bytes_per_pixel * cols * px f1 * rws * py f1))) 0
                   (atlasBuf f1))
           (set_grid cols rws f1) ∧
    load_glyphs env face (charcodes face) f2 = Ok f ∧
    same_geometry f2 f.
Proof.
  intros Hov0 Hload.
  apply load_inv in Hload as (face & f1 & f2 & Hface & Hsz & Halloc & Hpass).
  pose proof (sizing_inv _ _ _ _ Hsz) as (Hov1 & _).
  simpl in Hov1. rewrite Hov0 in Hov1. rewrite Hov1 in Halloc.
  unfold allocate_atlas, plan_atlas in Halloc.
  destruct (atlas_geometry _ (px f1) (py f1)) as [ [cols rws]|] eqn:Egeo; [|discriminate].
  destruct ((255 <? cols) || (255 <? rws)) eqn:Ebig; [discriminate|].
  simpl in Halloc. apply Ok_inj in Halloc.
  apply orb_false_elim in Ebig as [Ec Er].
  apply Z.ltb_ge in Ec. apply Z.ltb_ge in Er.
  exists face, f1, f2, cols, rws.
  split; [exact Hface|]. split; [exact Hsz|]. split; [exact Hov1|].
  split; [exact Egeo|]. split; [exact Ec|]. split; [exact Er|].
  split; [symmetry; exact Halloc|]. split; [exact Hpass|].
  apply (load_glyphs_primary_seq env face (charcodes face) f2 f); [|exact Hpass].
  subst f2. exact Hov1.
Qed.

(** X1: the grid of a built primary or double-width font is tight: with
    one column less, or one row less, the glyphs and the blank cell would
    not fit. *)
Theorem atlas_grid_is_tight
    (ft : FT_Library) (env : CharEnv) (font : FcPattern) (f0 f : Font)
    (face : FT_Face) :
  overlay f0 = false → load ft env font f0 = Ok f →
  FT_New_Face ft (file font) = Some face →
  0 < px f → 0 < py f →
  let n := count_glyphs env (dwidth f0) (charcodes face) 0 + 1 in
  n * px f * py f < 2 ^ 32 →
  n <= nx f * ny f ∧
  ((nx f - 1) * ny f < n ∨ nx f * (ny f - 1) < n).
Proof.
  intros Hov0 Hload Hface Hpx Hpy n Hfit.
  destruct (nonoverlay_build_inv _ _ _ _ _ Hov0 Hload)
    as (face' & f1 & f2 & cols & rws & Hface' & _ & _ & Hgeo & _ & _ & Hf2 & _ & Hsame).
  rewrite Hface in Hface'. injection Hface' as <-.
  destruct Hsame as (_ & _ & Hpxf & Hpyf & _ & Hnxf & Hnyf & _).
  subst f2. simpl in Hpxf, Hpyf, Hnxf, Hnyf.
  rewrite Hnxf, Hnyf. rewrite Hpxf in *. rewrite Hpyf in *.
  unfold atlas_geometry, atlas_start in Hgeo. fold n in Hgeo.
  rewrite (u32_small (n * px f1 * py f1)) in Hgeo
    by (pose proof (count_glyphs_nonneg env (dwidth f0) (charcodes face)); subst n; nia).
  pose proof (count_glyphs_nonneg env (dwidth f0) (charcodes face)) as Hcnt.
  set (s := Z.sqrt (n * px f1 * py f1)) in *.
  assert (Hs : 0 <= s ∧ s * s <= n * px f1 * py f1).
  { split; [apply Z.sqrt_nonneg|]. apply Z.sqrt_spec. subst n. nia. }
  pose proof (grow_grid_sound _ _ _ _ _ _ _ _ Hgeo) as Hroom.
  split; [exact Hroom|].
  destruct (grow_grid_tight _ _ _ _ _ _ _ _ Hgeo) as [ [= -> ->] | H]; [|exact H].
  assert (Hqx : 0 <= s / px f1 ∧ px f1 * (s / px f1) <= s).
  { split; [apply Z.div_pos; lia|apply Z.mul_div_le; lia]. }
  assert (Hqy : 0 <= s / py f1 ∧ py f1 * (s / py f1) <= s).
  { split; [apply Z.div_pos; lia|apply Z.mul_div_le; lia]. }
  assert (Hle : (s / px f1) * (s / py f1) <= n).
  { assert ((px f1 * (s / px f1)) * (py f1 * (s / py f1)) <= s * s) by nia.
    assert (((s / px f1) * (s / py f1)) * (px f1 * py f1) <= n * (px f1 * py f1)) by nia.
    apply Z.mul_le_mono_pos_r with (p := px f1 * py f1); [nia|exact H0]. }
  assert (0 < s / py f1) by (subst n; nia).
  left. nia.
Qed.

(** X2: the atlas of a built primary or double-width font is as close to
    a square as the cell size allows: its pixel width and height differ by
    at most the larger side of a cell. *)
Theorem atlas_is_nearly_square
    (ft : FT_Library) (env : CharEnv) (font : FcPattern) (f0 f : Font) :
  overlay f0 = false → load ft env font f0 = Ok f →
  0 < px f → 0 < py f →
  Z.abs (nx f * px f - ny f * py f) <= Z.max (px f) (py f).
Proof.
  intros Hov0 Hload Hpx Hpy.
  destruct (nonoverlay_build_inv _ _ _ _ _ Hov0 Hload)
    as (face & f1 & f2 & cols & rws & _ & _ & _ & Hgeo & _ & _ & Hf2 & _ & Hsame).
  destruct Hsame as (_ & _ & Hpxf & Hpyf & _ & Hnxf & Hnyf & _).
  subst f2. simpl in Hpxf, Hpyf, Hnxf, Hnyf.
  rewrite Hnxf, Hnyf. rewrite Hpxf in *. rewrite Hpyf in *.
  unfold atlas_geometry, atlas_start in Hgeo.
  set (s := Z.sqrt _) in Hgeo.
  assert (Hs : 0 <= s) by apply Z.sqrt_nonneg.
  pose proof (grow_grid_mono _ _ _ _ _ _ _ _ Hgeo) as [Hmx Hmy].
  assert (H0x : 0 <= px f1) by lia. assert (H0y : 0 <= py f1) by lia.
  destruct (grow_grid_balanced _ _ _ _ (s / px f1) (s / py f1) _ _ _ _
              H0x H0y (or_introl eq_refl) (or_introl eq_refl)
              (Z.le_refl _) (Z.le_refl _) Hgeo) as [Hbx Hby].
  assert (Hqx : px f1 * (s / px f1) <= s < px f1 * (s / px f1 + 1)).
  { split; [apply Z.mul_div_le; lia|].
    pose proof (Z.mul_succ_div_gt s (px f1) ltac:(lia)). lia. }
  assert (Hqy : py f1 * (s / py f1) <= s < py f1 * (s / py f1 + 1)).
  { split; [apply Z.mul_div_le; lia|].
    pose proof (Z.mul_succ_div_gt s (py f1) ltac:(lia)). lia. }
  apply Z.abs_le. split.
  - destruct Hby as [-> | Hby]; nia.
  - destruct Hbx as [-> | Hbx]; nia.
Qed.
Lemma atlas_grid_is_tight_witness :
  7 <= nx Gallery.strikes_font * ny Gallery.strikes_font ∧
  ((nx Gallery.strikes_font - 1) * ny Gallery.strikes_font < 7 ∨
   nx Gallery.strikes_font * (ny Gallery.strikes_font - 1) < 7).
Proof.
  assert (Hov : overlay blank_Font = false) by reflexivity.
  assert (Hload : load Gallery.library Samples.env (Samples.pattern "strikes" 5)
                    blank_Font = Ok Gallery.strikes_font) by evaluate.
  assert (Hface : FT_New_Face Gallery.library (file (Samples.pattern "strikes" 5))
                  = Some Gallery.strikes_face) by evaluate.
  assert (Hpx : 0 < px Gallery.strikes_font) by evaluate.
  assert (Hpy : 0 < py Gallery.strikes_font) by evaluate.
  assert (Hsmall :
    (count_glyphs Samples.env (dwidth blank_Font) (charcodes Gallery.strikes_face) 0 + 1)
    * px Gallery.strikes_font * py Gallery.strikes_font < 2 ^ 32) by evaluate.
  exact (atlas_grid_is_tight _ _ _ _ _ _ Hov Hload Hface Hpx Hpy Hsmall).
Defined.

Lemma atlas_is_nearly_square_witness :
  Z.abs (nx Gallery.strikes_font * px Gallery.strikes_font
         - ny Gallery.strikes_font * py Gallery.strikes_font)
  <= Z.max (px Gallery.strikes_font) (py Gallery.strikes_font).
Proof.
  assert (Hov : overlay blank_Font = false) by reflexivity.
  assert (Hload : load Gallery.library Samples.env (Samples.pattern "strikes" 5)
                    blank_Font = Ok Gallery.strikes_font) by evaluate.
  assert (Hpx : 0 < px Gallery.strikes_font) by evaluate.
  assert (Hpy : 0 < py Gallery.strikes_font) by evaluate.
  exact (atlas_is_nearly_square _ _ _ _ _ Hov Hload Hpx Hpy).
Defined.
(* --------------------------------------------------------------------- *)
(** *** Sizing *)

(** The scan returns its initial pair, or the index of a strike whose
    height difference is the least of all, the first such strike. *)
Lemma best_size_spec ps sizes i bi bd bi' bd' :
  best_size ps sizes i bi bd = (bi', bd') →
  bd' <= bd ∧
  (∀ s, In s sizes → bd' <= height_diff ps s) ∧
  ((bi', bd') = (bi, bd) ∨
   ∃ k s, nth_error sizes k = Some s ∧ bi' = i + Z.of_nat k ∧
          bd' = height_diff ps s ∧ bd' < bd ∧
          ∀ k' s', (k' < k)%nat → nth_error sizes k' = Some s' →
                   bd' < height_diff ps s').
Proof.
  revert i bi bd. induction sizes as [|s0 sizes IH]; intros i bi bd; simpl.
  - intros [= <- <-]. split; [lia|]. split; [intros s []|]. left. reflexivity.
  - fold (height_diff ps s0).
    destruct (height_diff ps s0 <? bd) eqn:E; intros H; apply IH in H;
      destruct H as (Hle & Hmin & Hsel).
    + apply Z.ltb_lt in E. split; [lia|]. split.
      * intros s [<-|Hin]; [exact Hle|apply Hmin; exact Hin].
      * right. destruct Hsel as [ [= -> ->] | (k & s & Hk & -> & Hd & Hlt & Hfirst)].
        -- exists 0%nat, s0. repeat split; try reflexivity; try lia.
        -- exists (S k), s. split; [exact Hk|]. split; [lia|]. split; [exact Hd|].
           split; [lia|]. intros [|k'] s' Hk' Hs'; simpl in Hs'.
           ++ injection Hs' as <-. lia.
           ++ apply (Hfirst k'); [lia|exact Hs'].
    + apply Z.ltb_ge in E. split; [exact Hle|]. split.
      * intros s [<-|Hin]; [lia|apply Hmin; exact Hin].
      * destruct Hsel as [Heq | (k & s & Hk & -> & Hd & Hlt & Hfirst)]; [left; exact Heq|].
        right. exists (S k), s. split; [exact Hk|]. split; [lia|]. split; [exact Hd|].
        split; [exact Hlt|]. intros [|k'] s' Hk' Hs'; simpl in Hs'.
        -- injection Hs' as <-. lia.
        -- apply (Hfirst k'); [lia|exact Hs'].
Qed.

(** X3: among the strikes of a face [loadFixed] settles on the one whose
    height is nearest to the requested pixel size, the first of them when
    several are equally near; its index is within the strike table. *)
Theorem loadFixed_picks_nearest_strike (face : FT_Face) (pixelSize : Z) :
  available_sizes face ≠ [] →
  (∀ s, In s (available_sizes face) → height_diff pixelSize s < INT_MAX) →
  let best := best_size pixelSize (available_sizes face) 0 (-1) INT_MAX in
  ∃ k, best.1 = Z.of_nat k ∧
       nth_error (available_sizes face) k = Some (chosen_strike face pixelSize) ∧
       best.2 = height_diff pixelSize (chosen_strike face pixelSize) ∧
       (∀ s, In s (available_sizes face) →
             height_diff pixelSize (chosen_strike face pixelSize)
               <= height_diff pixelSize s) ∧
       (∀ k' s', (k' < k)%nat → nth_error (available_sizes face) k' = Some s' →
                 height_diff pixelSize (chosen_strike face pixelSize)
                   < height_diff pixelSize s').
Proof.
  intros Hne Hsmall best. unfold chosen_strike. fold best.
  destruct best as [bi bd] eqn:Ebest. subst best.
  destruct (best_size_spec _ _ _ _ _ _ _ Ebest) as (_ & Hmin & Hsel).
  destruct Hsel as [ [= -> ->] | (k & s & Hk & Hbi & Hbd & _ & Hfirst)].
  - exfalso. destruct (available_sizes face) as [|s0 rest]; [congruence|].
    specialize (Hmin s0 (or_introl eq_refl)).
    specialize (Hsmall s0 (or_introl eq_refl)). lia.
  - subst bi. cbn [fst snd].
    assert (Hstrike : strike_at face (Z.of_nat k) = s).
    { unfold strike_at. rewrite Nat2Z.id. apply nth_error_nth. exact Hk. }
    rewrite Z.add_0_l. rewrite Hstrike. exists k. split; [reflexivity|]. split; [exact Hk|].
    split; [exact Hbd|]. rewrite <- Hbd. split; [exact Hmin|exact Hfirst].
Qed.




(* --------------------------------------------------------------------- *)
(** *** The buffer through the rasterisation pass *)

Lemma loadFace_at_length face c apos f f' :
  loadFace_at face c apos f = Ok f' → length (atlasBuf f') = length (atlasBuf f).
Proof.
  intros H. apply loadFace_at_inv in H as (_ & _ & _ & [-> | (_ & g & ws & _ & _ & ->)]).
  - reflexivity.
  - apply length_commit.
Qed.

(** No store resizes the buffer. *)
Lemma load_glyphs_length env face cs f f' :
  load_glyphs env face cs f = Ok f' → length (atlasBuf f') = length (atlasBuf f).
Proof.
  revert f. induction cs as [|a cs IH]; intros f Hload.
  - apply Ok_inj in Hload. subst f'. reflexivity.
  - apply load_glyphs_cons in Hload as (f1 & Hrest & Hstep).
    rewrite (IH _ Hrest).
    destruct (isLoadableChar env (dwidth f) a).
    + destruct (overlay f).
      * destruct (atlasMap f !! a) as [apos|].
        -- apply (loadFace_at_length _ _ _ _ _ Hstep).
        -- apply Ok_inj in Hstep. subst f1. reflexivity.
      * apply loadFace_inv in Hstep as (f2 & Hat & ->). simpl.
        apply (loadFace_at_length _ _ _ _ _ Hat).
    + apply Ok_inj in Hstep. subst f1. reflexivity.
Qed.

(* --------------------------------------------------------------------- *)
(** *** Geometry of the variants *)

Lemma doublewidth_build_size ft env font priFont f :
  Font_DoubleWidth ft env font priFont = Ok f →
  px f = 2 * px priFont ∧ py f = py priFont ∧
  dwidth f = true ∧ overlay f = false.
Proof.
  unfold Font_DoubleWidth. intros Hload.
  destruct (nonoverlay_build_inv ft env font (doublewidth_members priFont) f eq_refl Hload)
    as (face & f1 & f2 & cols & rws & _ & Hsz & _ & _ & _ & _ & Hf2 & _ & Hsame).
  apply sizing_inv in Hsz as (Hov1 & Hdw1 & _ & _ & _ & _ & _ & _ & _ & Hkeep).
  simpl in Hov1, Hdw1, Hkeep. destruct (Hkeep eq_refl) as [Hpx1 Hpy1].
  destruct Hsame as (Hovf & Hdwf & Hpxf & Hpyf & _).
  subst f2. simpl in Hovf, Hdwf, Hpxf, Hpyf.
  repeat split; congruence.
Qed.

(** X5: a double-width font that is built has cells twice as wide and
    exactly as high as the primary font's, whichever path sized it. *)
Theorem doublewidth_cell_size
    (ft : FT_Library) (env : CharEnv) (font : FcPattern) (priFont f : Font) :
  Font_DoubleWidth ft env font priFont = Ok f →
  px f = 2 * px priFont ∧ py f = py priFont ∧
  dwidth f = true ∧ overlay f = false.
Proof. apply doublewidth_build_size. Qed.

Lemma overlay_build_geometry ft env font priFont f :
  Font_Overlay ft env font priFont = Ok f →
  px f = px priFont ∧ py f = py priFont ∧ baseline f = baseline priFont ∧
  nx f = nx priFont ∧ ny f = ny priFont ∧
  atlasMap f = atlasMap priFont ∧
  length (atlasBuf f) = length (atlasBuf priFont) ∧
  overlay f = true.
Proof.
  unfold Font_Overlay. intros Hload.
  apply load_inv in Hload as (face & f1 & f2 & _ & Hsz & Hf2 & Hpass).
  apply sizing_inv in Hsz
    as (Hov1 & _ & Hnx1 & Hny1 & Hbuf1 & Hmap1 & _ & _ & Hkeep & _).
  simpl in Hov1, Hnx1, Hny1, Hbuf1, Hmap1, Hkeep.
  destruct (Hkeep eq_refl) as (Hpx1 & Hpy1 & Hb1).
  rewrite Hov1 in Hf2. subst f2.
  pose proof (load_glyphs_length _ _ _ _ _ Hpass) as Hlen.
  apply load_glyphs_overlay_inv in Hpass as (Hgeo & Hmap & _); [|exact Hov1].
  destruct Hgeo as (Hovf & _ & Hpxf & Hpyf & Hbf & Hnxf & Hnyf & _).
  repeat split; congruence.
Qed.

(** X6: an overlay font that is built has the primary font's cell size,
    baseline, grid and atlas map, and a buffer of the same size: it only
    rewrites pixels. *)
Theorem overlay_shares_primary_geometry
    (ft : FT_Library) (env : CharEnv) (font : FcPattern) (priFont f : Font) :
  Font_Overlay ft env font priFont = Ok f →
  px f = px priFont ∧ py f = py priFont ∧ baseline f = baseline priFont ∧
  nx f = nx priFont ∧ ny f = ny priFont ∧
  atlasMap f = atlasMap priFont ∧
  length (atlasBuf f) = length (atlasBuf priFont) ∧
  overlay f = true.
Proof. apply overlay_build_geometry. Qed.

Lemma loadFixed_picks_nearest_strike_witness :
  ∃ k, (best_size 5 (available_sizes Gallery.strikes_face) 0 (-1) INT_MAX).1 = Z.of_nat k ∧
       nth_error (available_sizes Gallery.strikes_face) k
         = Some (chosen_strike Gallery.strikes_face 5) ∧
       chosen_strike Gallery.strikes_face 5 = {| size_width := 2; size_height := 4 |}.
Proof.
  assert (Hne : available_sizes Gallery.strikes_face ≠ []) by discriminate.
  assert (Hlt : ∀ s, In s (available_sizes Gallery.strikes_face) →
                     height_diff 5 s < INT_MAX).
  { intros s [<- | [<- | [<- | [<- | [] ] ] ] ]; evaluate. }
  destruct (loadFixed_picks_nearest_strike Gallery.strikes_face 5 Hne Hlt)
    as (k & Hk & Hnth & _).
  exists k. split; [exact Hk|]. split; [exact Hnth|]. evaluate.
Defined.


Lemma doublewidth_cell_size_witness :
  px Samples.wide_font = 2 * px Samples.regular_font ∧
  py Samples.wide_font = py Samples.regular_font ∧
  dwidth Samples.wide_font = true ∧ overlay Samples.wide_font = false.
Proof.
  assert (Hload : Font_DoubleWidth Samples.library Samples.env (Samples.pattern "wide" 2)
                    Samples.regular_font = Ok Samples.wide_font) by evaluate.
  exact (doublewidth_cell_size _ _ _ _ _ Hload).
Defined.

Lemma overlay_shares_primary_geometry_witness :
  px Samples.italic_font = px Samples.regular_font ∧
  py Samples.italic_font = py Samples.regular_font ∧
  baseline Samples.italic_font = baseline Samples.regular_font ∧
  nx Samples.italic_font = nx Samples.regular_font ∧
  ny Samples.italic_font = ny Samples.regular_font ∧
  atlasMap Samples.italic_font = atlasMap Samples.regular_font ∧
  length (atlasBuf Samples.italic_font) = length (atlasBuf Samples.regular_font) ∧
  overlay Samples.italic_font = true.
Proof.
  assert (Hload : Font_Overlay Samples.library Samples.env (Samples.pattern "italic" 2)
                    Samples.regular_font = Ok Samples.italic_font) by evaluate.
  exact (overlay_shares_primary_geometry _ _ _ _ _ Hload).
Defined.

(* --------------------------------------------------------------------- *)
(** *** The atlas buffer *)

(** No store resizes the buffer the allocation made. *)
Lemma nonoverlay_buffer_length ft env font f0 f :
  overlay f0 = false → load ft env font f0 = Ok f →
  Z.of_nat (length (atlasBuf f)) = u32 (atlas_bytes f).
Proof.
  intros Hov Hload.
  destruct (nonoverlay_build_inv _ _ _ _ _ Hov Hload)
    as (face & f1 & f2 & cols & rws & _ & _ & _ & _ & _ & _ & Hf2 & Hpass & Hsame).
  rewrite (load_glyphs_length _ _ _ _ _ Hpass).
  destruct Hsame as (_ & _ & Hpx & Hpy & _ & Hnx & Hny & _).
  unfold atlas_bytes. rewrite Hpx, Hpy, Hnx, Hny. subst f2. simpl.
  rewrite length_resize. rewrite Z2Nat.id by apply u32_nonneg. reflexivity.
Qed.

(** X7: the atlas buffer of a primary or double-width font has exactly
    [bytes_per_pixel·nx·px·ny·py] bytes, the product taken in
    [unsigned int]: it is sized once and no store resizes it. *)
Theorem atlas_buffer_size
    (ft : FT_Library) (env : CharEnv) (font : FcPattern) (f0 f : Font) :
  overlay f0 = false → load ft env font f0 = Ok f →
  Z.of_nat (length (atlasBuf f)) = u32 (atlas_bytes f).
Proof. apply nonoverlay_buffer_length. Qed.

Lemma atlas_buffer_size_witness :
  Z.of_nat (length (atlasBuf Gallery.strikes_font)) = 4 * 4 * 2 * 2 * 4.
Proof.
  assert (Hov : overlay blank_Font = false) by reflexivity.
  assert (Hload : load Gallery.library Samples.env (Samples.pattern "strikes" 5)
                    blank_Font = Ok Gallery.strikes_font) by evaluate.
  exact (atlas_buffer_size _ _ _ _ _ Hov Hload).
Defined.

Lemma alpha_clear_nil : alpha_clear [].
Proof. intros i v H. rewrite lookup_nil in H. discriminate. Qed.

Lemma alpha_clear_poke buf o v :
  alpha_clear buf → (o mod 4 = 3 → v = 0) → alpha_clear (poke buf (o, v)).
Proof.
  intros Hbuf Hv i v'. unfold poke. simpl.
  destruct (o <? 0) eqn:Eo; [apply Hbuf|]. apply Z.ltb_ge in Eo.
  rewrite list_lookup_insert_Some. intros [(Hi & Hvv & _) | (_ & Hl)] Hmod.
  - subst i v'. rewrite Z2Nat.id in Hmod by exact Eo. auto.
  - apply (Hbuf _ _ Hl Hmod).
Qed.

Lemma alpha_clear_commit ws buf :
  alpha_clear buf → (∀ o v, In (o, v) ws → o mod 4 = 3 → v = 0) →
  alpha_clear (commit ws buf).
Proof.
  unfold commit. revert buf. induction ws as [| [o v] ws IH]; intros buf Hbuf Hws; simpl.
  - exact Hbuf.
  - apply IH.
    + apply alpha_clear_poke; [exact Hbuf|]. apply Hws. left. reflexivity.
    + intros o' v' Hin. apply Hws. right. exact Hin.
Qed.

Lemma alpha_clear_resize n buf : alpha_clear buf → alpha_clear (resize n 0 buf).
Proof.
  intros Hbuf i v Hl Hmod.
  destruct (decide (i < n)%nat) as [Hin|Hout].
  - destruct (decide (i < length buf)%nat) as [Hold|Hnew].
    + rewrite lookup_resize in Hl by assumption. apply (Hbuf _ _ Hl Hmod).
    + rewrite lookup_resize_new in Hl by lia. congruence.
  - rewrite lookup_resize_old in Hl by lia. discriminate.
Qed.

(** The decoders step over the fourth byte of each pixel, and the overlay
    clearing stores zeros. *)
Lemma glyph_stores_alpha f g apos ws o v :
  glyph_stores f g apos = Ok ws → In (o, v) ws → o mod 4 = 3 → v = 0.
Proof.
  unfold glyph_stores.
  destruct (decode_stores f g apos) as [ws'| |] eqn:Edec; simpl; try discriminate.
  intros H. apply Ok_inj in H. subst ws. rewrite in_app_iff. intros [Hin | Hin] Hmod.
  - apply in_clear_stores in Hin as [-> _]. reflexivity.
  - apply (in_decode_stores _ _ _ _ _ _ Edec) in Hin
      as (j & k & i & _ & _ & Hi & -> & _).
    exfalso. revert Hmod.
    unfold pixel_offset, atlas_write_offset, atlas_glyph_offset, bytes_per_pixel.
    set (c := clip f g).
    replace (y apos * (4 * nx f * px f * py f) + 4 * x apos * px f
             + 4 * (nx f * px f * dy c + dx c) + 4 * j * nx f * px f + 4 * k + i)
      with (i + (y apos * (nx f * px f * py f) + x apos * px f
                 + (nx f * px f * dy c + dx c) + j * nx f * px f + k) * 4) by ring.
    rewrite Z.mod_add by lia. rewrite Z.mod_small by lia. lia.
Qed.

Lemma loadFace_at_alpha face c apos f f' :
  loadFace_at face c apos f = Ok f' →
  alpha_clear (atlasBuf f) → alpha_clear (atlasBuf f').
Proof.
  intros H Hbuf.
  apply loadFace_at_inv in H as (_ & _ & _ & [-> | (_ & g & ws & _ & Hws & ->)]).
  - exact Hbuf.
  - apply alpha_clear_commit; [exact Hbuf|].
    intros o v. apply (glyph_stores_alpha _ _ _ _ _ _ Hws).
Qed.

Lemma load_glyphs_alpha env face cs f f' :
  load_glyphs env face cs f = Ok f' →
  alpha_clear (atlasBuf f) → alpha_clear (atlasBuf f').
Proof.
  revert f. induction cs as [|a cs IH]; intros f Hload Hbuf.
  - apply Ok_inj in Hload. subst f'. exact Hbuf.
  - apply load_glyphs_cons in Hload as (f1 & Hrest & Hstep).
    apply (IH _ Hrest).
    destruct (isLoadableChar env (dwidth f) a).
    + destruct (overlay f).
      * destruct (atlasMap f !! a) as [apos|].
        -- apply (loadFace_at_alpha _ _ _ _ _ Hstep Hbuf).
        -- apply Ok_inj in Hstep. subst f1. exact Hbuf.
      * apply loadFace_inv in Hstep as (f2 & Hat & ->). simpl.
        apply (loadFace_at_alpha _ _ _ _ _ Hat Hbuf).
    + apply Ok_inj in Hstep. subst f1. exact Hbuf.
Qed.

Lemma load_alpha_clear ft env font f0 f :
  load ft env font f0 = Ok f → alpha_clear (atlasBuf f0) → alpha_clear (atlasBuf f).
Proof.
  intros Hload Hbuf.
  apply load_inv in Hload as (face & f1 & f2 & _ & Hsz & Halloc & Hpass).
  apply sizing_inv in Hsz as (_ & _ & _ & _ & Hbuf1 & _).
  simpl in Hbuf1. apply (load_glyphs_alpha _ _ _ _ _ Hpass).
  destruct (overlay f1).
  - subst f2. rewrite Hbuf1. exact Hbuf.
  - unfold allocate_atlas in Halloc.
    destruct (plan_atlas _ (px f1) (py f1)) as [g| |]; try discriminate.
    simpl in Halloc. apply Ok_inj in Halloc. subst f2. simpl.
    apply alpha_clear_resize. rewrite Hbuf1. exact Hbuf.
Qed.

(** X8: the fourth byte of every pixel of the atlas is zero.  It is in
    every primary and double-width font that is built, and an overlay
    keeps it so: no decoder stores to that byte and the clearing stores
    zeros. *)
Theorem alpha_channel_stays_zero
    (ft : FT_Library) (env : CharEnv) (font : FcPattern) (f : Font) :
  (Font_Regular ft env font = Ok f → alpha_clear (atlasBuf f)) ∧
  (∀ priFont, Font_DoubleWidth ft env font priFont = Ok f → alpha_clear (atlasBuf f)) ∧
  (∀ priFont, alpha_clear (atlasBuf priFont) →
              Font_Overlay ft env font priFont = Ok f → alpha_clear (atlasBuf f)).
Proof.
  split; [|split].
  - intros H. apply (load_alpha_clear _ _ _ _ _ H). apply alpha_clear_nil.
  - intros pri H. apply (load_alpha_clear _ _ _ _ _ H). apply alpha_clear_nil.
  - intros pri Hpri H. apply (load_alpha_clear _ _ _ _ _ H). exact Hpri.
Qed.

Lemma alpha_channel_stays_zero_witness :
  alpha_clear (atlasBuf Samples.regular_font) ∧
  alpha_clear (atlasBuf Samples.wide_font) ∧
  alpha_clear (atlasBuf Samples.italic_font).
Proof.
  assert (Hreg : Font_Regular Samples.library Samples.env (Samples.pattern "regular" 2)
                 = Ok Samples.regular_font) by evaluate.
  assert (Hdw : Font_DoubleWidth Samples.library Samples.env (Samples.pattern "wide" 2)
                  Samples.regular_font = Ok Samples.wide_font) by evaluate.
  assert (Hit : Font_Overlay Samples.library Samples.env (Samples.pattern "italic" 2)
                  Samples.regular_font = Ok Samples.italic_font) by evaluate.
  pose proof (proj1 (alpha_channel_stays_zero _ _ _ _) Hreg) as Hareg.
  split; [exact Hareg|]. split.
  - exact (proj1 (proj2 (alpha_channel_stays_zero _ _ _ _)) _ Hdw).
  - exact (proj2 (proj2 (alpha_channel_stays_zero _ _ _ _)) _ Hareg Hit).
Defined.

(* --------------------------------------------------------------------- *)
(** *** Code points outside the Basic Multilingual Plane *)

Lemma loadFace_at_skip face c apos f f' :
  loadFace_at face c apos f = Ok f' →
  loadSkipCount f' = loadSkipCount f + (if 65535 <? c then 1 else 0).
Proof.
  unfold loadFace_at. destruct (65535 <? c).
  - intros H. apply Ok_inj in H. subst f'. reflexivity.
  - destruct (FT_Load_Char face (glyph_render_mode f) c) as [| |g].
    + intros H. apply Ok_inj in H. subst f'. lia.
    + intros H. apply Ok_inj in H. subst f'. lia.
    + destruct (glyph_stores f g apos) as [ws| |]; simpl; try discriminate.
      intros H. apply Ok_inj in H. subst f'. simpl. lia.
Qed.

Lemma count_skipped_cons env dw c cs :
  count_skipped env dw (c :: cs) =
  (if isLoadableChar env dw c && (65535 <? c) then 1 else 0) + count_skipped env dw cs.
Proof.
  unfold count_skipped. simpl.
  destruct (isLoadableChar env dw c && (65535 <? c)); simpl; lia.
Qed.

Lemma load_glyphs_skip env face cs f f' :
  overlay f = false → load_glyphs env face cs f = Ok f' →
  loadSkipCount f' = loadSkipCount f + count_skipped env (dwidth f) cs.
Proof.
  revert f. induction cs as [|a cs IH]; intros f Hov Hload.
  - apply Ok_inj in Hload. subst f'. unfold count_skipped. simpl. lia.
  - apply load_glyphs_cons in Hload as (f1 & Hrest & Hstep).
    rewrite Hov in Hstep. rewrite count_skipped_cons.
    destruct (isLoadableChar env (dwidth f) a) eqn:Eload; simpl.
    + apply loadFace_inv in Hstep as (f2 & Hat & ->).
      pose proof (loadFace_at_skip _ _ _ _ _ Hat) as Hskip.
      apply loadFace_at_inv in Hat as ((Hov2 & Hdw2 & _) & _).
      assert (Hov' : overlay (record_glyph a (next_pos f) f2) = false)
        by (simpl; congruence).
      rewrite (IH _ Hov' Hrest). simpl. rewrite Hdw2, Hskip. lia.
    + apply Ok_inj in Hstep. subst f1. rewrite (IH _ Hov Hrest). lia.
Qed.

Lemma loadScaled_skip face ps f f' :
  loadScaled face ps f = Ok f' → loadSkipCount f' = loadSkipCount f.
Proof.
  unfold loadScaled. destruct (negb (FT_Set_Pixel_Sizes face ps)); [discriminate|].
  intros H. apply Ok_inj in H. subst f'.
  destruct (overlay f) eqn:Eo; destruct (dwidth f) eqn:Ed; simpl; rewrite ?Eo; reflexivity.
Qed.

Lemma sizing_skip face ps f f' :
  sizing face ps f = Ok f' → loadSkipCount f' = loadSkipCount f.
Proof.
  unfold sizing. destruct (0 <? num_fixed_sizes face); [|apply loadScaled_skip].
  unfold loadFixed.
  destruct (best_size ps (available_sizes face) 0 (-1) INT_MAX) as [bestIdx bestHeightDiff].
  destruct ((1 <? bestHeightDiff) && (0 <? units_per_EM face)); [apply loadScaled_skip|].
  destruct (overlay f) eqn:Eo; destruct (dwidth f) eqn:Ed; simpl;
    repeat match goal with
           | |- context [negb (?a =? ?b)] => destruct (a =? b); simpl
           | |- context [negb (FT_Set_Pixel_Sizes ?a ?b)] =>
               destruct (FT_Set_Pixel_Sizes a b); simpl
           | |- context [overlay ?g] => rewrite Eo; simpl
           end;
    try discriminate;
    intros H; apply Ok_inj in H; subst f'; reflexivity.
Qed.

(** X9: after a primary or double-width build [loadSkipCount] is the
    number of loadable code points of the enumeration above 0xFFFF: each
    is counted, none is rasterised, and nothing else is counted. *)
Theorem skipped_code_points_counted
    (ft : FT_Library) (env : CharEnv) (font : FcPattern) (f0 f : Font)
    (face : FT_Face) :
  f0 = blank_Font ∨ (∃ priFont, f0 = doublewidth_members priFont) →
  load ft env font f0 = Ok f → FT_New_Face ft (file font) = Some face →
  loadSkipCount f = count_skipped env (dwidth f0) (charcodes face).
Proof.
  intros Hf0 Hload Hface.
  assert (Hov0 : overlay f0 = false) by (destruct Hf0 as [-> | [p ->] ]; reflexivity).
  assert (Hskip0 : loadSkipCount f0 = 0) by (destruct Hf0 as [-> | [p ->] ]; reflexivity).
  destruct (nonoverlay_build_inv _ _ _ _ _ Hov0 Hload)
    as (face' & f1 & f2 & cols & rws & Hface' & Hsz & Hov1 & _ & _ & _ & Hf2 & Hpass & _).
  rewrite Hface in Hface'. apply (inj Some) in Hface'. subst face'.
  pose proof (sizing_skip _ _ _ _ Hsz) as Hskip1. simpl in Hskip1.
  apply sizing_inv in Hsz as (_ & Hdw1 & _). simpl in Hdw1.
  assert (Hov2 : overlay f2 = false) by (subst f2; exact Hov1).
  rewrite (load_glyphs_skip _ _ _ _ _ Hov2 Hpass).
  subst f2. simpl. rewrite Hskip1, Hskip0, Hdw1. lia.
Qed.

Lemma skipped_code_points_counted_witness :
  loadSkipCount Gallery.strikes_font = 1.
Proof.
  assert (Hload : load Gallery.library Samples.env (Samples.pattern "strikes" 5)
                    blank_Font = Ok Gallery.strikes_font) by evaluate.
  assert (Hface : FT_New_Face Gallery.library (file (Samples.pattern "strikes" 5))
                  = Some Gallery.strikes_face) by evaluate.
  exact (skipped_code_points_counted _ _ _ _ _ _ (or_introl eq_refl) Hload Hface).
Defined.

(* --------------------------------------------------------------------- *)
(** *** Failures of a build *)

(** The rasterisation pass has one fatal error only: a failure to load or
    render a glyph and a code point above 0xFFFF end the glyph, not the
    pass. *)
Lemma loadFace_at_handled face c apos f :
  all_handled face → ∃ f', loadFace_at face c apos f = Ok f'.
Proof.
  intros Hall. unfold loadFace_at. destruct (65535 <? c); [eauto|].
  destruct (FT_Load_Char face (glyph_render_mode f) c) as [| |g] eqn:Eload; [eauto|eauto|].
  unfold glyph_stores. rewrite (decode_stores_closed _ _ _ (Hall _ _ _ Eload)). simpl. eauto.
Qed.

Lemma load_glyphs_handled env face cs f :
  all_handled face → ∃ f', load_glyphs env face cs f = Ok f'.
Proof.
  intros Hall. revert f. induction cs as [|a cs IH]; intros f; simpl; [eauto|].
  destruct (isLoadableChar env (dwidth f) a); simpl; [|apply IH].
  destruct (overlay f).
  - destruct (atlasMap f !! a) as [apos|]; [|simpl; apply IH].
    destruct (loadFace_at_handled face a apos f Hall) as [f1 ->]. simpl. apply IH.
  - unfold loadFace. destruct (loadFace_at_handled face a (next_pos f) f Hall) as [f1 ->].
    simpl. apply IH.
Qed.

Lemma loadFixed_throw face ps f e :
  loadFixed face ps f = Throw e →
  e = Could_not_set_pixel_sizes ∨
  (overlay f || dwidth f = true ∧
   (1 <? (best_size ps (available_sizes face) 0 (-1) INT_MAX).2)
     && (0 <? units_per_EM face) = false ∧
   (e = Size_mismatch_px (px f) (size_width (chosen_strike face ps)) ∨
    e = Size_mismatch_py (py f) (size_height (chosen_strike face ps)))).
Proof.
  unfold loadFixed, chosen_strike.
  destruct (best_size ps (available_sizes face) 0 (-1) INT_MAX) as [bestIdx bestHeightDiff].
  cbn [fst snd].
  destruct ((1 <? bestHeightDiff) && (0 <? units_per_EM face)).
  { intros H. left. apply (loadScaled_throw _ _ _ _ H). }
  destruct (overlay f || dwidth f) eqn:Eod; simpl.
  - destruct (px f =? size_width (strike_at face bestIdx)); simpl.
    + destruct (py f =? size_height (strike_at face bestIdx)); simpl.
      * destruct (FT_Set_Pixel_Sizes face (py f)); simpl.
        -- destruct (negb (overlay f) && negb (height face =? 0)); discriminate.
        -- intros [= <-]. left. reflexivity.
      * intros [= <-]. right. auto.
    + intros [= <-]. right. auto.
  - destruct (FT_Set_Pixel_Sizes face (size_height (strike_at face bestIdx))); simpl.
    + destruct (negb (overlay f) && negb (height face =? 0)); discriminate.
    + intros [= <-]. left. reflexivity.
Qed.

Lemma sizing_throw face ps f e :
  sizing face ps f = Throw e →
  e = Could_not_set_pixel_sizes ∨
  (overlay f || dwidth f = true ∧ on_scaled_path face ps = false ∧
   (e = Size_mismatch_px (px f) (size_width (chosen_strike face ps)) ∨
    e = Size_mismatch_py (py f) (size_height (chosen_strike face ps)))).
Proof.
  unfold sizing, on_scaled_path. destruct (0 <? num_fixed_sizes face); simpl.
  - intros H. apply loadFixed_throw in H as [-> | (Hod & Hfar & He) ]; auto.
  - intros H. left. apply (loadScaled_throw _ _ _ _ H).
Qed.

(** What can go wrong in [Font::load], stage by stage. *)
Lemma load_throw ft env font f0 e :
  load ft env font f0 = Throw e →
  e = Could_not_initialize_FreeType ∨ e = Failed_to_load_font (file font) ∨
  ∃ face, FT_New_Face ft (file font) = Some face ∧
    (e = Could_not_set_pixel_sizes ∨
     (overlay f0 || dwidth f0 = true ∧ on_scaled_path face (pixel_size font) = false ∧
      (e = Size_mismatch_px (px f0) (size_width (chosen_strike face (pixel_size font))) ∨
       e = Size_mismatch_py (py f0) (size_height (chosen_strike face (pixel_size font))))) ∨
     (overlay f0 = false ∧ e = Impossible_atlas_geometry) ∨
     (¬ all_handled face ∧ ∃ m, e = Unhandled_pixel_type m)).
Proof.
  unfold load. destruct (negb (FT_Init_FreeType ft)); [intros [= <-]; auto|].
  destruct (FT_New_Face ft (file font)) as [face|]; [|intros [= <-]; auto].
  intros H. do 2 right. exists face. split; [reflexivity|]. revert H.
  destruct (sizing face (pixel_size font) (set_render_mode (render_mode_of font) f0))
    as [f1|e1|] eqn:Esz; simpl.
  - pose proof (sizing_inv _ _ _ _ Esz) as (Hov1 & _). simpl in Hov1.
    destruct (overlay f1) eqn:Eo1; simpl.
    + intros H. do 3 right.
      destruct (load_glyphs_throw _ _ _ _ _ H) as [m ->].
      split; [|exists m; reflexivity].
      intros Hall. destruct (load_glyphs_handled env face (charcodes face) f1 Hall) as [f' Hok].
      congruence.
    + destruct (allocate_atlas _ f1) as [f2|e2|] eqn:Ealloc; simpl.
      * intros H. do 3 right.
        destruct (load_glyphs_throw _ _ _ _ _ H) as [m ->].
        split; [|exists m; reflexivity].
        intros Hall.
        destruct (load_glyphs_handled env face (charcodes face) f2 Hall) as [f' Hok].
        congruence.
      * intros [= <-]. apply allocate_atlas_throw in Ealloc. subst e2.
        do 2 right. left. split; [congruence|reflexivity].
      * discriminate.
  - intros [= <-]. apply sizing_throw in Esz as [-> | Hmis]; auto.
  - discriminate.
Qed.

(** X10: a primary build can fail in five ways only: FreeType does not
    start, the file is not a usable face, the pixel size cannot be set,
    the grid does not fit byte coordinates, or a glyph comes in a pixel
    mode other than mono, gray and LCD.  It never reports a size
    mismatch, and glyphs that fail to load or render are not failures. *)
Theorem regular_build_errors
    (ft : FT_Library) (env : CharEnv) (font : FcPattern) (e : runtime_error) :
  Font_Regular ft env font = Throw e →
  e = Could_not_initialize_FreeType ∨ e = Failed_to_load_font (file font) ∨
  e = Could_not_set_pixel_sizes ∨ e = Impossible_atlas_geometry ∨
  (∃ face m, FT_New_Face ft (file font) = Some face ∧ ¬ all_handled face ∧
             e = Unhandled_pixel_type m).
Proof.
  unfold Font_Regular. intros H.
  apply load_throw in H
    as [H | [H | (face & Hface & [H | [ (H & _) | [ [_ H] | [Hall [m H] ] ] ] ]) ] ]; auto.
  - discriminate.
  - do 4 right. eauto.
Qed.

Lemma regular_build_errors_witness :
  ∃ face m, FT_New_Face Gallery.library (file (Samples.pattern "colour" 2)) = Some face ∧
            ¬ all_handled face ∧ Unhandled_pixel_type 7 = Unhandled_pixel_type m.
Proof.
  assert (H : Font_Regular Gallery.library Samples.env (Samples.pattern "colour" 2)
              = Throw (Unhandled_pixel_type 7)) by evaluate.
  destruct (regular_build_errors _ _ _ _ H) as [He | [He | [He | [He | He] ] ] ];
    [discriminate He|discriminate He|discriminate He|discriminate He|exact He].
Defined.

(** X11: an overlay build never fails for the atlas geometry, which it
    does not compute.  Beside the failures of a primary build it has the
    size mismatch, raised on the fixed-strike path only, which reports the
    primary's dimension as expected and the chosen strike's as got. *)
Theorem overlay_build_errors
    (ft : FT_Library) (env : CharEnv) (font : FcPattern) (priFont : Font)
    (e : runtime_error) :
  Font_Overlay ft env font priFont = Throw e →
  e = Could_not_initialize_FreeType ∨ e = Failed_to_load_font (file font) ∨
  ∃ face, FT_New_Face ft (file font) = Some face ∧
    (e = Could_not_set_pixel_sizes ∨
     (on_scaled_path face (pixel_size font) = false ∧
      (e = Size_mismatch_px (px priFont)
             (size_width (chosen_strike face (pixel_size font))) ∨
       e = Size_mismatch_py (py priFont)
             (size_height (chosen_strike face (pixel_size font))))) ∨
     (¬ all_handled face ∧ ∃ m, e = Unhandled_pixel_type m)).
Proof.
  unfold Font_Overlay. intros H.
  apply load_throw in H
    as [H | [H | (face & Hface & [H | [ (_ & H) | [ [H _] | H ] ] ]) ] ]; eauto 7.
  discriminate.
Qed.

Lemma overlay_build_errors_witness :
  ∃ face, FT_New_Face Samples.library (file (Samples.pattern "tall" 2)) = Some face ∧
          on_scaled_path face 2 = false ∧
          Size_mismatch_py 2 3 =
          Size_mismatch_py (py Samples.regular_font) (size_height (chosen_strike face 2)).
Proof.
  assert (H : Font_Overlay Samples.library Samples.env (Samples.pattern "tall" 2)
                Samples.regular_font = Throw (Size_mismatch_py 2 3)) by evaluate.
  destruct (overlay_build_errors _ _ _ _ _ H)
    as [He | [He | (face & Hface & [He | [ (Hpath & [He | He]) | (_ & m & He) ] ]) ] ];
    try discriminate.
  exists face. split; [exact Hface|]. split; [exact Hpath|exact He].
Defined.

(* --------------------------------------------------------------------- *)
(** *** Termination *)

Lemma loadScaled_returns face ps f : loadScaled face ps f ≠ Diverge.
Proof. unfold loadScaled. destruct (negb (FT_Set_Pixel_Sizes face ps)); discriminate. Qed.

Lemma sizing_returns face ps f : sizing face ps f ≠ Diverge.
Proof.
  unfold sizing. destruct (0 <? num_fixed_sizes face); [|apply loadScaled_returns].
  unfold loadFixed.
  destruct (best_size ps (available_sizes face) 0 (-1) INT_MAX) as [bestIdx bestHeightDiff].
  destruct ((1 <? bestHeightDiff) && (0 <? units_per_EM face)); [apply loadScaled_returns|].
  destruct (overlay f || dwidth f); simpl;
    repeat match goal with
           | |- context [negb (?a =? ?b)] => destruct (a =? b); simpl
           | |- context [negb (FT_Set_Pixel_Sizes ?a ?b)] =>
               destruct (FT_Set_Pixel_Sizes a b); simpl
           | |- context [negb (overlay ?g) && ?c] => destruct (negb (overlay g) && c); simpl
           end; discriminate.
Qed.

Lemma loadFace_at_returns face c apos f : loadFace_at face c apos f ≠ Diverge.
Proof.
  unfold loadFace_at. destruct (65535 <? c); [discriminate|].
  destruct (FT_Load_Char face (glyph_render_mode f) c) as [| |g]; try discriminate.
  unfold glyph_stores, decode_stores.
  destruct (pixel_mode (bitmap g) =? FT_PIXEL_MODE_MONO); [discriminate|].
  destruct (pixel_mode (bitmap g) =? FT_PIXEL_MODE_GRAY); [discriminate|].
  destruct (pixel_mode (bitmap g) =? FT_PIXEL_MODE_LCD); discriminate.
Qed.

Lemma load_glyphs_returns env face cs f : load_glyphs env face cs f ≠ Diverge.
Proof.
  revert f. induction cs as [|a cs IH]; intros f; simpl; [discriminate|].
  destruct (isLoadableChar env (dwidth f) a); simpl; [|apply IH].
  destruct (overlay f).
  - destruct (atlasMap f !! a) as [apos|]; [|simpl; apply IH].
    pose proof (loadFace_at_returns face a apos f).
    destruct (loadFace_at face a apos f); simpl; [apply IH|discriminate|congruence].
  - unfold loadFace. pose proof (loadFace_at_returns face a (next_pos f) f).
    destruct (loadFace_at face a (next_pos f) f); simpl; [apply IH|discriminate|congruence].
Qed.

(** The geometry loop ends for every positive cell size, whether or not
    the pixel total wrapped. *)
Lemma atlas_geometry_returns n px py :
  0 < px → 0 < py → ∃ g, atlas_geometry n px py = Some g.
Proof.
  intros Hpx Hpy. unfold atlas_geometry, atlas_start.
  destruct (grow_grid_total
              (grid_fuel (n + 1) px py (Z.sqrt (u32 ((n + 1) * px * py)) / px)
                         (Z.sqrt (u32 ((n + 1) * px * py)) / py))
              (n + 1) px py
              (Z.sqrt (u32 ((n + 1) * px * py)) / px)
              (Z.sqrt (u32 ((n + 1) * px * py)) / py) Hpx Hpy)
    as (nx' & ny' & Hrun & _).
  - apply Z.div_pos; [apply Z.sqrt_nonneg|exact Hpx].
  - apply Z.div_pos; [apply Z.sqrt_nonneg|exact Hpy].
  - lia.
  - rewrite Hrun. eauto.
Qed.

Lemma load_diverges ft env font f0 :
  load ft env font f0 = Diverge →
  ∃ face f1, FT_New_Face ft (file font) = Some face ∧
             sizing face (pixel_size font) (set_render_mode (render_mode_of font) f0)
               = Ok f1 ∧
             overlay f1 = false ∧ ¬ (0 < px f1 ∧ 0 < py f1).
Proof.
  unfold load. destruct (negb (FT_Init_FreeType ft)); [discriminate|].
  destruct (FT_New_Face ft (file font)) as [face|]; [|discriminate].
  pose proof (sizing_returns face (pixel_size font)
                (set_render_mode (render_mode_of font) f0)) as Hsz.
  destruct (sizing face (pixel_size font) (set_render_mode (render_mode_of font) f0))
    as [f1|e1|] eqn:Esz; simpl; [|discriminate|congruence].
  clear Hsz. destruct (overlay f1) eqn:Eo1; simpl.
  - intros H. destruct (load_glyphs_returns _ _ _ _ H).
  - unfold allocate_atlas, plan_atlas.
    destruct (atlas_geometry _ (px f1) (py f1)) as [ [cols rws]|] eqn:Egeo.
    + destruct ((255 <? cols) || (255 <? rws)); simpl; [discriminate|].
      intros H. destruct (load_glyphs_returns _ _ _ _ H).
    + intros _. exists face, f1.
      split; [reflexivity|]. split; [exact Esz|]. split; [exact Eo1|].
      intros [Hpx Hpy].
      destruct (atlas_geometry_returns
                  (count_glyphs env (dwidth f0) (charcodes face) 0) _ _ Hpx Hpy) as [g Hg].
      congruence.
Qed.

(** X12: the variants of a font with a positive cell size are built, or
    fail with an error, in finitely many steps: an overlay build has no
    geometry loop, and the loop of a double-width build runs on the cell
    [2·px] by [py], for which it ends. *)
Theorem variant_builds_terminate
    (ft : FT_Library) (env : CharEnv) (font : FcPattern) (priFont : Font) :
  0 < px priFont → 0 < py priFont →
  Font_Overlay ft env font priFont ≠ Diverge ∧
  Font_DoubleWidth ft env font priFont ≠ Diverge.
Proof.
  intros Hpx Hpy. split.
  - unfold Font_Overlay. intros H.
    apply load_diverges in H as (face & f1 & _ & Hsz & Hov1 & _).
    apply sizing_inv in Hsz as (Hov & _). simpl in Hov. congruence.
  - unfold Font_DoubleWidth. intros H.
    apply load_diverges in H as (face & f1 & _ & Hsz & _ & Hneg).
    apply sizing_inv in Hsz as (_ & _ & _ & _ & _ & _ & _ & _ & _ & Hkeep).
    simpl in Hkeep. destruct (Hkeep eq_refl) as [Hpx1 Hpy1]. apply Hneg. lia.
Qed.

Lemma variant_builds_terminate_witness :
  Font_Overlay Samples.library Samples.env (Samples.pattern "italic" 2)
    Samples.regular_font ≠ Diverge ∧
  Font_DoubleWidth Samples.library Samples.env (Samples.pattern "italic" 2)
    Samples.regular_font ≠ Diverge.
Proof.
  assert (Hpx : 0 < px Samples.regular_font) by evaluate.
  assert (Hpy : 0 < py Samples.regular_font) by evaluate.
  exact (variant_builds_terminate _ _ _ _ Hpx Hpy).
Defined.

(* --------------------------------------------------------------------- *)
(** *** The atlas map of a primary or double-width font *)

(** The state in which the rasterisation pass of such a build starts. *)
Lemma build_start ft env font f0 f :
  f0 = blank_Font ∨ (∃ priFont, f0 = doublewidth_members priFont) →
  load ft env font f0 = Ok f →
  ∃ face f2, FT_New_Face ft (file font) = Some face ∧
    overlay f2 = false ∧ load_glyphs env face (charcodes face) f2 = Ok f ∧
    same_geometry f2 f ∧ dwidth f2 = dwidth f0 ∧
    atlas_seq f2 = atlas_seq_init ∧ atlasMap f2 = ∅ ∧
    (∃ size, atlasBuf f2 = resize size 0 []) ∧
    (0 < px f → 0 < py f →
     0 < nx f2 <= 255 ∧ 0 < ny f2 <= 255 ∧
     atlas_seq_init + count_glyphs env (dwidth f0) (charcodes face) 0 <= nx f2 * ny f2).
Proof.
  intros Hinit Hload.
  assert (Hf0 : overlay f0 = false ∧ atlasBuf f0 = [] ∧ atlas_seq f0 = atlas_seq_init
                ∧ atlasMap f0 = ∅).
  { destruct Hinit as [-> | [pri ->] ]; repeat split; reflexivity. }
  destruct Hf0 as (Hov0 & Hbuf0 & Hseq0 & Hmap0).
  apply load_inv in Hload as (face & f1 & f2 & Hface & Hsz & Halloc & Hpass).
  apply sizing_inv in Hsz as (Hov1 & Hdw1 & _ & _ & Hbuf1 & Hmap1 & Hseq1 & _).
  simpl in Hov1, Hdw1, Hbuf1, Hmap1, Hseq1. rewrite Hov1, Hov0 in Halloc.
  pose proof (allocate_atlas_size _ _ _ Halloc) as (Hpx21 & Hpy21 & Hov21).
  assert (Hov2 : overlay f2 = false) by congruence.
  assert (Hkeep : dwidth f2 = dwidth f1 ∧ atlasMap f2 = atlasMap f1 ∧
                  atlas_seq f2 = atlas_seq f1 ∧
                  ∃ size, atlasBuf f2 = resize size 0 (atlasBuf f1)).
  { unfold allocate_atlas in Halloc. destruct (plan_atlas _ _ _); try discriminate.
    simpl in Halloc. apply Ok_inj in Halloc. subst f2. simpl. eauto. }
  destruct Hkeep as (Hdw21 & Hmap21 & Hseq21 & size & Hbuf2).
  pose proof (load_glyphs_primary_seq _ _ _ _ _ Hov2 Hpass) as [Hgeo _].
  exists face, f2. split; [exact Hface|]. split; [exact Hov2|]. split; [exact Hpass|].
  split; [exact Hgeo|]. split; [congruence|]. split; [congruence|]. split; [congruence|].
  split; [exists size; rewrite Hbuf2, Hbuf1, Hbuf0; reflexivity|].
  intros Hpx Hpy. destruct Hgeo as (_ & _ & Hpxf & Hpyf & _).
  apply allocate_atlas_inv in Halloc as (_ & _ & _ & Hnx2 & Hny2 & Hroom & _);
    [|lia|lia].
  pose proof (count_glyphs_nonneg env (dwidth f0) (charcodes face)) as Hcnt.
  assert (0 < nx f2 ∧ 0 < ny f2) as [Hnxp Hnyp] by nia.
  unfold atlas_seq_init. lia.
Qed.

Lemma load_glyphs_primary_domain env face cs f f' c :
  overlay f = false → load_glyphs env face cs f = Ok f' →
  is_Some (atlasMap f' !! c) ↔
  is_Some (atlasMap f !! c) ∨ (In c cs ∧ isLoadableChar env (dwidth f) c = true).
Proof.
  revert f. induction cs as [|a cs IH]; intros f Hov Hload.
  - apply Ok_inj in Hload. subst f'. simpl. tauto.
  - apply load_glyphs_cons in Hload as (f1 & Hrest & Hstep).
    rewrite Hov in Hstep.
    destruct (isLoadableChar env (dwidth f) a) eqn:Ea.
    + apply loadFace_inv in Hstep as (f2 & Hat & ->).
      apply loadFace_at_inv in Hat as ((Hov2 & Hdw2 & _) & Hmap2 & _).
      assert (Hov1 : overlay (record_glyph a (next_pos f) f2) = false)
        by (simpl; congruence).
      rewrite (IH _ Hov1 Hrest). simpl.
      rewrite lookup_insert_is_Some, Hmap2, Hdw2.
      destruct (decide (a = c)) as [->|Hne]; [tauto|].
      intuition congruence.
    + apply Ok_inj in Hstep. subst f1. rewrite (IH _ Hov Hrest). simpl.
      intuition congruence.
Qed.

Lemma build_map_domain ft env font f0 f face c :
  f0 = blank_Font ∨ (∃ priFont, f0 = doublewidth_members priFont) →
  load ft env font f0 = Ok f → FT_New_Face ft (file font) = Some face →
  is_Some (atlasMap f !! c) ↔
  In c (charcodes face) ∧ isLoadableChar env (dwidth f0) c = true.
Proof.
  intros Hinit Hload Hface.
  destruct (build_start _ _ _ _ _ Hinit Hload)
    as (face' & f2 & Hface' & Hov2 & Hpass & _ & Hdw2 & _ & Hmap2 & _).
  rewrite Hface in Hface'. apply (inj Some) in Hface'. subst face'.
  rewrite (load_glyphs_primary_domain _ _ _ _ _ c Hov2 Hpass).
  rewrite Hmap2, lookup_empty, Hdw2. split.
  - intros [H | H]; [destruct (is_Some_None H)|exact H].
  - auto.
Qed.

(** X13: for a face that enumerates code points of the Basic Multilingual
    Plane only (so that each is its own key, however wide the keys of the
    map are), the atlas map of a primary or double-width font holds
    exactly the loadable code points the face enumerates: those whose
    glyph failed to load or render included, and nothing else. *)
Theorem atlas_map_domain
    (ft : FT_Library) (env : CharEnv) (font : FcPattern) (f0 f : Font)
    (face : FT_Face) (c : Z) :
  f0 = blank_Font ∨ (∃ priFont, f0 = doublewidth_members priFont) →
  load ft env font f0 = Ok f → FT_New_Face ft (file font) = Some face →
  bmp_only face →
  is_Some (atlasMap f !! c) ↔
  In c (charcodes face) ∧ isLoadableChar env (dwidth f0) c = true.
Proof.
  intros Hinit Hload Hface _. apply (build_map_domain ft env font); assumption.
Qed.

Lemma atlas_map_domain_witness :
  is_Some (atlasMap Gallery.bmp_font !! 66) ∧
  ¬ is_Some (atlasMap Gallery.bmp_font !! 20013) ∧
  ¬ is_Some (atlasMap Gallery.bmp_font !! 67).
Proof.
  assert (Hbmp : bmp_only Gallery.bmp_face).
  { intros c Hin. simpl in Hin. destruct Hin as [<- | [<- | [<- | [] ] ] ]; lia. }
  assert (Hload : load Gallery.library Samples.env (Samples.pattern "bmp" 2)
                    blank_Font = Ok Gallery.bmp_font) by evaluate.
  assert (Hface : FT_New_Face Gallery.library (file (Samples.pattern "bmp" 2))
                  = Some Gallery.bmp_face) by evaluate.
  pose proof (λ c, atlas_map_domain _ _ _ _ _ _ c (or_introl eq_refl) Hload Hface Hbmp)
    as Hdom.
  clear Hload Hface.
  split; [|split].
  - apply Hdom. split; [simpl; tauto|evaluate].
  - intros H. apply Hdom in H as [_ H]. vm_compute in H. discriminate H.
  - intros H. apply Hdom in H as [H _]. simpl in H.
    destruct H as [H | [H | [H | [] ] ] ]; discriminate H.
Defined.

(** What the pass keeps about the map, at the end of the build. *)
Lemma build_map_ok ft env font f0 f :
  f0 = blank_Font ∨ (∃ priFont, f0 = doublewidth_members priFont) →
  load ft env font f0 = Ok f → 0 < px f → 0 < py f →
  map_ok f ∧ 0 < nx f <= 255 ∧ 0 < ny f <= 255 ∧ atlas_seq f <= nx f * ny f.
Proof.
  intros Hinit Hload Hpx Hpy.
  destruct (build_start _ _ _ _ _ Hinit Hload)
    as (face & f2 & Hface & Hov2 & Hpass & Hgeo & Hdw2 & Hs2 & Hmap2 & _ & Hgrid).
  destruct (Hgrid Hpx Hpy) as (Hnx2 & Hny2 & Hroom).
  pose proof (load_glyphs_primary_seq _ _ _ _ _ Hov2 Hpass) as [_ Hseqf].
  destruct Hgeo as (_ & _ & _ & _ & _ & Hnxf & Hnyf & _).
  rewrite Hdw2 in Hseqf.
  split; [|rewrite Hnxf, Hnyf, Hseqf, Hs2; lia].
  apply (load_glyphs_primary_map_ok _ _ _ _ _ Hov2 Hpass); try lia.
  - rewrite Hs2, Hdw2. lia.
  - split; intros ? ?; rewrite Hmap2, lookup_empty; discriminate.
Qed.

Lemma map_ok_cells f c p :
  map_ok f → 0 < nx f → atlas_seq f <= nx f * ny f →
  atlasMap f !! c = Some p → in_grid f p ∧ p ≠ {| x := 0; y := 0 |}.
Proof.
  intros [Hpos _] Hnx Hseq Hc. destruct (Hpos _ _ Hc) as (s & Hs & ->).
  unfold atlas_seq_init in Hs. split.
  - apply seq_pos_in_grid; lia.
  - intros Heq. apply seq_pos_origin in Heq; lia.
Qed.

(** X14: in a primary or double-width font every code point of the atlas
    map has a cell inside the grid that is not cell (0,0), and no two code
    points share a cell: the byte coordinates never wrapped around. *)
Theorem atlas_cells_distinct
    (ft : FT_Library) (env : CharEnv) (font : FcPattern) (f0 f : Font) :
  f0 = blank_Font ∨ (∃ priFont, f0 = doublewidth_members priFont) →
  load ft env font f0 = Ok f → 0 < px f → 0 < py f →
  (∀ c p, atlasMap f !! c = Some p → in_grid f p ∧ p ≠ {| x := 0; y := 0 |}) ∧
  (∀ c1 c2 p, atlasMap f !! c1 = Some p → atlasMap f !! c2 = Some p → c1 = c2).
Proof.
  intros Hinit Hload Hpx Hpy.
  destruct (build_map_ok _ _ _ _ _ Hinit Hload Hpx Hpy) as (Hok & Hnx & _ & Hseq).
  split.
  - intros c p. apply map_ok_cells; [exact Hok|lia|exact Hseq].
  - apply Hok.
Qed.

Lemma atlas_cells_distinct_witness :
  (∀ c p, atlasMap Gallery.strikes_font !! c = Some p →
          in_grid Gallery.strikes_font p ∧ p ≠ {| x := 0; y := 0 |}) ∧
  (∀ c1 c2 p, atlasMap Gallery.strikes_font !! c1 = Some p →
              atlasMap Gallery.strikes_font !! c2 = Some p → c1 = c2).
Proof.
  assert (Hload : load Gallery.library Samples.env (Samples.pattern "strikes" 5)
                    blank_Font = Ok Gallery.strikes_font) by evaluate.
  assert (Hpx : 0 < px Gallery.strikes_font) by evaluate.
  assert (Hpy : 0 < py Gallery.strikes_font) by evaluate.
  exact (atlas_cells_distinct _ _ _ _ _ (or_introl eq_refl) Hload Hpx Hpy).
Defined.

(* --------------------------------------------------------------------- *)
(** *** Stores and the bounds of the buffer *)

(** A cell of the grid lies inside the buffer. *)
Lemma in_cell_in_buffer f p o :
  0 < px f → 0 < py f → 0 < nx f → in_grid f p → in_cell f p o →
  0 <= o < atlas_bytes f.
Proof.
  intros Hpx Hpy Hnx [Hx Hy] (r & k & Hr & Hk & ->).
  unfold atlas_bytes, atlas_glyph_offset, bytes_per_pixel in *.
  assert (HW : 0 < nx f * px f) by nia.
  set (W := nx f * px f) in *.
  replace (y p * (4 * nx f * px f * py f) + 4 * x p * px f + 4 * r * nx f * px f + k)
    with (4 * W * (y p * py f + r) + (4 * (x p * px f) + k)) by (subst W; ring).
  replace (4 * nx f * px f * ny f * py f) with (4 * W * (ny f * py f)) by (subst W; ring).
  assert (Hrow : 0 <= y p * py f + r <= ny f * py f - 1) by nia.
  assert (Hcol : 0 <= 4 * (x p * px f) + k < 4 * W) by (subst W; nia).
  split; [nia|].
  assert (4 * W * (y p * py f + r) <= 4 * W * (ny f * py f - 1)) by nia.
  lia.
Qed.

(** X15: in a primary or double-width font whose atlas has fewer than
    2^31 bytes (the range in which the offsets, which the source holds in
    an int, are the exact products), rasterising a glyph whose origin lies
    inside the cell into any cell of the grid stores inside that cell only,
    and so inside the buffer. *)
Theorem glyph_stores_within_buffer
    (ft : FT_Library) (env : CharEnv) (font : FcPattern) (f0 f : Font)
    (apos : AtlasPos) (g : FT_GlyphSlot) (ws : list store) (o v : Z) :
  f0 = blank_Font ∨ (∃ priFont, f0 = doublewidth_members priFont) →
  load ft env font f0 = Ok f → 0 < px f → 0 < py f → atlas_bytes f < 2 ^ 31 →
  in_grid f apos → fits_cell f g →
  glyph_stores f g apos = Ok ws → In (o, v) ws →
  in_cell f apos o ∧ 0 <= o < Z.of_nat (length (atlasBuf f)).
Proof.
  intros Hinit Hload Hpx Hpy Hsmall Hgrid Hfit Hws Hin.
  assert (Hnx : 0 < nx f) by (destruct Hgrid as [Hx _]; lia).
  assert (Hny : 0 < ny f) by (destruct Hgrid as [_ Hy]; lia).
  assert (Hov0 : overlay f0 = false) by (destruct Hinit as [-> | [p ->] ]; reflexivity).
  pose proof (nonoverlay_buffer_length _ _ _ _ _ Hov0 Hload) as Hlen.
  assert (Hbytes : 0 <= atlas_bytes f)
    by (unfold atlas_bytes, bytes_per_pixel; nia).
  rewrite u32_small in Hlen by lia.
  destruct (atlas_small_cells f Hpx Hpy Hnx Hny Hsmall) as [Hpx32 Hpy32].
  assert (Hcell : in_cell f apos o).
  { apply (glyph_stores_in_cell f g apos ws o v); try assumption. nia. }
  split; [exact Hcell|]. rewrite Hlen.
  apply (in_cell_in_buffer f apos o); assumption.
Qed.

Lemma glyph_stores_within_buffer_witness :
  in_cell Gallery.strikes_font {| x := 2; y := 0 |} 112 ∧
  0 <= 112 < Z.of_nat (length (atlasBuf Gallery.strikes_font)).
Proof.
  assert (Hload : load Gallery.library Samples.env (Samples.pattern "strikes" 5)
                    blank_Font = Ok Gallery.strikes_font) by evaluate.
  assert (Hpx : 0 < px Gallery.strikes_font) by evaluate.
  assert (Hpy : 0 < py Gallery.strikes_font) by evaluate.
  assert (Hsmall : atlas_bytes Gallery.strikes_font < 2 ^ 31) by evaluate.
  assert (Hgrid : in_grid Gallery.strikes_font {| x := 2; y := 0 |})
    by (split; split; vm_compute; first [reflexivity | intros H; discriminate H]).
  assert (Hfit : fits_cell Gallery.strikes_font (Samples.dot 0 65))
    by (split; vm_compute; discriminate).
  assert (Hws : glyph_stores Gallery.strikes_font (Samples.dot 0 65) {| x := 2; y := 0 |}
                = Ok [(112, 65); (113, 65); (114, 65)]) by evaluate.
  assert (Hin : In (112, 65) [(112, 65); (113, 65); (114, 65)]) by (left; reflexivity).
  exact (glyph_stores_within_buffer _ _ _ _ _ _ _ _ _ _ (or_introl eq_refl)
           Hload Hpx Hpy Hsmall Hgrid Hfit Hws Hin).
Defined.

(* --------------------------------------------------------------------- *)
(** *** From the bitmap to the finished atlas *)







(* --------------------------------------------------------------------- *)
(** *** The glyphs of an overlay *)





(* --------------------------------------------------------------------- *)
(** *** The blank cell *)

(** X18: when every glyph of the face keeps its origin inside the cell and
    the atlas has fewer than 2^31 bytes (the range in which the offsets,
    which the source holds in an int, are the exact products), cell (0,0)
    of a primary or double-width font is blank: the pass starts at
    sequence number 1 and no glyph reaches into the cell. *)
Theorem blank_cell_when_glyphs_fit
    (ft : FT_Library) (env : CharEnv) (font : FcPattern) (f0 f : Font)
    (face : FT_Face) :
  f0 = blank_Font ∨ (∃ priFont, f0 = doublewidth_members priFont) →
  load ft env font f0 = Ok f → FT_New_Face ft (file font) = Some face →
  0 < px f → 0 < py f → atlas_bytes f < 2 ^ 31 → all_fit face f →
  cell_blank f {| x := 0; y := 0 |}.
Proof. apply blank_cell_of_primary. Qed.

Lemma blank_cell_when_glyphs_fit_witness :
  cell_blank Gallery.strikes_font {| x := 0; y := 0 |}.
Proof.
  assert (Hfit : all_fit Gallery.strikes_face Gallery.strikes_font).
  { intros c g.
    change (FT_Load_Char Gallery.strikes_face
              (glyph_render_mode Gallery.strikes_font) c) with (Gallery.letters c).
    unfold Gallery.letters.
    destruct ((65 <=? c) && (c <=? 67)); [|destruct (c =? 131072)]; intros H;
      try discriminate H; injection H as <-; split; vm_compute; discriminate. }
  assert (Hpx : 0 < px Gallery.strikes_font) by evaluate.
  assert (Hpy : 0 < py Gallery.strikes_font) by evaluate.
  assert (Hsmall : atlas_bytes Gallery.strikes_font < 2 ^ 31) by evaluate.
  assert (Hload : load Gallery.library Samples.env (Samples.pattern "strikes" 5)
                    blank_Font = Ok Gallery.strikes_font) by evaluate.
  assert (Hface : FT_New_Face Gallery.library (file (Samples.pattern "strikes" 5))
                  = Some Gallery.strikes_face) by evaluate.
  exact (blank_cell_when_glyphs_fit _ _ _ _ _ _ (or_introl eq_refl) Hload Hface
           Hpx Hpy Hsmall Hfit).
Defined.

(** X19: cell (0,0) of an overlay font built against a primary font is
    blank when the glyphs of both faces keep their origin inside the cell
    and the atlas has fewer than 2^31 bytes (the range in which the
    offsets, which the source holds in an int, are the exact products):
    the overlay rasterises into the cells of the primary's atlas map only,
    and none of them is cell (0,0). *)
Theorem overlay_blank_cell_when_glyphs_fit
    (ft : FT_Library) (env : CharEnv) (font font' : FcPattern) (pri f : Font)
    (face face' : FT_Face) :
  Font_Regular ft env font = Ok pri → FT_New_Face ft (file font) = Some face →
  Font_Overlay ft env font' pri = Ok f → FT_New_Face ft (file font') = Some face' →
  0 < px pri → 0 < py pri → atlas_bytes pri < 2 ^ 31 →
  all_fit face pri → all_fit face' f →
  cell_blank f {| x := 0; y := 0 |}.
Proof. apply blank_cell_of_overlay. Qed.

Lemma overlay_blank_cell_when_glyphs_fit_witness :
  cell_blank Samples.italic_font {| x := 0; y := 0 |}.
Proof.
  assert (Hfit : all_fit Samples.regular_face Samples.regular_font).
  { intros c g.
    change (FT_Load_Char Samples.regular_face
              (glyph_render_mode Samples.regular_font) c) with (Samples.regular_glyphs c).
    unfold Samples.regular_glyphs.
    destruct (c =? 65); [|destruct (c =? 66)]; intros H;
      try discriminate H; injection H as <-; split; vm_compute; discriminate. }
  assert (Hfit' : all_fit Samples.italic_face Samples.italic_font).
  { intros c g.
    change (FT_Load_Char Samples.italic_face
              (glyph_render_mode Samples.italic_font) c) with (Samples.italic_glyphs c).
    unfold Samples.italic_glyphs.
    destruct (c =? 65); intros H; try discriminate H; injection H as <-;
      split; vm_compute; discriminate. }
  assert (Hpx : 0 < px Samples.regular_font) by evaluate.
  assert (Hpy : 0 < py Samples.regular_font) by evaluate.
  assert (Hsmall : atlas_bytes Samples.regular_font < 2 ^ 31) by evaluate.
  assert (Hpri : Font_Regular Samples.library Samples.env (Samples.pattern "regular" 2)
                 = Ok Samples.regular_font) by evaluate.
  assert (Hface : FT_New_Face Samples.library (file (Samples.pattern "regular" 2))
                  = Some Samples.regular_face) by evaluate.
  assert (Hload : Font_Overlay Samples.library Samples.env (Samples.pattern "italic" 2)
                    Samples.regular_font = Ok Samples.italic_font) by evaluate.
  assert (Hface' : FT_New_Face Samples.library (file (Samples.pattern "italic" 2))
                   = Some Samples.italic_face) by evaluate.
  exact (overlay_blank_cell_when_glyphs_fit _ _ _ _ _ _ _ _ Hpri Hface Hload Hface'
           Hpx Hpy Hsmall Hfit Hfit').
Defined.

(* --------------------------------------------------------------------- *)
(** *** The baseline of a double-width font *)

(** X20: a double-width font takes its baseline from its own face.  On the
    fixed-strike path, for a face with global metrics, it is
    [py·ascender/height] with the primary's cell height [py]; on the scaled
    path, for a face whose metrics leave no quotient of [loadScaled]
    undefined (no divisor 0, every result within the range of its integer
    type), it is [tpy·ascender/height] with the height [tpy] computed for
    the face, although the cell keeps the primary's height. *)
Theorem doublewidth_baseline
    (ft : FT_Library) (env : CharEnv) (font : FcPattern) (priFont f : Font)
    (face : FT_Face) :
  Font_DoubleWidth ft env font priFont = Ok f →
  FT_New_Face ft (file font) = Some face →
  (on_scaled_path face (pixel_size font) = false → height face ≠ 0 →
     baseline f = trunc_div (py priFont * ascender face) (height face)) ∧
  (on_scaled_path face (pixel_size font) = true →
     scaled_metrics_defined face (pixel_size font) →
     baseline f = scaled_baseline face (pixel_size font)).
Proof.
  unfold Font_DoubleWidth. intros Hload Hface.
  destruct (nonoverlay_build_inv ft env font (doublewidth_members priFont) f eq_refl Hload)
    as (face' & f1 & f2 & cols & rws & Hface' & Hsz & _ & _ & _ & _ & Hf2 & _ & Hsame).
  rewrite Hface in Hface'. apply (inj Some) in Hface'. subst face'.
  destruct Hsame as (_ & _ & _ & _ & Hbf & _).
  subst f2. simpl in Hbf. rewrite Hbf. clear Hbf Hload.
  split.
  - intros Hpath Hheight. unfold on_scaled_path in Hpath.
    apply orb_false_elim in Hpath as [Hfix Hfar]. apply negb_false_iff in Hfix.
    unfold sizing, loadFixed in Hsz. rewrite Hfix in Hsz.
    destruct (best_size (pixel_size font) (available_sizes face) 0 (-1) INT_MAX)
      as [bi bd].
    cbn [fst snd] in *. rewrite Hfar in Hsz. simpl in Hsz.
    destruct (2 * px priFont =? size_width (strike_at face bi)); simpl in Hsz;
      [|discriminate].
    destruct (py priFont =? size_height (strike_at face bi)); simpl in Hsz;
      [|discriminate].
    destruct (FT_Set_Pixel_Sizes face (py priFont)); simpl in Hsz; [|discriminate].
    apply Z.eqb_neq in Hheight. rewrite Hheight in Hsz. simpl in Hsz.
    apply Ok_inj in Hsz. subst f1. reflexivity.
  - intros Hpath _. rewrite (sizing_scaled _ _ _ Hpath) in Hsz.
    unfold loadScaled in Hsz. simpl in Hsz.
    destruct (FT_Set_Pixel_Sizes face (pixel_size font)); simpl in Hsz; [|discriminate].
    apply Ok_inj in Hsz. subst f1. reflexivity.
Qed.

Lemma doublewidth_baseline_witness :
  baseline Samples.wide_font = scaled_baseline Samples.wide_face 2 ∧
  scaled_baseline Samples.wide_face 2 = 2 ∧ py Samples.wide_font = 2 ∧
  (scaled_size Samples.wide_face 2).2 = 3.
Proof.
  assert (Hload : Font_DoubleWidth Samples.library Samples.env (Samples.pattern "wide" 2)
                    Samples.regular_font = Ok Samples.wide_font) by evaluate.
  assert (Hface : FT_New_Face Samples.library (file (Samples.pattern "wide" 2))
                  = Some Samples.wide_face) by evaluate.
  assert (Hpath : on_scaled_path Samples.wide_face
                    (pixel_size (Samples.pattern "wide" 2)) = true) by evaluate.
  assert (Hdef : scaled_metrics_defined Samples.wide_face
                    (pixel_size (Samples.pattern "wide" 2))).
  { unfold scaled_metrics_defined.
    split; [|split; [|split; [|split; [|split; [|split] ] ] ] ]; vm_compute;
      first [reflexivity | intros H; discriminate H]. }
  split; [|split; [evaluate|split; evaluate] ].
  exact (proj2 (doublewidth_baseline _ _ _ _ _ _ Hload Hface) Hpath Hdef).
Defined.

(* --------------------------------------------------------------------- *)
(** *** The font pack *)

Lemma build_variant_inv ctor found regular slot :
  build_variant ctor found regular = Ok slot →
  slot = None ∨ ∃ m f, found = Some m ∧ ctor m regular = Ok f ∧ slot = Some f.
Proof.
  unfold build_variant. destruct found as [m|].
  - destruct (ctor m regular) as [f| |] eqn:E; simpl; try discriminate.
    intros H. apply Ok_inj in H. subst slot. right. eauto.
  - intros H. apply Ok_inj in H. subst slot. left. reflexivity.
Qed.

(** A constructor that returned built every font it holds. *)
Lemma Fontpack_ctor_inv fc ft env dpi fontname dwfontname fp :
  Fontpack_ctor fc ft env dpi fontname dwfontname = Ok fp →
  (∃ m, Font_Regular ft env m = Ok (fontRegular fp)) ∧
  fp_px fp = px (fontRegular fp) ∧ fp_py fp = py (fontRegular fp) ∧
  (∀ f, fontItalic fp = Some f ∨ fontBoldItalic fp = Some f ∨ fontBold fp = Some f →
        ∃ m, Font_Overlay ft env m (fontRegular fp) = Ok f) ∧
  (∀ f, fontDoubleWidth fp = Some f →
        ∃ m, Font_DoubleWidth ft env m (fontRegular fp) = Ok f).
Proof.
  unfold Fontpack_ctor.
  destruct (negb (FcInitLoadConfigAndFonts fc)); [discriminate|].
  destruct (FcNameParse fc fontname) as [p0|]; [|discriminate].
  set (p1 := if 0 <? dpi then set_dpi dpi p0 else p0).
  destruct (matchFont fc p1) as [m|]; [|discriminate].
  destruct (Font_Regular ft env m) as [regular| |] eqn:Ereg; simpl; try discriminate.
  set (p2 := set_slant FC_SLANT_ITALIC p1).
  set (p3 := set_weight FC_WEIGHT_BOLD p2).
  set (p4 := set_slant FC_SLANT_ROMAN p3).
  destruct (build_variant (Font_Overlay ft env) (matchFont fc p2) regular)
    as [it| |] eqn:Eit; simpl; try discriminate.
  destruct (build_variant (Font_Overlay ft env) (matchFont fc p3) regular)
    as [bi| |] eqn:Ebi; simpl; try discriminate.
  destruct (build_variant (Font_Overlay ft env) (matchFont fc p4) regular)
    as [bo| |] eqn:Ebo; simpl; try discriminate.
  set (dwbuild := if String.eqb dwfontname EmptyString then Ok None
                  else match FcNameParse fc dwfontname with
                       | Some dwpattern =>
                           build_variant (Font_DoubleWidth ft env)
                                         (matchFont fc dwpattern) regular
                       | None => Ok None
                       end).
  destruct dwbuild as [dw| |] eqn:Edw; simpl; try discriminate.
  intros H. apply Ok_inj in H. subst fp. simpl.
  split; [eauto|]. split; [reflexivity|]. split; [reflexivity|]. split.
  - intros f [-> | [-> | ->] ].
    + apply build_variant_inv in Eit as [H | (m' & f' & _ & Hb & H)]; [discriminate|].
      injection H as ->. eauto.
    + apply build_variant_inv in Ebi as [H | (m' & f' & _ & Hb & H)]; [discriminate|].
      injection H as ->. eauto.
    + apply build_variant_inv in Ebo as [H | (m' & f' & _ & Hb & H)]; [discriminate|].
      injection H as ->. eauto.
  - intros f ->. subst dwbuild.
    destruct (String.eqb dwfontname EmptyString); [discriminate|].
    destruct (FcNameParse fc dwfontname) as [dwp|]; [|discriminate].
    apply build_variant_inv in Edw as [H | (m' & f' & _ & Hb & H)]; [discriminate|].
    injection H as ->. eauto.
Qed.

(** X21: in a font pack that was built, the pack's cell size is the
    regular font's; every style variant present has that cell size and
    the regular font's grid, atlas map and buffer size, so a position
    looked up in the regular font is valid in each of them; and the
    double-width font, when present, has cells twice as wide and as
    high. *)
Theorem fontpack_slots_share_geometry
    (fc : FcConfig) (ft : FT_Library) (env : CharEnv) (dpi : Z)
    (fontname dwfontname : string) (fp : Fontpack) :
  Fontpack_ctor fc ft env dpi fontname dwfontname = Ok fp →
  fp_px fp = px (fontRegular fp) ∧ fp_py fp = py (fontRegular fp) ∧
  (∀ f, fontItalic fp = Some f ∨ fontBoldItalic fp = Some f ∨ fontBold fp = Some f →
        px f = fp_px fp ∧ py f = fp_py fp ∧
        nx f = nx (fontRegular fp) ∧ ny f = ny (fontRegular fp) ∧
        atlasMap f = atlasMap (fontRegular fp) ∧
        length (atlasBuf f) = length (atlasBuf (fontRegular fp))) ∧
  (∀ f, fontDoubleWidth fp = Some f → px f = 2 * fp_px fp ∧ py f = fp_py fp).
Proof.
  intros H. apply Fontpack_ctor_inv in H as (_ & Hpx & Hpy & Hov & Hdw).
  split; [exact Hpx|]. split; [exact Hpy|]. split.
  - intros f Hf. destruct (Hov f Hf) as [m Hb].
    apply overlay_build_geometry in Hb as (? & ? & _ & ? & ? & ? & ? & _).
    rewrite Hpx, Hpy. auto 7.
  - intros f Hf. destruct (Hdw f Hf) as [m Hb].
    apply doublewidth_build_size in Hb as (? & ? & _).
    rewrite Hpx, Hpy. auto.
Qed.

Lemma fontpack_slots_share_geometry_witness :
  fp_px Gallery.pack = px (fontRegular Gallery.pack) ∧
  fp_py Gallery.pack = py (fontRegular Gallery.pack) ∧
  (∀ f, fontItalic Gallery.pack = Some f ∨ fontBoldItalic Gallery.pack = Some f ∨
        fontBold Gallery.pack = Some f →
        px f = fp_px Gallery.pack ∧ py f = fp_py Gallery.pack ∧
        nx f = nx (fontRegular Gallery.pack) ∧ ny f = ny (fontRegular Gallery.pack) ∧
        atlasMap f = atlasMap (fontRegular Gallery.pack) ∧
        length (atlasBuf f) = length (atlasBuf (fontRegular Gallery.pack))) ∧
  (∀ f, fontDoubleWidth Gallery.pack = Some f →
        px f = 2 * fp_px Gallery.pack ∧ py f = fp_py Gallery.pack).
Proof.
  assert (H : Fontpack_ctor Gallery.fontconfig Samples.library Samples.env 0
                "regular" "wide" = Ok Gallery.pack) by evaluate.
  exact (fontpack_slots_share_geometry _ _ _ _ _ _ _ H).
Defined.

Lemma load_throw_font_error ft env font f0 e :
  load ft env font f0 = Throw e → font_error e = true.
Proof.
  intros H.
  apply load_throw in H
    as [-> | [-> | (face & _ & [-> | [ (_ & _ & [-> | ->]) | [ [_ ->] | [_ [m ->] ] ] ] ]) ] ];
    reflexivity.
Qed.

Lemma build_variant_font_error ctor found regular e :
  (∀ m, ctor m regular = Throw e → font_error e = true) →
  build_variant ctor found regular = Throw e → font_error e = true.
Proof.
  intros Hctor. unfold build_variant. destruct found as [m|]; [|discriminate].
  destruct (ctor m regular) as [f|e'|] eqn:E; simpl; try discriminate.
  intros [= <-]. apply (Hctor m E).
Qed.

Lemma fontpack_setup_throw fc ft env dpi fontname dwfontname e :
  Fontpack_ctor fc ft env dpi fontname dwfontname = Throw e →
  font_error e = false →
  (e = Cannot_initialize_fontconfig ∧ FcInitLoadConfigAndFonts fc = false) ∨
  (e = Cannot_parse_font_reference fontname ∧ FcInitLoadConfigAndFonts fc = true ∧
   FcNameParse fc fontname = None) ∨
  (e = Cannot_locate_regular_font fontname ∧ FcInitLoadConfigAndFonts fc = true ∧
   ∃ p, regular_request fc dpi fontname = Some p ∧ matchFont fc p = None).
Proof.
  unfold Fontpack_ctor, regular_request.
  destruct (FcInitLoadConfigAndFonts fc); simpl; [|intros [= <-] _; auto].
  destruct (FcNameParse fc fontname) as [p0|]; [|intros [= <-] _; auto].
  set (p1 := if 0 <? dpi then set_dpi dpi p0 else p0).
  destruct (matchFont fc p1) as [m|] eqn:Em; [|intros [= <-] _; eauto 7].
  intros H Hnot. exfalso.
  assert (Hfont : font_error e = true); [|congruence].
  pose proof (λ m r, load_throw_font_error ft env m (overlay_members r) e) as Hovl.
  pose proof (λ m r, load_throw_font_error ft env m (doublewidth_members r) e) as Hdwl.
  destruct (Font_Regular ft env m) as [regular|e'|] eqn:Ereg; simpl in H;
    [|injection H as <-; apply (load_throw_font_error _ _ _ _ _ Ereg)|discriminate].
  set (p2 := set_slant FC_SLANT_ITALIC p1) in H.
  set (p3 := set_weight FC_WEIGHT_BOLD p2) in H.
  set (p4 := set_slant FC_SLANT_ROMAN p3) in H.
  destruct (build_variant (Font_Overlay ft env) (matchFont fc p2) regular)
    as [it|e'|] eqn:Eit; simpl in H;
    [|injection H as <-; apply (build_variant_font_error _ _ _ _ (λ m, Hovl m regular) Eit)
     |discriminate].
  destruct (build_variant (Font_Overlay ft env) (matchFont fc p3) regular)
    as [bi|e'|] eqn:Ebi; simpl in H;
    [|injection H as <-; apply (build_variant_font_error _ _ _ _ (λ m, Hovl m regular) Ebi)
     |discriminate].
  destruct (build_variant (Font_Overlay ft env) (matchFont fc p4) regular)
    as [bo|e'|] eqn:Ebo; simpl in H;
    [|injection H as <-; apply (build_variant_font_error _ _ _ _ (λ m, Hovl m regular) Ebo)
     |discriminate].
  destruct (String.eqb dwfontname EmptyString); simpl in H; [discriminate|].
  destruct (FcNameParse fc dwfontname) as [dwp|]; simpl in H; [|discriminate].
  destruct (build_variant (Font_DoubleWidth ft env) (matchFont fc dwp) regular)
    as [dw|e'|] eqn:Edw; simpl in H;
    [discriminate
     |injection H as <-; apply (build_variant_font_error _ _ _ _ (λ m, Hdwl m regular) Edw)
     |discriminate].
Qed.

(** X22: each of the three fontconfig errors of the constructor has one
    cause: the library does not initialise; it does, and the font name
    does not parse; both succeed, and nothing matches the request for the
    regular font.  The error names the font asked for, and no failure of
    a font build is reported as one of them. *)
Theorem fontpack_setup_errors
    (fc : FcConfig) (ft : FT_Library) (env : CharEnv) (dpi : Z)
    (fontname dwfontname : string) :
  (Fontpack_ctor fc ft env dpi fontname dwfontname = Throw Cannot_initialize_fontconfig
   ↔ FcInitLoadConfigAndFonts fc = false) ∧
  (∀ s, Fontpack_ctor fc ft env dpi fontname dwfontname
        = Throw (Cannot_parse_font_reference s)
        ↔ s = fontname ∧ FcInitLoadConfigAndFonts fc = true ∧
          FcNameParse fc fontname = None) ∧
  (∀ s, Fontpack_ctor fc ft env dpi fontname dwfontname
        = Throw (Cannot_locate_regular_font s)
        ↔ s = fontname ∧ FcInitLoadConfigAndFonts fc = true ∧
          ∃ p, regular_request fc dpi fontname = Some p ∧ matchFont fc p = None).
Proof.
  split; [|split].
  - split.
    + intros H. apply fontpack_setup_throw in H
        as [ [_ H] | [ [H _] | [H _] ] ]; [exact H|discriminate|discriminate|reflexivity].
    + intros H. unfold Fontpack_ctor. rewrite H. reflexivity.
  - intros s. split.
    + intros H. apply fontpack_setup_throw in H
        as [ [H _] | [ (H & Hi & Hp) | [H _] ] ];
        [discriminate| |discriminate|reflexivity].
      injection H as ->. auto.
    + intros (-> & Hi & Hp). unfold Fontpack_ctor. rewrite Hi, Hp. reflexivity.
  - intros s. split.
    + intros H. apply fontpack_setup_throw in H
        as [ [H _] | [ [H _] | (H & Hi & Hp) ] ];
        [discriminate|discriminate| |reflexivity].
      injection H as ->. auto.
    + intros (-> & Hi & p & Hreq & Hm). unfold Fontpack_ctor, regular_request in *.
      rewrite Hi. simpl.
      destruct (FcNameParse fc fontname) as [p0|]; [|discriminate].
      apply (inj Some) in Hreq. rewrite Hreq, Hm. reflexivity.
Qed.

(* --------------------------------------------------------------------- *)
(** *** Cells without a glyph *)

(** X23: in a primary or double-width font built from a face whose glyphs
    keep their origin inside the cell, with an atlas of fewer than 2^31
    bytes (the range in which the offsets, which the source holds in an
    int, are the exact products), every cell of the grid that is not the
    cell of the sequence number of a rasterised code point is blank: cell
    (0,0), the cells of code points above 0xFFFF or without a glyph, and
    the cells left over at the end of the grid.  The sequence number of a
    code point is one more than the number of loadable code points the
    face enumerates before it. *)
Theorem cells_without_glyph_blank
    (ft : FT_Library) (env : CharEnv) (font : FcPattern) (f0 f : Font)
    (face : FT_Face) (p : AtlasPos) :
  f0 = blank_Font ∨ (∃ priFont, f0 = doublewidth_members priFont) →
  load ft env font f0 = Ok f → FT_New_Face ft (file font) = Some face →
  0 < px f → 0 < py f → atlas_bytes f < 2 ^ 31 → all_fit face f →
  in_grid f p →
  (∀ pre c post, charcodes face = pre ++ c :: post →
     isLoadableChar env (dwidth f0) c = true →
     rasterised face (glyph_render_mode f) c →
     seq_pos (nx f) (atlas_seq_init + count_glyphs env (dwidth f0) pre 0) ≠ p) →
  cell_blank f p.
Proof.
  intros Hinit Hload Hface Hpx Hpy Hsmall Hfit Hgridp Hfree.
  destruct (build_start _ _ _ _ _ Hinit Hload)
    as (face' & f2 & Hface' & Hov2 & Hpass & Hgeo & Hdw2 & Hs2 & _ & (size & Hbuf2) & Hgrid).
  rewrite Hface in Hface'. apply (inj Some) in Hface'. subst face'.
  destruct (Hgrid Hpx Hpy) as (Hnx2 & Hny2 & Hroom). clear Hgrid.
  pose proof Hgeo as (_ & _ & Hpxf & Hpyf & _ & Hnxf & Hnyf & Hmf).
  destruct (atlas_small_cells f Hpx Hpy ltac:(lia) ltac:(lia) Hsmall) as [Hpx32 Hpy32].
  unfold atlas_seq_init in *.
  intros off v Hin Hoff Hlook.
  apply (in_cell_same_geometry _ _ _ _ Hgeo) in Hin.
  rewrite (load_glyphs_primary_frame _ _ _ _ _ off Hov2 Hpass Hoff) in Hlook;
    try lia; try nia.
  - rewrite Hbuf2 in Hlook. apply lookup_resize_nil in Hlook. exact Hlook.
  - apply (all_fit_same_geometry _ f); [apply same_geometry_sym; exact Hgeo|exact Hfit].
  - intros pre c post Hcs Hc Hr Hin'.
    rewrite Hdw2 in Hc. rewrite Hs2, Hdw2 in Hin'.
    pose proof (count_glyphs_nonneg env (dwidth f0) pre) as Hpre.
    pose proof (count_glyphs_nonneg env (dwidth f0) post) as Hpst.
    assert (Hroom' : 1 + count_glyphs env (dwidth f0) pre 0 < nx f2 * ny f2).
    { rewrite Hcs, count_glyphs_app, count_glyphs_cons, Hc in Hroom. lia. }
    assert (Hraw : raw_pos (nx f2) (1 + count_glyphs env (dwidth f0) pre 0)
                   = seq_pos (nx f2) (1 + count_glyphs env (dwidth f0) pre 0)).
    { apply raw_pos_seq_pos; [lia|lia|].
      assert (H255 : (1 + count_glyphs env (dwidth f0) pre 0) / nx f2 < 255); [|lia].
      apply Z.div_lt_upper_bound; nia. }
    rewrite Hraw in Hin'.
    assert (Heq : seq_pos (nx f2) (1 + count_glyphs env (dwidth f0) pre 0) = p).
    { apply (cells_disjoint f2 _ _ off); try lia; try assumption.
      - apply seq_pos_in_grid; lia.
      - unfold in_grid in *. rewrite <- Hnxf, <- Hnyf. exact Hgridp. }
    apply (Hfree pre c post Hcs Hc); [rewrite Hmf; exact Hr|].
    rewrite Hnxf. exact Heq.
Qed.

Lemma cells_without_glyph_blank_witness :
  cell_blank Gallery.strikes_font {| x := 2; y := 1 |}.
Proof.
  assert (Hfit : all_fit Gallery.strikes_face Gallery.strikes_font).
  { intros c g.
    change (FT_Load_Char Gallery.strikes_face
              (glyph_render_mode Gallery.strikes_font) c) with (Gallery.letters c).
    unfold Gallery.letters.
    destruct ((65 <=? c) && (c <=? 67)); [|destruct (c =? 131072)]; intros H;
      try discriminate H; injection H as <-; split; vm_compute; discriminate. }
  assert (Hfree : ∀ pre c post,
            charcodes Gallery.strikes_face = pre ++ c :: post →
            isLoadableChar Samples.env (dwidth blank_Font) c = true →
            rasterised Gallery.strikes_face (glyph_render_mode Gallery.strikes_font) c →
            seq_pos (nx Gallery.strikes_font)
              (atlas_seq_init + count_glyphs Samples.env (dwidth blank_Font) pre 0)
            ≠ {| x := 2; y := 1 |}).
  { intros pre c post Hcs _ [Hle _].
    change (charcodes Gallery.strikes_face)
      with [0; 65; 66; 67; 20013; 65533; 131072] in Hcs.
    do 7 (destruct pre as [|? pre];
          [injection Hcs as <- _;
           first [lia | vm_compute; intros H; discriminate H]
          |injection Hcs as <- Hcs]).
    destruct pre; discriminate Hcs. }
  assert (Hpx : 0 < px Gallery.strikes_font) by evaluate.
  assert (Hpy : 0 < py Gallery.strikes_font) by evaluate.
  assert (Hsmall : atlas_bytes Gallery.strikes_font < 2 ^ 31) by evaluate.
  assert (Hgrid : in_grid Gallery.strikes_font {| x := 2; y := 1 |}).
  { split; split; vm_compute; first [reflexivity | intros H; discriminate H]. }
  assert (Hload : load Gallery.library Samples.env (Samples.pattern "strikes" 5)
                    blank_Font = Ok Gallery.strikes_font) by evaluate.
  assert (Hface : FT_New_Face Gallery.library (file (Samples.pattern "strikes" 5))
                  = Some Gallery.strikes_face) by evaluate.
  exact (cells_without_glyph_blank _ _ _ _ _ _ _ (or_introl eq_refl) Hload Hface
           Hpx Hpy Hsmall Hfit Hgrid Hfree).
Defined.

(* --------------------------------------------------------------------- *)
(** *** A negative left bearing *)

(** X24: for a glyph with a negative left bearing the decode starts
    [xskip = -bitmap_left] columns into each bitmap row but copies as many
    columns as the bitmap is wide, when that fits the cell: the row is not
    shortened by the columns skipped, and the last columns copied are read
    from beyond the end of the bitmap row. *)
Theorem negative_bearing_reads_past_row (f : Font) (g : FT_GlyphSlot) (j k : Z) :
  bitmap_left g < 0 → - bitmap_left g < 2 ^ 32 →
  pixel_mode (bitmap g) = FT_PIXEL_MODE_GRAY →
  is_LCD (glyph_render_mode f) = false →
  0 <= width (bitmap g) <= px f → px f < 2 ^ 32 →
  width (bitmap g) + bitmap_left g <= k < width (bitmap g) →
  xskip (clip f g) = - bitmap_left g ∧
  bw (clip f g) = width (bitmap g) ∧
  pixel_value f g j k 0 = peek (buffer (bitmap g)) (j * pitch (bitmap g) + xskip (clip f g) + k) ∧
  width (bitmap g) <= xskip (clip f g) + k.
Proof.
  intros Hleft Hleft32 Hmode Hlcd Hw Hpx32 Hk.
  assert (Hx : xskip (clip f g) = - bitmap_left g).
  { unfold clip. simpl. apply Z.ltb_lt in Hleft. rewrite Hleft.
    apply u32_small. apply Z.ltb_lt in Hleft. lia. }
  assert (Hbw : bw (clip f g) = width (bitmap g)).
  { unfold clip. simpl. rewrite Hlcd.
    assert (Hpos : (0 <? bitmap_left g) = false) by (apply Z.ltb_ge; lia).
    rewrite Hpos. rewrite Z.sub_0_r. rewrite u32_small by lia.
    unfold umin. destruct (px f <? width (bitmap g)) eqn:E; [|reflexivity].
    apply Z.ltb_lt in E. lia. }
  split; [exact Hx|]. split; [exact Hbw|]. split.
  - unfold pixel_value. rewrite Hmode. reflexivity.
  - rewrite Hx. lia.
Qed.

Lemma negative_bearing_reads_past_row_witness :
  xskip (clip Samples.canvas Gallery.overhang) = - bitmap_left Gallery.overhang ∧
  bw (clip Samples.canvas Gallery.overhang) = width (bitmap Gallery.overhang) ∧
  pixel_value Samples.canvas Gallery.overhang 0 2 0
  = peek (buffer (bitmap Gallery.overhang))
         (0 * pitch (bitmap Gallery.overhang)
          + xskip (clip Samples.canvas Gallery.overhang) + 2) ∧
  width (bitmap Gallery.overhang) <= xskip (clip Samples.canvas Gallery.overhang) + 2.
Proof.
  apply (negative_bearing_reads_past_row Samples.canvas Gallery.overhang 0 2);
    vm_compute;
    first [reflexivity | split; first [reflexivity | intros H; discriminate H] ].
Defined.

(* --------------------------------------------------------------------- *)
(** *** Subpixel rendering and bitmaps of another kind *)

(** X25: when the font renders for subpixels (LCD), the decode takes the
    bitmap to be [width / 3] pixels wide whatever its pixel mode: of a
    mono or gray bitmap, whose width counts pixels, at most the first
    third of the columns is copied. *)
Theorem lcd_mode_copies_a_third
    (f : Font) (g : FT_GlyphSlot) (apos : AtlasPos) (ws : list store) (o v : Z) :
  is_LCD (glyph_render_mode f) = true →
  decode_stores f g apos = Ok ws → In (o, v) ws →
  ∃ j k i, 0 <= k < width (bitmap g) / 3 ∧ 0 <= i < 3 ∧
           o = pixel_offset f g apos j k + i ∧ v = pixel_value f g j k i.
Proof.
  intros Hlcd Hws Hin.
  apply (in_decode_stores _ _ _ _ _ _ Hws) in Hin
    as (j & k & i & _ & Hk & Hi & Ho & Hv).
  exists j, k, i. split; [|auto].
  assert (Hbw : bw (clip f g) <= width (bitmap g) / 3).
  { unfold clip. simpl. rewrite Hlcd. apply umin_le_l. }
  lia.
Qed.

Lemma lcd_mode_copies_a_third_witness :
  ∃ j k i, 0 <= k < width (bitmap Samples.mono_glyph) / 3 ∧ 0 <= i < 3 ∧
           48 = pixel_offset Gallery.lcd_canvas Samples.mono_glyph Samples.cell_1_0 j k + i ∧
           255 = pixel_value Gallery.lcd_canvas Samples.mono_glyph j k i.
Proof.
  assert (Hlcd : is_LCD (glyph_render_mode Gallery.lcd_canvas) = true) by reflexivity.
  assert (Hws : decode_stores Gallery.lcd_canvas Samples.mono_glyph Samples.cell_1_0
                = Ok [(40, 255); (41, 255); (42, 255); (44, 0); (45, 0); (46, 0);
                      (48, 255); (49, 255); (50, 255)]) by evaluate.
  assert (Hin : In (48, 255) [(40, 255); (41, 255); (42, 255); (44, 0); (45, 0); (46, 0);
                              (48, 255); (49, 255); (50, 255)]).
  { do 6 right. left. reflexivity. }
  exact (lcd_mode_copies_a_third _ _ _ _ _ _ Hlcd Hws Hin).
Defined.

(* --------------------------------------------------------------------- *)
(** *** The render mode of a built font *)

Lemma load_render_mode ft env font f0 f :
  load ft env font f0 = Ok f → glyph_render_mode f = render_mode_of font.
Proof.
  intros Hload.
  apply load_inv in Hload as (face & f1 & f2 & _ & Hsz & Halloc & Hpass).
  apply sizing_inv in Hsz as (_ & _ & _ & _ & _ & _ & _ & Hm1 & _). simpl in Hm1.
  assert (Hm2 : glyph_render_mode f2 = glyph_render_mode f1).
  { destruct (overlay f1); [subst f2; reflexivity|].
    unfold allocate_atlas in Halloc. destruct (plan_atlas _ _ _); try discriminate.
    simpl in Halloc. apply Ok_inj in Halloc. subst f2. reflexivity. }
  assert (Hmf : glyph_render_mode f = glyph_render_mode f2).
  { destruct (overlay f2) eqn:Eo.
    - apply (load_glyphs_overlay_inv _ _ _ _ _ Eo Hpass).
    - apply (load_glyphs_primary_seq _ _ _ _ _ Eo Hpass). }
  congruence.
Qed.

(** X26: a built font renders in the mode chosen from its pattern, which
    no later step of the build changes: mono exactly when antialiasing is
    off, and for subpixels (LCD) exactly when antialiasing is on and the
    subpixel order is RGB or BGR, whatever the hint style. *)
Theorem render_mode_from_pattern
    (ft : FT_Library) (env : CharEnv) (font : FcPattern) (f0 f : Font) :
  load ft env font f0 = Ok f →
  glyph_render_mode f = render_mode_of font ∧
  (glyph_render_mode f = FT_RENDER_MODE_MONO ↔ antialias font = false) ∧
  (is_LCD (glyph_render_mode f) = true ↔
   antialias font = true ∧ (rgba font = FC_RGBA_RGB ∨ rgba font = FC_RGBA_BGR)).
Proof.
  intros Hload. rewrite (load_render_mode _ _ _ _ _ Hload).
  split; [reflexivity|]. unfold render_mode_of.
  destruct (antialias font); simpl.
  - destruct (rgba font =? FC_RGBA_RGB) eqn:Ergb; simpl.
    + apply Z.eqb_eq in Ergb.
      destruct ((FC_HINT_NONE <? hint_style font) && (hint_style font <? FC_HINT_FULL));
        simpl; (split; [split; [discriminate|discriminate]|]); tauto.
    + destruct (rgba font =? FC_RGBA_BGR) eqn:Ebgr; simpl.
      * apply Z.eqb_eq in Ebgr.
        destruct ((FC_HINT_NONE <? hint_style font) && (hint_style font <? FC_HINT_FULL));
          simpl; (split; [split; [discriminate|discriminate]|]); tauto.
      * apply Z.eqb_neq in Ergb. apply Z.eqb_neq in Ebgr.
        destruct ((FC_HINT_NONE <? hint_style font) && (hint_style font <? FC_HINT_FULL));
          simpl; (split; [split; [discriminate|discriminate]|]);
          (split; [discriminate|]); intros [_ [H | H] ]; contradiction.
  - split; [tauto|]. split; [discriminate|]. intros [H _]. discriminate H.
Qed.

Lemma render_mode_from_pattern_witness :
  glyph_render_mode Samples.regular_font = render_mode_of (Samples.pattern "regular" 2) ∧
  (glyph_render_mode Samples.regular_font = FT_RENDER_MODE_MONO
   ↔ antialias (Samples.pattern "regular" 2) = false) ∧
  (is_LCD (glyph_render_mode Samples.regular_font) = true ↔
   antialias (Samples.pattern "regular" 2) = true ∧
   (rgba (Samples.pattern "regular" 2) = FC_RGBA_RGB ∨
    rgba (Samples.pattern "regular" 2) = FC_RGBA_BGR)).
Proof.
  assert (Hload : load Samples.library Samples.env (Samples.pattern "regular" 2)
                    blank_Font = Ok Samples.regular_font) by evaluate.
  exact (render_mode_from_pattern _ _ _ _ _ Hload).
Defined.
